(** * Simple Expression Parser (simple_parse.c): lexer, recursive-descent
      parser and the three renderers, embedded as Rocq functions.

    Conventions of the embedding.
    - A C string is a [string]; a [char *] into the middle of a string is the
      suffix that starts there, and a pointer difference is a difference of
      suffix lengths.
    - The token list built by the lexer is a [list token]; a [struct token *]
      cursor is the suffix of the list that starts at the token ([NULL] is
      the empty list, [->next] is the tail).  The [prev] links are only used
      by the lexer to rewind to the head and are not represented.
    - A [struct pt_node *] is an [option pt_node], [NULL] being [None].
    - [malloc] is assumed to succeed, so the allocation-failure branches of
      [create_token], [create_node] and [concat] are not represented.
    - What the parser prints on standard output is kept as a list of lines in
      the parser state. *)

From Stdlib Require Import Bool Arith Lia List Ascii String.
Import ListNotations.
Open Scope string_scope.
Set Warnings "-register-all".

(** ** Tokens *)

Inductive token_type : Type :=
  | LPAREN | RPAREN | EXP | MUL | DIV | ADD | SUB | ATOM.

Definition token_type_eqb (a b : token_type) : bool :=
  match a, b with
  | LPAREN, LPAREN | RPAREN, RPAREN | EXP, EXP | MUL, MUL
  | DIV, DIV | ADD, ADD | SUB, SUB | ATOM, ATOM => true
  | _, _ => false
  end.

Record token : Type := mk_token {
  tok_type : token_type;
  tok_string : string
}.

(** [create_token type init_char token_len] copies the first [token_len]
    characters found at [init_char]. *)
Definition create_token (type : token_type) (init_char : string)
    (token_len : nat) : token :=
  mk_token type (substring 0 token_len init_char).

(** ** Lexer *)

(** [isalpha] and [isdigit] of <ctype.h> in the "C" locale. *)
Definition isalpha (c : ascii) : bool :=
  let n := nat_of_ascii c in
  (((65 <=? n) && (n <=? 90)) || ((97 <=? n) && (n <=? 122)))%nat.

Definition isdigit (c : ascii) : bool :=
  let n := nat_of_ascii c in ((48 <=? n) && (n <=? 57))%nat.

(** The inner loops [while (isalpha( *user_input)) ++user_input;]: the result
    is the position at which the loop stops. *)
Fixpoint skip_while (p : ascii -> bool) (user_input : string) : string :=
  match user_input with
  | String c rest => if p c then skip_while p rest else user_input
  | EmptyString => user_input
  end.

(** The [switch] of the lexer on a character that is neither a letter nor a
    digit; [None] is the [default] label. *)
Definition operator_type (c : ascii) : option token_type :=
  if Ascii.eqb c "("%char then Some LPAREN
  else if Ascii.eqb c ")"%char then Some RPAREN
  else if Ascii.eqb c "^"%char then Some EXP
  else if Ascii.eqb c "*"%char then Some MUL
  else if Ascii.eqb c "/"%char then Some DIV
  else if Ascii.eqb c "+"%char then Some ADD
  else if Ascii.eqb c "-"%char then Some SUB
  else None.

(** What a call of the lexer yields: the pointer it returns and the lines it
    printed. *)
Record lexed : Type := mk_lexed {
  lex_tokens : list token;
  lex_stdout : list string
}.

(** The outer [while ( *user_input != '\0')] loop.  [result] is the list
    built so far (in the source a pointer to its last token).  Every
    iteration consumes at least one character; [fuel] bounds the number of
    iterations and [None] means the bound was too small. *)
Fixpoint lexer_loop (fuel : nat) (user_input : string) (result : list token)
    : option lexed :=
  match user_input with
  | EmptyString => Some (mk_lexed result [])
  | String c rest =>
    match fuel with
    | O => None
    | S fuel' =>
      if isalpha c then
        let first_char := user_input in
        let user_input := skip_while isalpha rest in
        let token_len := String.length first_char - String.length user_input in
        lexer_loop fuel' user_input
          (result ++ [create_token ATOM first_char token_len])
      else if isdigit c then
        let first_char := user_input in
        let user_input := skip_while isdigit rest in
        let token_len := String.length first_char - String.length user_input in
        lexer_loop fuel' user_input
          (result ++ [create_token ATOM first_char token_len])
      else
        match operator_type c with
        | Some type =>
            lexer_loop fuel' rest (result ++ [create_token type user_input 1])
        | None => Some (mk_lexed [] ["Invalid input!"])
        end
    end
  end.

Definition input_lexer (user_input : string) : option lexed :=
  match user_input with
  | EmptyString => Some (mk_lexed [] [])
  | _ => lexer_loop (String.length user_input) user_input []
  end.

(** ** Parse trees *)

Inductive node_type : Type :=
  | NEXPR | NeXPR | NEXPRP | NeXPRP | NEXPRPP | NEXPRPPP
  | NLPAREN | NRPAREN | NEXP | NMUL | NDIV | NADD | NSUB | NATOM | NEPSILON.

Inductive pt_node : Type :=
  | Node (type : node_type) (str : string)
         (child_ptrs : list (option pt_node)).

Definition node_ptr : Type := option pt_node.

Definition string_of (n : pt_node) : string :=
  match n with Node _ s _ => s end.
Definition child_ptrs_of (n : pt_node) : list node_ptr :=
  match n with Node _ _ cs => cs end.
(** [create_node] allocates exactly [num_childs] child slots and every caller
    fills all of them, so [num_childs] is the length of the child array. *)
Definition num_childs (n : pt_node) : nat := List.length (child_ptrs_of n).

Definition create_node (type : node_type) (str : string)
    (children : list node_ptr) : node_ptr :=
  Some (Node type str children).

(** ** Parser state and its monad *)

Record pstate : Type := mk_pstate {
  lexed_in : list token;      (* the cursor [*lexed_in_ptr] *)
  stdout : list string        (* lines printed so far *)
}.

(** A parser action; [None] only when the recursion bound was too small. *)
Definition M (A : Type) : Type := pstate -> option (A * pstate).

Definition ret {A} (a : A) : M A := fun st => Some (a, st).
Definition bind {A B} (m : M A) (k : A -> M B) : M B :=
  fun st => match m st with
            | Some (a, st') => k a st'
            | None => None
            end.
Definition out_of_fuel {A} : M A := fun _ => None.
Definition cursor : M (list token) := fun st => Some (lexed_in st, st).
Definition advance : M unit :=
  fun st => Some (tt, mk_pstate (tl (lexed_in st)) (stdout st)).
Definition printf (line : string) : M unit :=
  fun st => Some (tt, mk_pstate (lexed_in st) (stdout st ++ [line])).

Notation "x <- m ;; k" := (bind m (fun x => k))
  (at level 61, m at next level, right associativity).
Notation "m ;;; k" := (bind m (fun _ => k))
  (at level 61, right associativity).

(** ** Terminals *)

(** The eight functions [lparen], [rparen], [expo], [mul], [quo], [add],
    [sub] and [atom] are the same code up to the token type, the node type
    and the message.  On a mismatch the cursor still advances. *)
Definition terminal (type : token_type) (ntype : node_type) (msg : string)
    : M node_ptr :=
  cur <- cursor ;;
  match cur with
  | [] => printf msg ;;; ret None
  | t :: _ =>
      if token_type_eqb (tok_type t) type then
        advance ;;; ret (create_node ntype (tok_string t) [])
      else
        printf msg ;;; advance ;;; ret None
  end.

Definition lparen := terminal LPAREN NLPAREN "Failed to match left parenthesis!".
Definition rparen := terminal RPAREN NRPAREN "Failed to match right parenthesis!".
Definition expo := terminal EXP NEXP "Failed to match exponentiation operator!".
Definition mul := terminal MUL NMUL "Failed to match multiplication operator!".
Definition quo := terminal DIV NDIV "Failed to match division operator!".
Definition add := terminal ADD NADD "Failed to match addition operator!".
Definition sub := terminal SUB NSUB "Failed to match subtraction operator!".
Definition atom := terminal ATOM NATOM "Failed to match atom!".
Definition epsilon : node_ptr := create_node NEPSILON "" [].

(** ** Nonterminals *)

(** [next_is_EXP p] is the test [p->next != NULL && p->next->type == EXP]
    for a non-null [p]. *)
Definition next_is_EXP (p : list token) : bool :=
  match tl p with
  | t :: _ => token_type_eqb (tok_type t) EXP
  | [] => false
  end.

(** The loop of [exprpp]:
    [while (lookahead != NULL && lookahead->type != RPAREN)
        lookahead = lookahead->next;] *)
Fixpoint lookahead_loop (lookahead : list token) : list token :=
  match lookahead with
  | [] => []
  | t :: next =>
      if token_type_eqb (tok_type t) RPAREN then lookahead
      else lookahead_loop next
  end.

(** The six mutually recursive parse functions.  [fuel] bounds the depth of
    the calls. *)
Fixpoint expr (fuel : nat) : M node_ptr :=
  match fuel with
  | O => out_of_fuel
  | S fuel =>
      c0 <- exprp fuel ;;
      c1 <- Expr fuel ;;
      ret (create_node NEXPR "" [c0; c1])
  end

with Expr (fuel : nat) : M node_ptr :=
  match fuel with
  | O => out_of_fuel
  | S fuel =>
      cur <- cursor ;;
      match cur with
      | [] => ret (create_node NeXPR "" [epsilon])
      | t :: _ =>
          match tok_type t with
          | ADD =>
              c0 <- add ;; c1 <- exprp fuel ;; c2 <- Expr fuel ;;
              ret (create_node NeXPR "" [c0; c1; c2])
          | SUB =>
              c0 <- sub ;; c1 <- exprp fuel ;; c2 <- Expr fuel ;;
              ret (create_node NeXPR "" [c0; c1; c2])
          | _ => ret (create_node NeXPR "" [epsilon])
          end
      end
  end

with exprp (fuel : nat) : M node_ptr :=
  match fuel with
  | O => out_of_fuel
  | S fuel =>
      c0 <- exprpp fuel ;;
      c1 <- Exprp fuel ;;
      ret (create_node NEXPRP "" [c0; c1])
  end

with Exprp (fuel : nat) : M node_ptr :=
  match fuel with
  | O => out_of_fuel
  | S fuel =>
      cur <- cursor ;;
      match cur with
      | [] => ret (create_node NeXPRP "" [epsilon])
      | t :: _ =>
          match tok_type t with
          | MUL =>
              c0 <- mul ;; c1 <- exprpp fuel ;; c2 <- Exprp fuel ;;
              ret (create_node NeXPRP "" [c0; c1; c2])
          | DIV =>
              c0 <- quo ;; c1 <- exprpp fuel ;; c2 <- Exprp fuel ;;
              ret (create_node NeXPRP "" [c0; c1; c2])
          | _ => ret (create_node NeXPRP "" [epsilon])
          end
      end
  end

with exprpp (fuel : nat) : M node_ptr :=
  match fuel with
  | O => out_of_fuel
  | S fuel =>
      cur <- cursor ;;
      match cur with
      | [] => ret None
      | t :: _ =>
          if token_type_eqb (tok_type t) ATOM then
            if next_is_EXP cur then
              c0 <- exprppp fuel ;; c1 <- expo ;; c2 <- exprpp fuel ;;
              ret (create_node NEXPRPP "" [c0; c1; c2])
            else
              c0 <- exprppp fuel ;;
              ret (create_node NEXPRPP "" [c0])
          else
            let lookahead := lookahead_loop cur in
            match lookahead with
            | [] => printf "Invalid input!" ;;; ret None
            | _ :: _ =>
                if next_is_EXP lookahead then
                  c0 <- exprppp fuel ;; c1 <- expo ;; c2 <- exprpp fuel ;;
                  ret (create_node NEXPRPP "" [c0; c1; c2])
                else
                  c0 <- exprppp fuel ;;
                  ret (create_node NEXPRPP "" [c0])
            end
      end
  end

with exprppp (fuel : nat) : M node_ptr :=
  match fuel with
  | O => out_of_fuel
  | S fuel =>
      cur <- cursor ;;
      match cur with
      | [] => ret None
      | t :: _ =>
          if token_type_eqb (tok_type t) ATOM then
            c0 <- atom ;;
            ret (create_node NEXPRPPP "" [c0])
          else
            c0 <- lparen ;; c1 <- expr fuel ;; c2 <- rparen ;;
            ret (create_node NEXPRPPP "" [c0; c1; c2])
      end
  end.

(** The recursion of the six functions consumes a token at least every sixth
    call, which gives the bound used by [parse]. *)
Definition parse_fuel (lexed_input : list token) : nat :=
  6 * List.length lexed_input + 6.

(** [head = expr(&lexed_input)] as in [main]: the tree, the final cursor
    and what was printed. *)
Definition parse (lexed_input : list token) : option (node_ptr * pstate) :=
  expr (parse_fuel lexed_input) (mk_pstate lexed_input []).

(** ** Renderers *)

(** The renderers return [None] where the C code has no defined behaviour:
    a child slot read beyond [num_childs], a [NULL] pointer dereferenced, or
    the end of the function reached without a [return].  The line
    [Invalid input!] they print on a [NULL] argument is not part of the
    returned string and is not represented. *)
Definition R : Type := option string.

Definition rbind (m : R) (k : string -> R) : R :=
  match m with Some s => k s | None => None end.

Notation "'let*' x ':=' m 'in' k" := (rbind m (fun x => k))
  (at level 10, x name, m at level 100, k at level 200).

Definition concat (str1 str2 : string) : string := str1 ++ str2.

(** A renderer on a pointer, given the renderer on non-null nodes. *)
Definition on_ptr (f : pt_node -> R) (head : node_ptr) : R :=
  match head with
  | None => Some ""
  | Some n => f n
  end.

Section ChainLoops.

(** The renderer the loops call on the operands of a chain. *)
Variable render : pt_node -> R.

(** First loop of [pre_compl_par]:
    [while (dummy->num_childs == 3) { "("; dummy = dummy->child_ptrs[2]; }] *)
Fixpoint open_loop (dummy : pt_node) (result : string) : R :=
  match dummy with
  | Node _ _ [_; _; d] =>
      match d with
      | Some dummy' => open_loop dummy' (concat result "(")
      | None => None
      end
  | _ => Some result
  end.

(** Second loop of [pre_compl_par]:
    [while (dummy->num_childs != 1) { op; operand; ")"; dummy = ...; }] *)
Fixpoint close_loop (dummy : pt_node) (result : string) : R :=
  match dummy with
  | Node _ _ [_] => Some result
  | Node _ _ (Some op :: c1 :: Some dummy' :: _) =>
      let result := concat result (string_of op) in
      let* s := on_ptr render c1 in
      let result := concat result s in
      let result := concat result ")" in
      close_loop dummy' result
  | _ => None
  end.

(** Loop of [postfix]. *)
Fixpoint postfix_loop (dummy : pt_node) (result : string) : R :=
  match dummy with
  | Node _ _ [_] => Some result
  | Node _ _ (Some op :: c1 :: Some dummy' :: _) =>
      let* s := on_ptr render c1 in
      let result := concat result s in
      let result := concat result (concat (string_of op) " ") in
      postfix_loop dummy' result
  | _ => None
  end.

(** Loop of [prefix]: the operator goes in front of everything rendered
    so far. *)
Fixpoint prefix_loop (dummy : pt_node) (result : string) : R :=
  match dummy with
  | Node _ _ [_] => Some result
  | Node _ _ (Some op :: c1 :: Some dummy' :: _) =>
      let result := concat (concat (string_of op) " ") result in
      let* s := on_ptr render c1 in
      let result := concat result s in
      prefix_loop dummy' result
  | _ => None
  end.

End ChainLoops.

Fixpoint pre_compl_par_node (head : pt_node) : R :=
  match head with
  | Node type str child_ptrs =>
    let result := "" in
    match type with
    | NEXPR | NEXPRP =>
        match child_ptrs with
        | c0 :: Some child1 :: _ =>
            if Nat.eqb (num_childs child1) 3 then
              match child_ptrs_of child1 with
              | Some op :: c1 :: Some dummy :: _ =>
                  let result := concat result "(" in
                  let* result := open_loop dummy result in
                  let* s := on_ptr pre_compl_par_node c0 in
                  let result := concat result s in
                  let result := concat result (string_of op) in
                  let* s := on_ptr pre_compl_par_node c1 in
                  let result := concat result s in
                  let result := concat result ")" in
                  close_loop pre_compl_par_node dummy result
              | _ => None
              end
            else on_ptr pre_compl_par_node c0
        | _ => None
        end
    | NEXPRPP =>
        match child_ptrs with
        | [c0; _; c2] =>
            let result := concat result "(" in
            let* s := on_ptr pre_compl_par_node c0 in
            let result := concat result s in
            let result := concat result "^" in
            let* s := on_ptr pre_compl_par_node c2 in
            let result := concat result s in
            let result := concat result ")" in
            Some result
        | c0 :: _ => on_ptr pre_compl_par_node c0
        | [] => None
        end
    | NADD | NSUB | NMUL | NDIV | NATOM => Some str
    | NEXPRPPP =>
        match child_ptrs with
        | [c0] => on_ptr pre_compl_par_node c0
        | _ :: c1 :: _ => on_ptr pre_compl_par_node c1
        | [] => None
        end
    | _ => None
    end
  end.

Definition pre_compl_par (head : node_ptr) : R := on_ptr pre_compl_par_node head.

(** [strip_parens]: when the string starts with a left parenthesis, its last
    character is overwritten by the terminator and the copy starts at the
    second character; nothing checks that the last character is a right
    parenthesis, nor that the two match.  The string overwritten is the one
    [pre_compl_par] returned: a fresh copy made by [concat], or the lexeme
    of a leaf, which never starts with a parenthesis when the tokens come
    from the lexer; the overwriting is therefore not represented. *)
Fixpoint drop_last (s : string) : string :=
  match s with
  | EmptyString => EmptyString
  | String c EmptyString => EmptyString
  | String c rest => String c (drop_last rest)
  end.

Definition strip_parens (pre_compl_par : string) : string :=
  match pre_compl_par with
  | String "(" temp => concat "" (drop_last temp)
  | _ => pre_compl_par
  end.

Definition compl_par (head : node_ptr) : R :=
  let* s := pre_compl_par head in Some (strip_parens s).

Fixpoint postfix_node (head : pt_node) : R :=
  match head with
  | Node type str child_ptrs =>
    let result := "" in
    match type with
    | NEXPR | NEXPRP =>
        match child_ptrs with
        | c0 :: Some child1 :: _ =>
            if Nat.eqb (num_childs child1) 3 then
              match child_ptrs_of child1 with
              | Some op :: c1 :: Some dummy :: _ =>
                  let* s := on_ptr postfix_node c0 in
                  let result := concat result s in
                  let* s := on_ptr postfix_node c1 in
                  let result := concat result s in
                  let result := concat result (concat (string_of op) " ") in
                  postfix_loop postfix_node dummy result
              | _ => None
              end
            else on_ptr postfix_node c0
        | _ => None
        end
    | NEXPRPP =>
        match child_ptrs with
        | [c0; _; c2] =>
            let* s := on_ptr postfix_node c0 in
            let result := concat result s in
            let* s := on_ptr postfix_node c2 in
            let result := concat result s in
            let result := concat result "^ " in
            Some result
        | c0 :: _ => on_ptr postfix_node c0
        | [] => None
        end
    | NATOM => Some (concat str " ")
    | NEXPRPPP =>
        match child_ptrs with
        | [c0] => on_ptr postfix_node c0
        | _ :: c1 :: _ => on_ptr postfix_node c1
        | [] => None
        end
    | _ => None
    end
  end.

Definition postfix (head : node_ptr) : R := on_ptr postfix_node head.

Fixpoint prefix_node (head : pt_node) : R :=
  match head with
  | Node type str child_ptrs =>
    let result := "" in
    match type with
    | NEXPR | NEXPRP =>
        match child_ptrs with
        | c0 :: Some child1 :: _ =>
            if Nat.eqb (num_childs child1) 3 then
              match child_ptrs_of child1 with
              | Some op :: c1 :: Some dummy :: _ =>
                  let result := concat result (concat (string_of op) " ") in
                  let* s := on_ptr prefix_node c0 in
                  let result := concat result s in
                  let* s := on_ptr prefix_node c1 in
                  let result := concat result s in
                  prefix_loop prefix_node dummy result
              | _ => None
              end
            else on_ptr prefix_node c0
        | _ => None
        end
    | NEXPRPP =>
        match child_ptrs with
        | [c0; _; c2] =>
            let result := concat result "^ " in
            let* s := on_ptr prefix_node c0 in
            let result := concat result s in
            let* s := on_ptr prefix_node c2 in
            let result := concat result s in
            Some result
        | c0 :: _ => on_ptr prefix_node c0
        | [] => None
        end
    | NATOM => Some (concat str " ")
    | NEXPRPPP =>
        match child_ptrs with
        | [c0] => on_ptr prefix_node c0
        | _ :: c1 :: _ => on_ptr prefix_node c1
        | [] => None
        end
    | _ => None
    end
  end.

Definition prefix (head : node_ptr) : R := on_ptr prefix_node head.

(** ** The program

    [main] lexes the line, parses the tokens and calls the three renderers
    on the same tree. *)
Record renders : Type := mk_renders {
  fully_parenthesized : R;
  postfix_form : R;
  prefix_form : R
}.

Definition render_all (head : node_ptr) : renders :=
  mk_renders (compl_par head) (postfix head) (prefix head).

Definition tokens_of (user_input : string) : list token :=
  match input_lexer user_input with
  | Some l => lex_tokens l
  | None => []
  end.

Definition tree_of (lexed_input : list token) : node_ptr :=
  match parse lexed_input with
  | Some (head, _) => head
  | None => None
  end.

Definition run (user_input : string) : renders :=
  render_all (tree_of (tokens_of user_input)).


(** ** Predicates used to state the properties *)

Fixpoint string_forall (p : ascii -> bool) (s : string) : bool :=
  match s with
  | EmptyString => true
  | String c rest => p c && string_forall p rest
  end.

Fixpoint string_mem (c : ascii) (s : string) : bool :=
  match s with
  | EmptyString => false
  | String a rest => Ascii.eqb c a || string_mem c rest
  end.

(** The characters of an expression: a letter, a digit, or one of the seven
    characters of the parentheses and operators. *)
Definition valid_char (c : ascii) : bool :=
  isalpha c || isdigit c || string_mem c "()^*/+-".

Definition first_char_is (p : ascii -> bool) (s : string) : bool :=
  match s with
  | String c _ => p c
  | EmptyString => false
  end.

(** An atom is a non-empty run of letters or a non-empty run of digits; any
    other token is the single character of its type. *)
Definition token_ok (t : token) : bool :=
  match tok_type t with
  | ATOM =>
      (first_char_is isalpha (tok_string t)
         && string_forall isalpha (tok_string t))
      || (first_char_is isdigit (tok_string t)
            && string_forall isdigit (tok_string t))
  | type =>
      match tok_string t with
      | String c EmptyString =>
          match operator_type c with
          | Some type' => token_type_eqb type' type
          | None => false
          end
      | _ => false
      end
  end.

(** Two consecutive atoms of the same class would not be maximal runs. *)
Definition same_class (t1 t2 : token) : bool :=
  token_type_eqb (tok_type t1) ATOM && token_type_eqb (tok_type t2) ATOM &&
  ((first_char_is isalpha (tok_string t1)
      && first_char_is isalpha (tok_string t2))
   || (first_char_is isdigit (tok_string t1)
         && first_char_is isdigit (tok_string t2))).

Fixpoint maximal_munch (toks : list token) : bool :=
  match toks with
  | t1 :: (t2 :: _) as rest => negb (same_class t1 t2) && maximal_munch rest
  | _ => true
  end.

Fixpoint lexemes (toks : list token) : string :=
  match toks with
  | [] => ""
  | t :: rest => tok_string t ++ lexemes rest
  end.

(** The shape of the trees the parser builds, as far as the renderers
    depend on it: a [NEXPR] or [NEXPRP] node has an operand slot and a
    non-null continuation; a continuation has one child, or a non-null
    operator, an operand slot and a non-null continuation; a [NEXPRPP] node
    has one or three children; a [NEXPRPPP] node has an atom, or three
    children of which the middle one is rendered.  An operand slot may be
    [NULL]. *)
Fixpoint well_formed (n : pt_node) : bool :=
  match n with
  | Node type _ child_ptrs =>
    match type with
    | NEXPR | NEXPRP =>
        match child_ptrs with
        | [c0; Some E] =>
            match c0 with Some n0 => well_formed n0 | None => true end
            && well_formed_chain E
        | _ => false
        end
    | NEXPRPP =>
        match child_ptrs with
        | [c0] => match c0 with Some n0 => well_formed n0 | None => true end
        | [c0; _; c2] =>
            match c0 with Some n0 => well_formed n0 | None => true end
            && match c2 with Some n2 => well_formed n2 | None => true end
        | _ => false
        end
    | NEXPRPPP =>
        match child_ptrs with
        | [c0] => match c0 with Some n0 => well_formed n0 | None => true end
        | [_; c1; _] =>
            match c1 with Some n1 => well_formed n1 | None => true end
        | _ => false
        end
    | NATOM => true
    | _ => false
    end
  end

with well_formed_chain (n : pt_node) : bool :=
  match n with
  | Node _ _ child_ptrs =>
    match child_ptrs with
    | [_] => true
    | [Some _; c1; Some E] =>
        match c1 with Some n1 => well_formed n1 | None => true end
        && well_formed_chain E
    | _ => false
    end
  end.

Definition well_formed_ptr (p : node_ptr) : bool :=
  match p with Some n => well_formed n | None => true end.

(** When [exprpp] returns [NULL]: no token is left, or the first token is
    not an atom and no right parenthesis follows. *)
Definition exprpp_fails (cur : list token) : bool :=
  match cur with
  | [] => true
  | t :: _ =>
      negb (token_type_eqb (tok_type t) ATOM)
      && match lookahead_loop cur with [] => true | _ :: _ => false end
  end.

(** [post m st Q]: the action [m] run in [st] returns, with a result and a
    final state that satisfy [Q]. *)
Definition post {A} (m : M A) (st : pstate) (Q : A -> pstate -> Prop) : Prop :=
  exists r st', m st = Some (r, st') /\ Q r st'.

Definition remaining (st : pstate) : nat := List.length (lexed_in st).

(** ** What the parse functions return

    [returns_f L]: on a cursor of at most [L] tokens and with a recursion
    bound large enough, [f] returns, does not move the cursor backwards,
    and its result has the shape given. *)

Definition returns_exprppp (L : nat) : Prop :=
  forall fuel st, remaining st <= L -> 6 * L + 1 <= fuel ->
    post (exprppp fuel) st
      (fun r st' =>
         match lexed_in st with
         | [] => r = None /\ st' = st
         | _ :: _ =>
             remaining st' < remaining st
             /\ exists n, r = Some n /\ well_formed n = true
         end).

Definition returns_exprpp (L : nat) : Prop :=
  forall fuel st, remaining st <= L -> 6 * L + 2 <= fuel ->
    post (exprpp fuel) st
      (fun r st' =>
         remaining st' <= remaining st
         /\ well_formed_ptr r = true
         /\ (r = None <-> exprpp_fails (lexed_in st) = true)).

Definition returns_Exprp (L : nat) : Prop :=
  forall fuel st, remaining st <= L -> 6 * L + 3 <= fuel ->
    post (Exprp fuel) st
      (fun r st' =>
         remaining st' <= remaining st
         /\ exists n, r = Some n /\ well_formed_chain n = true).

Definition returns_exprp (L : nat) : Prop :=
  forall fuel st, remaining st <= L -> 6 * L + 4 <= fuel ->
    post (exprp fuel) st
      (fun r st' =>
         remaining st' <= remaining st
         /\ exists c E,
             r = Some (Node NEXPRP "" [c; Some E])
             /\ well_formed (Node NEXPRP "" [c; Some E]) = true
             /\ (c = None <-> exprpp_fails (lexed_in st) = true)).

Definition returns_Expr (L : nat) : Prop :=
  forall fuel st, remaining st <= L -> 6 * L + 5 <= fuel ->
    post (Expr fuel) st
      (fun r st' =>
         remaining st' <= remaining st
         /\ exists n, r = Some n /\ well_formed_chain n = true).

Definition returns_expr (L : nat) : Prop :=
  forall fuel st, remaining st <= L -> 6 * L + 6 <= fuel ->
    post (expr fuel) st
      (fun r st' =>
         remaining st' <= remaining st
         /\ exists c E' E,
             r = Some (Node NEXPR "" [Some (Node NEXPRP "" [c; Some E']);
                                      Some E])
             /\ well_formed (Node NEXPR "" [Some (Node NEXPRP "" [c; Some E']);
                                            Some E]) = true
             /\ (c = None <-> exprpp_fails (lexed_in st) = true)).

Definition defined (r : R) : Prop := exists s, r = Some s.

Definition ptr_holds (P : pt_node -> Prop) (p : node_ptr) : Prop :=
  match p with Some n => P n | None => True end.

(** The four loops return on the chain [E], whatever was rendered so far. *)
Definition loops_defined (f : pt_node -> R) (E : pt_node) : Prop :=
  forall result,
    defined (open_loop E result) /\ defined (close_loop f E result)
    /\ defined (postfix_loop f E result) /\ defined (prefix_loop f E result).

Definition chain_defined (f : pt_node -> R) (E : pt_node) : Prop :=
  match child_ptrs_of E with
  | [_] => True
  | [Some _; c1; Some E'] => defined (on_ptr f c1) /\ loops_defined f E'
  | _ => False
  end.

(** A string that does not start with a left parenthesis; the atoms of
    the lexer are such strings. *)
Definition plain (s : string) : bool :=
  negb (first_char_is (Ascii.eqb "("%char) s).

Definition token_plain (t : token) : bool :=
  match tok_type t with
  | ATOM => plain (tok_string t)
  | _ => true
  end.

Definition plain_state (st : pstate) : Prop :=
  forallb token_plain (lexed_in st) = true.

(** Every atom of the tree is a plain string. *)
Fixpoint atoms_plain (n : pt_node) : bool :=
  match n with
  | Node type str child_ptrs =>
      match type with NATOM => plain str | _ => true end
      && forallb (fun c => match c with
                           | Some n' => atoms_plain n'
                           | None => true
                           end) child_ptrs
  end.

Definition atoms_plain_ptr (p : node_ptr) : bool :=
  match p with Some n => atoms_plain n | None => true end.

(** [m] goes from plain tokens to plain tokens and returns a tree with
    plain atoms, whenever it returns. *)
Definition keeps_plain (m : M node_ptr) : Prop :=
  forall st r st',
    m st = Some (r, st') -> plain_state st ->
    plain_state st' /\ atoms_plain_ptr r = true.

(** A string wrapped in one pair of parentheses. *)
Definition wrapped (s : string) : Prop := exists s', s = "(" ++ s' ++ ")".

Definition plain_or_wrapped (s : string) : Prop := plain s = true \/ wrapped s.

(** The scan the specification describes for [exprpp]: over a balanced run
    of parentheses, up to the right parenthesis that closes the left
    parenthesis under the cursor.  [depth] counts the parentheses that are
    open. *)
Fixpoint spec_matching_rparen (depth : nat) (lookahead : list token)
    : list token :=
  match lookahead with
  | [] => []
  | t :: next =>
      match tok_type t with
      | LPAREN => spec_matching_rparen (S depth) next
      | RPAREN =>
          match depth with
          | 0 | 1 => lookahead
          | S depth' => spec_matching_rparen depth' next
          end
      | _ => spec_matching_rparen depth next
      end
  end.

(** Rendering a tree fully parenthesized, then lexing and parsing that
    string again. *)
Definition reparse (head : node_ptr) : node_ptr :=
  match compl_par head with
  | Some s => tree_of (tokens_of s)
  | None => None
  end.

(** [expr] hands a failure to its caller: the only value it could use for
    that is the null pointer. *)
Definition parse_fails (lexed_input : list token) : Prop :=
  exists st, parse lexed_input = Some (None, st).

(** ** The grammar of the source, and the standard forms of an expression

    The derivation trees of the grammar that the comment above [expr]
    gives:
      expr -> exprp Expr,  Expr -> + exprp Expr | - exprp Expr | epsilon,
      exprp -> exprpp Exprp,  Exprp -> * exprpp Exprp | / exprpp Exprp | epsilon,
      exprpp -> exprppp ^ exprpp | exprppp,  exprppp -> atom | ( expr ). *)

Inductive addop : Type := Plus | Minus.
Inductive mulop : Type := Times | Divide.

Inductive deriv_expr : Type :=
  | D_expr (p : deriv_exprp) (E : deriv_Expr)
with deriv_Expr : Type :=
  | D_Expr_more (op : addop) (p : deriv_exprp) (E : deriv_Expr)
  | D_Expr_eps
with deriv_exprp : Type :=
  | D_exprp (pp : deriv_exprpp) (Ep : deriv_Exprp)
with deriv_Exprp : Type :=
  | D_Exprp_more (op : mulop) (pp : deriv_exprpp) (Ep : deriv_Exprp)
  | D_Exprp_eps
with deriv_exprpp : Type :=
  | D_exprpp_exp (ppp : deriv_exprppp) (pp : deriv_exprpp)
  | D_exprpp_one (ppp : deriv_exprppp)
with deriv_exprppp : Type :=
  | D_atom (lexeme : string)
  | D_paren (e : deriv_expr).

Scheme deriv_expr_ind' := Induction for deriv_expr Sort Prop
  with deriv_Expr_ind' := Induction for deriv_Expr Sort Prop
  with deriv_exprp_ind' := Induction for deriv_exprp Sort Prop
  with deriv_Exprp_ind' := Induction for deriv_Exprp Sort Prop
  with deriv_exprpp_ind' := Induction for deriv_exprpp Sort Prop
  with deriv_exprppp_ind' := Induction for deriv_exprppp Sort Prop.

Combined Scheme deriv_mutind from deriv_expr_ind', deriv_Expr_ind',
  deriv_exprp_ind', deriv_Exprp_ind', deriv_exprpp_ind', deriv_exprppp_ind'.

Definition addop_token (op : addop) : token :=
  match op with Plus => mk_token ADD "+" | Minus => mk_token SUB "-" end.
Definition mulop_token (op : mulop) : token :=
  match op with Times => mk_token MUL "*" | Divide => mk_token DIV "/" end.
Definition addop_node (op : addop) : pt_node :=
  match op with Plus => Node NADD "+" [] | Minus => Node NSUB "-" [] end.
Definition mulop_node (op : mulop) : pt_node :=
  match op with Times => Node NMUL "*" [] | Divide => Node NDIV "/" [] end.

(** The tokens a derivation derives, as the lexer writes them. *)
Fixpoint yield_expr (d : deriv_expr) : list token :=
  match d with
  | D_expr p E => (yield_exprp p ++ yield_Expr E)%list
  end
with yield_Expr (d : deriv_Expr) : list token :=
  match d with
  | D_Expr_more op p E => addop_token op :: (yield_exprp p ++ yield_Expr E)%list
  | D_Expr_eps => []
  end
with yield_exprp (d : deriv_exprp) : list token :=
  match d with
  | D_exprp pp Ep => (yield_exprpp pp ++ yield_Exprp Ep)%list
  end
with yield_Exprp (d : deriv_Exprp) : list token :=
  match d with
  | D_Exprp_more op pp Ep =>
      mulop_token op :: (yield_exprpp pp ++ yield_Exprp Ep)%list
  | D_Exprp_eps => []
  end
with yield_exprpp (d : deriv_exprpp) : list token :=
  match d with
  | D_exprpp_exp ppp pp =>
      (yield_exprppp ppp ++ mk_token EXP "^" :: yield_exprpp pp)%list
  | D_exprpp_one ppp => yield_exprppp ppp
  end
with yield_exprppp (d : deriv_exprppp) : list token :=
  match d with
  | D_atom lexeme => [mk_token ATOM lexeme]
  | D_paren e =>
      mk_token LPAREN "(" :: (yield_expr e ++ [mk_token RPAREN ")"])%list
  end.

(** The parse tree of a derivation: one node for each step, built the way
    the function of the same name builds it. *)
Fixpoint tree_expr (d : deriv_expr) : pt_node :=
  match d with
  | D_expr p E => Node NEXPR "" [Some (tree_exprp p); Some (tree_Expr E)]
  end
with tree_Expr (d : deriv_Expr) : pt_node :=
  match d with
  | D_Expr_more op p E =>
      Node NeXPR "" [Some (addop_node op); Some (tree_exprp p);
                     Some (tree_Expr E)]
  | D_Expr_eps => Node NeXPR "" [epsilon]
  end
with tree_exprp (d : deriv_exprp) : pt_node :=
  match d with
  | D_exprp pp Ep => Node NEXPRP "" [Some (tree_exprpp pp); Some (tree_Exprp Ep)]
  end
with tree_Exprp (d : deriv_Exprp) : pt_node :=
  match d with
  | D_Exprp_more op pp Ep =>
      Node NeXPRP "" [Some (mulop_node op); Some (tree_exprpp pp);
                      Some (tree_Exprp Ep)]
  | D_Exprp_eps => Node NeXPRP "" [epsilon]
  end
with tree_exprpp (d : deriv_exprpp) : pt_node :=
  match d with
  | D_exprpp_exp ppp pp =>
      Node NEXPRPP "" [Some (tree_exprppp ppp); Some (Node NEXP "^" []);
                       Some (tree_exprpp pp)]
  | D_exprpp_one ppp => Node NEXPRPP "" [Some (tree_exprppp ppp)]
  end
with tree_exprppp (d : deriv_exprppp) : pt_node :=
  match d with
  | D_atom lexeme => Node NEXPRPPP "" [Some (Node NATOM lexeme [])]
  | D_paren e =>
      Node NEXPRPPP "" [Some (Node NLPAREN "(" []); Some (tree_expr e);
                        Some (Node NRPAREN ")" [])]
  end.

(** The expression a derivation stands for: a binary tree in which [+ - * /]
    associate to the left and [^] to the right, the parentheses gone.  The
    continuations take the operand built so far. *)
Inductive binop : Type := Add | Sub | Mul | Div | Pow.

Definition binop_string (op : binop) : string :=
  match op with
  | Add => "+" | Sub => "-" | Mul => "*" | Div => "/" | Pow => "^"
  end.

Definition addop_binop (op : addop) : binop :=
  match op with Plus => Add | Minus => Sub end.
Definition mulop_binop (op : mulop) : binop :=
  match op with Times => Mul | Divide => Div end.

Inductive ast : Type :=
  | Leaf (lexeme : string)
  | Bin (op : binop) (l r : ast).

Fixpoint ast_expr (d : deriv_expr) : ast :=
  match d with
  | D_expr p E => ast_Expr (ast_exprp p) E
  end
with ast_Expr (left : ast) (d : deriv_Expr) : ast :=
  match d with
  | D_Expr_more op p E => ast_Expr (Bin (addop_binop op) left (ast_exprp p)) E
  | D_Expr_eps => left
  end
with ast_exprp (d : deriv_exprp) : ast :=
  match d with
  | D_exprp pp Ep => ast_Exprp (ast_exprpp pp) Ep
  end
with ast_Exprp (left : ast) (d : deriv_Exprp) : ast :=
  match d with
  | D_Exprp_more op pp Ep =>
      ast_Exprp (Bin (mulop_binop op) left (ast_exprpp pp)) Ep
  | D_Exprp_eps => left
  end
with ast_exprpp (d : deriv_exprpp) : ast :=
  match d with
  | D_exprpp_exp ppp pp => Bin Pow (ast_exprppp ppp) (ast_exprpp pp)
  | D_exprpp_one ppp => ast_exprppp ppp
  end
with ast_exprppp (d : deriv_exprppp) : ast :=
  match d with
  | D_atom lexeme => Leaf lexeme
  | D_paren e => ast_expr e
  end.

(** The three forms of a binary tree, as the textbooks define them; in the
    postfix and prefix forms every atom and operator is followed by a
    space. *)
Fixpoint std_infix (a : ast) : string :=
  match a with
  | Leaf lexeme => lexeme
  | Bin op l r => "(" ++ std_infix l ++ binop_string op ++ std_infix r ++ ")"
  end.

Fixpoint std_postfix (a : ast) : string :=
  match a with
  | Leaf lexeme => lexeme ++ " "
  | Bin op l r => std_postfix l ++ std_postfix r ++ binop_string op ++ " "
  end.

Fixpoint std_prefix (a : ast) : string :=
  match a with
  | Leaf lexeme => lexeme ++ " "
  | Bin op l r => binop_string op ++ " " ++ std_prefix l ++ std_prefix r
  end.

(** The fully parenthesized form without the pair around the whole. *)
Definition std_infix_top (a : ast) : string :=
  match a with
  | Leaf lexeme => lexeme
  | Bin op l r => std_infix l ++ binop_string op ++ std_infix r
  end.

(** The left parentheses that the first loop of [pre_compl_par] writes for
    a continuation, and what its second loop writes. *)
Fixpoint parens_Expr (d : deriv_Expr) : string :=
  match d with
  | D_Expr_more _ _ E => "(" ++ parens_Expr E
  | D_Expr_eps => ""
  end.

Fixpoint parens_Exprp (d : deriv_Exprp) : string :=
  match d with
  | D_Exprp_more _ _ Ep => "(" ++ parens_Exprp Ep
  | D_Exprp_eps => ""
  end.

Fixpoint tail_Expr (d : deriv_Expr) : string :=
  match d with
  | D_Expr_more op p E =>
      binop_string (addop_binop op) ++ std_infix (ast_exprp p) ++ ")"
      ++ tail_Expr E
  | D_Expr_eps => ""
  end.

Fixpoint tail_Exprp (d : deriv_Exprp) : string :=
  match d with
  | D_Exprp_more op pp Ep =>
      binop_string (mulop_binop op) ++ std_infix (ast_exprpp pp) ++ ")"
      ++ tail_Exprp Ep
  | D_Exprp_eps => ""
  end.

(** A derivation whose atoms are lexemes of the lexer: non-empty runs of
    letters or of digits. *)
Definition lexeme_ok (lexeme : string) : bool :=
  token_ok (mk_token ATOM lexeme).

Fixpoint atoms_ok_expr (d : deriv_expr) : bool :=
  match d with
  | D_expr p E => atoms_ok_exprp p && atoms_ok_Expr E
  end
with atoms_ok_Expr (d : deriv_Expr) : bool :=
  match d with
  | D_Expr_more _ p E => atoms_ok_exprp p && atoms_ok_Expr E
  | D_Expr_eps => true
  end
with atoms_ok_exprp (d : deriv_exprp) : bool :=
  match d with
  | D_exprp pp Ep => atoms_ok_exprpp pp && atoms_ok_Exprp Ep
  end
with atoms_ok_Exprp (d : deriv_Exprp) : bool :=
  match d with
  | D_Exprp_more _ pp Ep => atoms_ok_exprpp pp && atoms_ok_Exprp Ep
  | D_Exprp_eps => true
  end
with atoms_ok_exprpp (d : deriv_exprpp) : bool :=
  match d with
  | D_exprpp_exp ppp pp => atoms_ok_exprppp ppp && atoms_ok_exprpp pp
  | D_exprpp_one ppp => atoms_ok_exprppp ppp
  end
with atoms_ok_exprppp (d : deriv_exprppp) : bool :=
  match d with
  | D_atom lexeme => lexeme_ok lexeme
  | D_paren e => atoms_ok_expr e
  end.

(** The first token of [rest] is of one of the [types]. *)
Definition head_type_in (types : list token_type) (rest : list token) : bool :=
  match rest with
  | t :: _ => existsb (token_type_eqb (tok_type t)) types
  | [] => false
  end.

(** [lookahead_agrees_* d rest]: for every parenthesized [exprppp] of the
    derivation [d], read with the tokens [rest] behind it, the test of
    [exprpp] on the token behind the first right parenthesis gives what the
    token behind the matching right parenthesis gives. *)
Fixpoint lookahead_agrees_expr (d : deriv_expr) (rest : list token) : bool :=
  match d with
  | D_expr p E =>
      lookahead_agrees_exprp p (yield_Expr E ++ rest)
      && lookahead_agrees_Expr E rest
  end
with lookahead_agrees_Expr (d : deriv_Expr) (rest : list token) : bool :=
  match d with
  | D_Expr_more _ p E =>
      lookahead_agrees_exprp p (yield_Expr E ++ rest)
      && lookahead_agrees_Expr E rest
  | D_Expr_eps => true
  end
with lookahead_agrees_exprp (d : deriv_exprp) (rest : list token) : bool :=
  match d with
  | D_exprp pp Ep =>
      lookahead_agrees_exprpp pp (yield_Exprp Ep ++ rest)
      && lookahead_agrees_Exprp Ep rest
  end
with lookahead_agrees_Exprp (d : deriv_Exprp) (rest : list token) : bool :=
  match d with
  | D_Exprp_more _ pp Ep =>
      lookahead_agrees_exprpp pp (yield_Exprp Ep ++ rest)
      && lookahead_agrees_Exprp Ep rest
  | D_Exprp_eps => true
  end
with lookahead_agrees_exprpp (d : deriv_exprpp) (rest : list token) : bool :=
  match d with
  | D_exprpp_exp ppp pp =>
      lookahead_agrees_exprppp ppp
        (mk_token EXP "^" :: yield_exprpp pp ++ rest)
      && lookahead_agrees_exprpp pp rest
  | D_exprpp_one ppp => lookahead_agrees_exprppp ppp rest
  end
with lookahead_agrees_exprppp (d : deriv_exprppp) (rest : list token) : bool :=
  match d with
  | D_atom _ => true
  | D_paren e =>
      Bool.eqb
        (next_is_EXP
           (lookahead_loop
              (mk_token LPAREN "(" :: yield_expr e
                 ++ mk_token RPAREN ")" :: rest)))
        (head_type_in [EXP] rest)
      && lookahead_agrees_expr e (mk_token RPAREN ")" :: rest)
  end.

(** [parses f rank yield tree agrees follow d]: on the tokens of [d]
    followed by [rest], the parse function [f] returns the tree of [d] and
    leaves the cursor on [rest], printing nothing, when the lookahead agrees
    on [d], [rest] does not start with a token of [follow], and the
    recursion bound is large enough. *)
Definition parses {D} (f : nat -> M node_ptr) (rank : nat)
    (yield : D -> list token) (tree : D -> pt_node)
    (agrees : D -> list token -> bool) (follow : list token_type) (d : D)
    : Prop :=
  forall rest out fuel,
    agrees d rest = true ->
    head_type_in follow rest = false ->
    6 * List.length (yield d ++ rest) + rank <= fuel ->
    f fuel (mk_pstate (yield d ++ rest)%list out)
    = Some (Some (tree d), mk_pstate rest out).

(** How deep the parentheses of a derivation are nested. *)
Fixpoint depth_expr (d : deriv_expr) : nat :=
  match d with
  | D_expr p E => Nat.max (depth_exprp p) (depth_Expr E)
  end
with depth_Expr (d : deriv_Expr) : nat :=
  match d with
  | D_Expr_more _ p E => Nat.max (depth_exprp p) (depth_Expr E)
  | D_Expr_eps => 0
  end
with depth_exprp (d : deriv_exprp) : nat :=
  match d with
  | D_exprp pp Ep => Nat.max (depth_exprpp pp) (depth_Exprp Ep)
  end
with depth_Exprp (d : deriv_Exprp) : nat :=
  match d with
  | D_Exprp_more _ pp Ep => Nat.max (depth_exprpp pp) (depth_Exprp Ep)
  | D_Exprp_eps => 0
  end
with depth_exprpp (d : deriv_exprpp) : nat :=
  match d with
  | D_exprpp_exp ppp pp => Nat.max (depth_exprppp ppp) (depth_exprpp pp)
  | D_exprpp_one ppp => depth_exprppp ppp
  end
with depth_exprppp (d : deriv_exprppp) : nat :=
  match d with
  | D_atom _ => 0
  | D_paren e => S (depth_expr e)
  end.

(** No right parenthesis is immediately followed by [^]. *)
Fixpoint no_rparen_exp (toks : list token) : bool :=
  match toks with
  | t :: rest =>
      negb (token_type_eqb (tok_type t) RPAREN && head_type_in [EXP] rest)
      && no_rparen_exp rest
  | [] => true
  end.

(** The leaves of an expression are lexemes of the lexer. *)
Fixpoint ast_atoms_ok (a : ast) : bool :=
  match a with
  | Leaf lexeme => lexeme_ok lexeme
  | Bin _ l r => ast_atoms_ok l && ast_atoms_ok r
  end.

(** The derivation of [(a+3)+var^(b+282*c)], the example of the prompt of
    [main]. *)
Definition atom_exprp (lexeme : string) : deriv_exprp :=
  D_exprp (D_exprpp_one (D_atom lexeme)) D_Exprp_eps.

Definition example_derivation : deriv_expr :=
  let a_plus_3 :=
    D_expr (atom_exprp "a") (D_Expr_more Plus (atom_exprp "3") D_Expr_eps) in
  let b_plus_282_times_c :=
    D_expr (atom_exprp "b")
      (D_Expr_more Plus
         (D_exprp (D_exprpp_one (D_atom "282"))
            (D_Exprp_more Times (D_exprpp_one (D_atom "c")) D_Exprp_eps))
         D_Expr_eps) in
  D_expr
    (D_exprp (D_exprpp_one (D_paren a_plus_3)) D_Exprp_eps)
    (D_Expr_more Plus
       (D_exprp
          (D_exprpp_exp (D_atom "var")
             (D_exprpp_one (D_paren b_plus_282_times_c)))
          D_Exprp_eps)
       D_Expr_eps).

(** ** The terminals of a parse tree *)

Definition is_terminal (type : node_type) : bool :=
  match type with
  | NLPAREN | NRPAREN | NEXP | NMUL | NDIV | NADD | NSUB | NATOM => true
  | _ => false
  end.

(** The terminal nodes of a tree from left to right, each with its type and
    lexeme; a null child and an epsilon node contribute nothing. *)
Fixpoint frontier (n : pt_node) : list (node_type * string) :=
  match n with
  | Node type str child_ptrs =>
      if is_terminal type then [(type, str)]
      else flat_map (fun c => match c with
                              | Some n' => frontier n'
                              | None => []
                              end) child_ptrs
  end.

Definition frontier_ptr (p : node_ptr) : list (node_type * string) :=
  match p with Some n => frontier n | None => [] end.

(** The node type that each terminal function gives to a token of its
    type. *)
Definition terminal_type (type : token_type) : node_type :=
  match type with
  | LPAREN => NLPAREN | RPAREN => NRPAREN | EXP => NEXP | MUL => NMUL
  | DIV => NDIV | ADD => NADD | SUB => NSUB | ATOM => NATOM
  end.

Definition terminal_of_token (t : token) : node_type * string :=
  (terminal_type (tok_type t), tok_string t).

(** [reads_from pre m]: when [m] returns, the cursor has moved forward over
    some tokens [consumed], the lines printed so far are still there, and,
    if nothing more was printed, the terminals of the result are [pre]
    followed by the tokens consumed. *)
Definition reads_from (pre : list (node_type * string)) (m : M node_ptr)
    : Prop :=
  forall st r st',
    m st = Some (r, st') ->
    exists consumed printed,
      lexed_in st = (consumed ++ lexed_in st')%list
      /\ stdout st' = (stdout st ++ printed)%list
      /\ (printed = [] ->
          frontier_ptr r = (pre ++ map terminal_of_token consumed)%list).

(** ** The derivation of a fully parenthesized expression

    The derivation that the fully parenthesized form of an expression
    spells: every operand that is not an atom is a parenthesized
    [exprppp]. *)
Fixpoint full_expr (a : ast) : deriv_expr :=
  let primary (x : ast) : deriv_exprppp :=
    match x with
    | Leaf lexeme => D_atom lexeme
    | Bin _ _ _ => D_paren (full_expr x)
    end in
  let operand (x : ast) : deriv_exprp :=
    D_exprp (D_exprpp_one (primary x)) D_Exprp_eps in
  match a with
  | Leaf lexeme => D_expr (atom_exprp lexeme) D_Expr_eps
  | Bin Add l r =>
      D_expr (operand l) (D_Expr_more Plus (operand r) D_Expr_eps)
  | Bin Sub l r =>
      D_expr (operand l) (D_Expr_more Minus (operand r) D_Expr_eps)
  | Bin Mul l r =>
      D_expr
        (D_exprp (D_exprpp_one (primary l))
           (D_Exprp_more Times (D_exprpp_one (primary r)) D_Exprp_eps))
        D_Expr_eps
  | Bin Div l r =>
      D_expr
        (D_exprp (D_exprpp_one (primary l))
           (D_Exprp_more Divide (D_exprpp_one (primary r)) D_Exprp_eps))
        D_Expr_eps
  | Bin Pow l r =>
      D_expr
        (D_exprp (D_exprpp_exp (primary l) (D_exprpp_one (primary r)))
           D_Exprp_eps)
        D_Expr_eps
  end.

Definition full_primary (a : ast) : deriv_exprppp :=
  match a with
  | Leaf lexeme => D_atom lexeme
  | Bin _ _ _ => D_paren (full_expr a)
  end.

(** The base of every power is an atom. *)
Fixpoint power_bases_are_atoms (a : ast) : bool :=
  match a with
  | Leaf _ => true
  | Bin op l r =>
      match op, l with
      | Pow, Bin _ _ _ => false
      | _, _ => power_bases_are_atoms l && power_bases_are_atoms r
      end
  end.

(** ** Trees without a null pointer *)

(** No child slot of the tree holds [NULL]. *)
Fixpoint no_null (n : pt_node) : bool :=
  match n with
  | Node _ _ child_ptrs =>
      forallb (fun c => match c with
                        | Some n' => no_null n'
                        | None => false
                        end) child_ptrs
  end.

Definition no_null_ptr (p : node_ptr) : bool :=
  match p with Some n => no_null n | None => false end.

(** [builds m yield tree]: when [m] returns a tree without a null pointer,
    it printed nothing, and the tree is the parse tree of a derivation of
    the tokens over which it moved the cursor. *)
Definition builds {D} (m : M node_ptr) (yield : D -> list token)
    (tree : D -> pt_node) : Prop :=
  forall st r st',
    forallb token_ok (lexed_in st) = true ->
    m st = Some (r, st') ->
    no_null_ptr r = true ->
    exists d,
      r = Some (tree d)
      /\ lexed_in st = (yield d ++ lexed_in st')%list
      /\ stdout st' = stdout st.

(** The token the lexer makes of the character of an operator or a
    parenthesis. *)
Definition operator_token (type : token_type) : token :=
  mk_token type
    match type with
    | LPAREN => "(" | RPAREN => ")" | EXP => "^" | MUL => "*" | DIV => "/"
    | ADD => "+" | SUB => "-" | ATOM => ""
    end.

(** ** The production that [exprpp] takes

    [exprpp_test ppp rest]: the test of [exprpp] in front of the tokens of
    [ppp] followed by [rest]. *)
Definition exprpp_test (ppp : deriv_exprppp) (rest : list token) : bool :=
  match ppp with
  | D_atom _ => head_type_in [EXP] rest
  | D_paren e =>
      next_is_EXP
        (lookahead_loop
           (mk_token LPAREN "(" :: yield_expr e ++ mk_token RPAREN ")" :: rest))
  end.

(** The part of [lookahead_agrees_exprppp] that is about the tokens between
    the parentheses. *)
Definition lookahead_agrees_inside (ppp : deriv_exprppp) (rest : list token)
    : bool :=
  match ppp with
  | D_atom _ => true
  | D_paren e => lookahead_agrees_expr e (mk_token RPAREN ")" :: rest)
  end.

(** [follows f yield tree agrees follow d]: when [f] returns the tree of [d]
    on the well-formed tokens of [d] followed by [rest], and [rest] does
    not start with a token of [follow], the lookahead agrees on [d]. *)
Definition follows {D} (f : nat -> M node_ptr) (yield : D -> list token)
    (tree : D -> pt_node) (agrees : D -> list token -> bool)
    (follow : list token_type) (d : D) : Prop :=
  forall rest out fuel st',
    forallb token_ok (yield d ++ rest) = true ->
    head_type_in follow rest = false ->
    f fuel (mk_pstate (yield d ++ rest)%list out) = Some (Some (tree d), st') ->
    agrees d rest = true.

(** ** Reading the line in [main]

    The array [user_input] is a list of [MAX_CHARS] characters, whatever
    they are when [main] starts; [stdin] is the list of the characters that
    can be read. *)

Definition MAX_CHARS : nat := 1000.
Definition NUL : ascii := "000"%char.
Definition newline : ascii := "010"%char.

(** What [fgets] reads with room for [n] characters: the characters up to
    and including the first newline, [n] of them at most. *)
Fixpoint read_line (n : nat) (stdin : list ascii) : list ascii :=
  match n, stdin with
  | S n, c :: rest =>
      if Ascii.eqb c newline then [c] else c :: read_line n rest
  | _, _ => []
  end.

(** [fgets(s, size, stdin)] of the C library: the characters read are
    stored at the start of [s] with a null character behind them; when
    nothing can be read the result is [NULL], here [None]. *)
Definition fgets (s : list ascii) (size : nat) (stdin : list ascii)
    : option (list ascii) :=
  match read_line (size - 1) stdin with
  | [] => None
  | line => Some (line ++ NUL :: skipn (S (List.length line)) s)%list
  end.

(** [for (i = 0; i < MAX_CHARS - 1 && user_input[i] != '\n'; ++i) ;]
    from the value [i]; the loop ends within [MAX_CHARS] steps. *)
Fixpoint newline_loop (user_input : list ascii) (i steps : nat) : nat :=
  match steps with
  | O => i
  | S steps =>
      if (i <? MAX_CHARS - 1)%nat
         && negb (Ascii.eqb (nth i user_input NUL) newline)
      then newline_loop user_input (S i) steps
      else i
  end.

(** [s[i] = c]. *)
Fixpoint store (s : list ascii) (i : nat) (c : ascii) : list ascii :=
  match s, i with
  | [], _ => []
  | _ :: rest, O => c :: rest
  | a :: rest, S i => a :: store rest i c
  end.

(** The characters in front of the first [stop]. *)
Fixpoint until (stop : ascii) (s : list ascii) : list ascii :=
  match s with
  | [] => []
  | c :: rest => if Ascii.eqb c stop then [] else c :: until stop rest
  end.

(** The string that an array of characters holds for the functions that
    take a [char *]. *)
Definition c_string (s : list ascii) : string :=
  string_of_list_ascii (until NUL s).

(** [main]: [None] when [fgets] returns [NULL] and [main] returns 1,
    otherwise the three strings computed for the line. *)
Definition main (user_input stdin : list ascii) : option renders :=
  match fgets user_input MAX_CHARS stdin with
  | None => None
  | Some user_input =>
      let i := newline_loop user_input 0 MAX_CHARS in
      let user_input := store user_input i NUL in
      Some (run (c_string user_input))
  end.

(** ** The lexer *)

Section Lexer.

(** The characters on which the [switch] of the lexer has a label. *)
Lemma valid_char_eq c :
  valid_char c
  = isalpha c || isdigit c
    || match operator_type c with Some _ => true | None => false end.
Proof.
  unfold valid_char. f_equal. unfold operator_type. cbn [string_mem].
  repeat (destruct (Ascii.eqb c _); [reflexivity |]). reflexivity.
Qed.

Lemma isalpha_not_digit c : isalpha c = true -> isdigit c = false.
Proof.
  unfold isalpha, isdigit; cbv zeta.
  generalize (nat_of_ascii c); intros n H.
  apply orb_true_iff in H.
  destruct H as [H | H]; apply andb_true_iff in H; destruct H as [H1 H2];
    apply Nat.leb_le in H1; apply Nat.leb_le in H2;
    apply andb_false_iff; right; apply Nat.leb_gt; lia.
Qed.

Lemma skip_while_length p s :
  String.length (skip_while p s) <= String.length s.
Proof.
  induction s as [| c s IH]; simpl; [lia |].
  destruct (p c); simpl; lia.
Qed.

Lemma skip_while_stop p s : first_char_is p (skip_while p s) = false.
Proof.
  induction s as [| c s IH]; simpl; [reflexivity |].
  destruct (p c) eqn:E; simpl; [exact IH | exact E].
Qed.

(** The characters stepped over and the position reached make up the
    string the loop started from. *)
Lemma skip_while_split p s :
  let k := String.length s - String.length (skip_while p s) in
  substring 0 k s ++ skip_while p s = s
  /\ string_forall p (substring 0 k s) = true.
Proof.
  induction s as [| c s IH]; [split; reflexivity |].
  cbn [skip_while]. destruct (p c) eqn:E.
  - pose proof (skip_while_length p s) as Hl.
    cbn [String.length].
    replace (S (String.length s) - String.length (skip_while p s))
      with (S (String.length s - String.length (skip_while p s))) by lia.
    cbn [substring append string_forall].
    destruct IH as [IH1 IH2]. rewrite IH1, E, IH2. split; reflexivity.
  - rewrite Nat.sub_diag. split; reflexivity.
Qed.

Lemma skip_while_forall p q s :
  (forall c, p c = true -> q c = true) ->
  string_forall q (skip_while p s) = string_forall q s.
Proof.
  intros Hpq. induction s as [| c s IH]; simpl; [reflexivity |].
  destruct (p c) eqn:E; simpl; [| reflexivity].
  rewrite (Hpq c E). exact IH.
Qed.

(** What one atom of the lexer looks like: the first character [c] and the
    run that follows it. *)
Lemma atom_token p c rest :
  p c = true ->
  let first_char := String c rest in
  let user_input := skip_while p rest in
  let t := create_token ATOM first_char
             (String.length first_char - String.length user_input) in
  tok_string t ++ user_input = first_char
  /\ first_char_is p (tok_string t) = true
  /\ string_forall p (tok_string t) = true.
Proof.
  intros Hc; cbv zeta. unfold create_token; cbn [tok_string].
  pose proof (skip_while_length p rest) as Hl.
  pose proof (skip_while_split p rest) as [H1 H2].
  replace (String.length (String c rest) - String.length (skip_while p rest))
    with (S (String.length rest - String.length (skip_while p rest)))
    by (cbn [String.length]; lia).
  cbn [substring append string_forall first_char_is].
  rewrite H1, Hc, H2. repeat split; reflexivity.
Qed.

Lemma first_char_lexemes p t toks :
  tok_string t <> "" ->
  first_char_is p (lexemes (t :: toks)) = first_char_is p (tok_string t).
Proof.
  simpl. destruct (tok_string t); [congruence | reflexivity].
Qed.

Lemma token_ok_nonempty t : token_ok t = true -> tok_string t <> "".
Proof.
  unfold token_ok. destruct (tok_type t), (tok_string t); simpl;
    congruence.
Qed.

(** A new token in front of a maximal sequence keeps it maximal when the
    rest of the input does not start with a character of its class. *)
Lemma maximal_munch_cons t toks :
  forallb token_ok toks = true ->
  maximal_munch toks = true ->
  (tok_type t = ATOM ->
     (first_char_is isalpha (tok_string t)
        && first_char_is isalpha (lexemes toks) = false)
     /\ (first_char_is isdigit (tok_string t)
        && first_char_is isdigit (lexemes toks) = false)) ->
  maximal_munch (t :: toks) = true.
Proof.
  intros Hok Hmax Hcls. destruct toks as [| t2 toks]; [reflexivity |].
  change (negb (same_class t t2) && maximal_munch (t2 :: toks) = true).
  rewrite Hmax, andb_true_r. apply negb_true_iff.
  unfold same_class. destruct (tok_type t) eqn:Et; try reflexivity.
  destruct (Hcls eq_refl) as [Ha Hd].
  simpl in Hok. apply andb_true_iff in Hok. destruct Hok as [Hok2 _].
  apply token_ok_nonempty in Hok2.
  rewrite (first_char_lexemes _ _ _ Hok2) in Ha.
  rewrite (first_char_lexemes _ _ _ Hok2) in Hd.
  rewrite Ha, Hd. simpl. apply andb_false_r.
Qed.

Lemma first_alpha_not_digit s :
  first_char_is isalpha s = true -> first_char_is isdigit s = false.
Proof. destruct s; simpl; [reflexivity | apply isalpha_not_digit]. Qed.

Lemma first_digit_not_alpha s :
  first_char_is isdigit s = true -> first_char_is isalpha s = false.
Proof.
  destruct s as [| c s]; simpl; [reflexivity |].
  intros H. destruct (isalpha c) eqn:E; [| reflexivity].
  apply isalpha_not_digit in E. congruence.
Qed.

Lemma operator_type_not_atom c : operator_type c <> Some ATOM.
Proof.
  unfold operator_type.
  repeat match goal with
         | |- context [if ?b then _ else _] => destruct b
         end; discriminate.
Qed.

Lemma operator_token_ok c type :
  operator_type c = Some type ->
  token_ok (mk_token type (String c "")) = true.
Proof.
  intros H. unfold token_ok; simpl. rewrite H.
  destruct type; try reflexivity.
  exfalso. exact (operator_type_not_atom c H).
Qed.

(** The loop started with [result] pointing at the end of [acc]. *)
Lemma lexer_loop_spec fuel :
  forall user_input acc,
    String.length user_input <= fuel ->
    if string_forall valid_char user_input then
      exists toks,
        lexer_loop fuel user_input acc = Some (mk_lexed (acc ++ toks) [])
        /\ lexemes toks = user_input
        /\ forallb token_ok toks = true
        /\ maximal_munch toks = true
    else
      lexer_loop fuel user_input acc
      = Some (mk_lexed [] ["Invalid input!"]).
Proof.
  induction fuel as [| fuel IH]; intros [| c rest] acc Hlen;
    try (simpl in Hlen; lia).
  - exists []. rewrite app_nil_r. repeat split.
  - exists []. rewrite app_nil_r. repeat split.
  - cbn [lexer_loop string_forall]. simpl in Hlen.
    destruct (isalpha c) eqn:Ea; [| destruct (isdigit c) eqn:Ed].
    + (* a run of letters *)
      destruct (atom_token isalpha c rest Ea) as (Hcat & Hfst & Hall).
      cbv zeta in Hcat, Hfst, Hall. cbv zeta.
      set (t := create_token ATOM (String c rest) _) in *.
      assert (Hv : valid_char c = true) by (rewrite valid_char_eq; now rewrite Ea).
      rewrite Hv, andb_true_l.
      rewrite <- (skip_while_forall isalpha valid_char rest)
        by (intros a Ha; rewrite valid_char_eq; now rewrite Ha).
      pose proof (skip_while_length isalpha rest) as Hl.
      specialize (IH (skip_while isalpha rest) (acc ++ [t])%list ltac:(lia)).
      destruct (string_forall valid_char (skip_while isalpha rest));
        [| exact IH].
      destruct IH as (toks & Hrun & Hlex & Hok & Hmax).
      exists (t :: toks). rewrite Hrun, <- app_assoc. simpl app.
      split; [reflexivity |]. split; [simpl; now rewrite Hlex |].
      split.
      * simpl. rewrite Hok, andb_true_r. unfold token_ok.
        change (tok_type t) with ATOM. now rewrite Hfst, Hall.
      * apply maximal_munch_cons; auto. intros _. rewrite Hlex.
        rewrite skip_while_stop, andb_false_r.
        rewrite (first_alpha_not_digit _ Hfst). split; reflexivity.
    + (* a run of digits *)
      destruct (atom_token isdigit c rest Ed) as (Hcat & Hfst & Hall).
      cbv zeta in Hcat, Hfst, Hall. cbv zeta.
      set (t := create_token ATOM (String c rest) _) in *.
      assert (Hv : valid_char c = true)
        by (rewrite valid_char_eq, Ed; now rewrite orb_true_r).
      rewrite Hv, andb_true_l.
      rewrite <- (skip_while_forall isdigit valid_char rest)
        by (intros a Ha; rewrite valid_char_eq, Ha; now rewrite orb_true_r).
      pose proof (skip_while_length isdigit rest) as Hl.
      specialize (IH (skip_while isdigit rest) (acc ++ [t])%list ltac:(lia)).
      destruct (string_forall valid_char (skip_while isdigit rest));
        [| exact IH].
      destruct IH as (toks & Hrun & Hlex & Hok & Hmax).
      exists (t :: toks). rewrite Hrun, <- app_assoc. simpl app.
      split; [reflexivity |]. split; [simpl; now rewrite Hlex |].
      split.
      * simpl. rewrite Hok, andb_true_r. unfold token_ok.
        change (tok_type t) with ATOM. rewrite Hfst, Hall.
        apply orb_true_r.
      * apply maximal_munch_cons; auto. intros _. rewrite Hlex.
        rewrite skip_while_stop, andb_false_r.
        rewrite (first_digit_not_alpha _ Hfst). split; reflexivity.
    + (* a single character *)
      destruct (operator_type c) as [type |] eqn:Eo.
      2: { assert (Hv : valid_char c = false)
             by (rewrite valid_char_eq; now rewrite Ea, Ed, Eo).
           now rewrite Hv. }
      assert (Hv : valid_char c = true)
        by (rewrite valid_char_eq, Eo; apply orb_true_r).
      rewrite Hv, andb_true_l.
      specialize (IH rest
        (acc ++ [create_token type (String c rest) 1])%list ltac:(lia)).
      destruct (string_forall valid_char rest); [| exact IH].
      destruct IH as (toks & Hrun & Hlex & Hok & Hmax).
      assert (Ht : create_token type (String c rest) 1
                   = mk_token type (String c ""))
        by (unfold create_token; simpl; now destruct rest).
      rewrite Ht in *.
      exists (mk_token type (String c "") :: toks).
      rewrite Hrun, <- app_assoc. simpl app.
      split; [reflexivity |]. split; [simpl; now rewrite Hlex |].
      split.
      * cbn [forallb]. now rewrite (operator_token_ok c type Eo), Hok.
      * apply maximal_munch_cons; auto. simpl tok_type. intros ->.
        exfalso. exact (operator_type_not_atom c Eo).
Qed.

Lemma input_lexer_spec (user_input : string) :
  if string_forall valid_char user_input then
    exists toks,
      input_lexer user_input = Some (mk_lexed toks [])
      /\ lexemes toks = user_input
      /\ forallb token_ok toks = true
      /\ maximal_munch toks = true
  else
    input_lexer user_input = Some (mk_lexed [] ["Invalid input!"]).
Proof.
  unfold input_lexer. destruct user_input as [| c rest].
  - exists []. repeat split.
  - exact (lexer_loop_spec _ (String c rest) [] (le_n _)).
Qed.

Lemma token_ok_plain t : token_ok t = true -> token_plain t = true.
Proof.
  unfold token_ok, token_plain, plain.
  destruct (tok_type t); try reflexivity.
  destruct (tok_string t) as [| c s]; [reflexivity |].
  cbn [first_char_is]. intros H.
  destruct (Ascii.eqb "(" c) eqn:E; [| reflexivity].
  apply Ascii.eqb_eq in E. subst c. discriminate.
Qed.

(** The tokens of the lexer have plain atoms, whatever the line. *)
Lemma tokens_of_plain user_input :
  forallb token_plain (tokens_of user_input) = true.
Proof.
  unfold tokens_of. pose proof (input_lexer_spec user_input) as H.
  destruct (string_forall valid_char user_input).
  - destruct H as (toks & -> & _ & Hok & _). cbn [lex_tokens].
    apply forallb_forall. intros t Ht. apply token_ok_plain.
    rewrite forallb_forall in Hok. auto.
  - rewrite H. reflexivity.
Qed.

End Lexer.

(** C9.  The lexer accepts exactly the strings made of letters, digits and
    the characters [( ) ^ * / + -].  On such a string it prints nothing and
    returns tokens whose lexemes, put end to end, are the input; every atom
    is a non-empty run of letters only or of digits only, every other token
    is the one character of its type, and no two consecutive atoms are of
    the same class (so each run is maximal).  On any other string it prints
    [Invalid input!] and returns [NULL]. *)
Theorem input_lexer_accepts_exactly_valid_characters :
  (forall user_input : string,
     if string_forall valid_char user_input then
       exists toks,
         input_lexer user_input = Some (mk_lexed toks [])
         /\ lexemes toks = user_input
         /\ forallb token_ok toks = true
         /\ maximal_munch toks = true
     else
       input_lexer user_input = Some (mk_lexed [] ["Invalid input!"]))
  /\ input_lexer "a$b" = Some (mk_lexed [] ["Invalid input!"])
  /\ input_lexer "a b" = Some (mk_lexed [] ["Invalid input!"])
  /\ input_lexer "ab12+c"
     = Some (mk_lexed [mk_token ATOM "ab"; mk_token ATOM "12";
                       mk_token ADD "+"; mk_token ATOM "c"] []).
Proof.
  split; [exact input_lexer_spec | repeat split].
Qed.

(** ** The parser *)

Section Parser.

Lemma post_ret {A} (a : A) st (Q : A -> pstate -> Prop) :
  Q a st -> post (ret a) st Q.
Proof. intros H. exists a, st. split; [reflexivity | exact H]. Qed.

Lemma post_bind {A B} (m : M A) (k : A -> M B) st Q1 (Q : B -> pstate -> Prop) :
  post m st Q1 ->
  (forall a st', Q1 a st' -> post (k a) st' Q) ->
  post (bind m k) st Q.
Proof.
  intros (a & st' & Hm & HQ1) Hk. unfold post, bind. rewrite Hm.
  exact (Hk a st' HQ1).
Qed.

Lemma token_type_eqb_eq a b : token_type_eqb a b = true <-> a = b.
Proof. destruct a, b; simpl; split; congruence. Qed.

(** A terminal always returns and moves the cursor to the next token
    (when there is one); on a token of its type it returns a leaf. *)
Lemma terminal_post type ntype msg st :
  post (terminal type ntype msg) st
    (fun r st' =>
       lexed_in st' = tl (lexed_in st)
       /\ match lexed_in st with
          | t :: _ =>
              tok_type t = type ->
              r = Some (Node ntype (tok_string t) [])
              /\ stdout st' = stdout st
          | [] => r = None
          end).
Proof.
  unfold terminal, post, bind, cursor, advance, printf, ret, create_node.
  destruct st as [[| t rest] out]; simpl.
  - eexists _, _. split; [reflexivity |]. simpl. auto.
  - destruct (token_type_eqb (tok_type t) type) eqn:E.
    + eexists _, _. split; [reflexivity |]. simpl. auto.
    + eexists _, _. split; [reflexivity |]. simpl. split; [reflexivity |].
      intros Ht. apply token_type_eqb_eq in Ht. congruence.
Qed.

Lemma terminal_remaining type ntype msg st :
  post (terminal type ntype msg) st
    (fun _ st' => remaining st' <= remaining st).
Proof.
  destruct (terminal_post type ntype msg st) as (r & st' & H & Hc & _).
  exists r, st'. split; [exact H |]. unfold remaining. rewrite Hc.
  destruct (lexed_in st); simpl; lia.
Qed.

Lemma bind_cursor {B} (k : list token -> M B) st Q :
  post (k (lexed_in st)) st Q -> post (bind cursor k) st Q.
Proof. intros H. exact H. Qed.

Ltac run_bind H := eapply post_bind; [eapply H | cbv beta].

Lemma exprppp_step L :
  (forall L', L' < L -> returns_expr L') -> returns_exprppp L.
Proof.
  intros IH fuel st HL Hfuel.
  destruct fuel as [| fuel]; [lia |].
  cbn [exprppp]. apply bind_cursor. unfold remaining in *.
  destruct (lexed_in st) as [| t rest] eqn:Ecur.
  { apply post_ret. auto. }
  simpl in HL.
  destruct (token_type_eqb (tok_type t) ATOM) eqn:Et.
  - apply token_type_eqb_eq in Et.
    run_bind terminal_post. intros c0 st1 [Hcur Hm].
    rewrite Ecur in Hcur, Hm. destruct (Hm Et) as [-> _].
    apply post_ret. rewrite Hcur. simpl. split; [lia |].
    eexists. split; reflexivity.
  - run_bind terminal_post. intros c0 st1 [Hcur _].
    rewrite Ecur in Hcur. simpl in Hcur.
    run_bind (IH (L - 1)); try (unfold remaining; rewrite Hcur); try lia.
    intros c1 st2 (Hrem & c & E' & E & -> & Hwf & _).
    run_bind terminal_remaining. intros c2 st3 Hrem3.
    apply post_ret. unfold remaining in *.
    split; [simpl; lia |].
    eexists. split; [reflexivity |]. exact Hwf.
Qed.

(** The two productions of [exprpp], run on a cursor that is not null. *)
Lemma exprpp_three L fuel st :
  returns_exprppp L -> (forall L', L' < L -> returns_exprpp L') ->
  remaining st <= L -> 6 * L + 1 <= fuel -> lexed_in st <> [] ->
  post (c0 <- exprppp fuel ;; c1 <- expo ;; c2 <- exprpp fuel ;;
        ret (create_node NEXPRPP "" [c0; c1; c2])) st
    (fun r st' =>
       remaining st' <= remaining st
       /\ exists n, r = Some n /\ well_formed n = true).
Proof.
  intros Hppp IH HL Hfuel Hne.
  run_bind Hppp; try eassumption.
  intros c0 st1 H0. destruct (lexed_in st) eqn:Ecur; [congruence |].
  destruct H0 as (Hrem1 & n0 & -> & Hwf0).
  run_bind terminal_remaining. intros c1 st2 Hrem2.
  run_bind (IH (L - 1)); try lia.
  intros c2 st3 (Hrem3 & Hwf2 & _).
  apply post_ret. split; [lia |].
  eexists. split; [reflexivity |].
  cbn [well_formed]. rewrite Hwf0. exact Hwf2.
Qed.

Lemma exprpp_one L fuel st :
  returns_exprppp L ->
  remaining st <= L -> 6 * L + 1 <= fuel -> lexed_in st <> [] ->
  post (c0 <- exprppp fuel ;; ret (create_node NEXPRPP "" [c0])) st
    (fun r st' =>
       remaining st' <= remaining st
       /\ exists n, r = Some n /\ well_formed n = true).
Proof.
  intros Hppp HL Hfuel Hne.
  run_bind Hppp; try eassumption.
  intros c0 st1 H0. destruct (lexed_in st) eqn:Ecur; [congruence |].
  destruct H0 as (Hrem1 & n0 & -> & Hwf0).
  apply post_ret. split; [lia |].
  eexists. split; [reflexivity |]. exact Hwf0.
Qed.

Lemma post_weaken {A} (m : M A) st (Q1 Q2 : A -> pstate -> Prop) :
  post m st Q1 -> (forall a st', Q1 a st' -> Q2 a st') -> post m st Q2.
Proof.
  intros (a & st' & Hm & HQ) HQQ. exists a, st'. split; auto.
Qed.

Lemma exprpp_step L :
  returns_exprppp L -> (forall L', L' < L -> returns_exprpp L') -> returns_exprpp L.
Proof.
  intros Hppp IH fuel st HL Hfuel.
  destruct fuel as [| fuel]; [lia |].
  cbn [exprpp]. apply bind_cursor.
  destruct (lexed_in st) as [| t rest] eqn:Ecur.
  { apply post_ret. repeat split; auto. }
  assert (Hne : lexed_in st <> []) by congruence.
  assert (Hsome : forall r st',
    (remaining st' <= remaining st
     /\ exists n, r = Some n /\ well_formed n = true) ->
    exprpp_fails (t :: rest) = false ->
    remaining st' <= remaining st /\ well_formed_ptr r = true
    /\ (r = None <-> exprpp_fails (t :: rest) = true)).
  { intros r st' (Hrem & n & -> & Hwf) Hf. rewrite Hf.
    repeat split; auto; discriminate. }
  unfold exprpp_fails in Hsome |- *.
  destruct (token_type_eqb (tok_type t) ATOM) eqn:Et.
  - destruct (next_is_EXP (t :: rest)).
    + eapply post_weaken; [apply (exprpp_three L); auto; lia |].
      intros r st' H. apply Hsome; auto.
    + eapply post_weaken; [apply (exprpp_one L); auto; lia |].
      intros r st' H. apply Hsome; auto.
  - destruct (lookahead_loop (t :: rest)) as [| t' rest'] eqn:El.
    + eexists _, _. split; [reflexivity |].
      unfold remaining; simpl. repeat split; auto.
    + destruct (next_is_EXP (t' :: rest')).
      * eapply post_weaken; [apply (exprpp_three L); auto; lia |].
        intros r st' H. apply Hsome; auto.
      * eapply post_weaken; [apply (exprpp_one L); auto; lia |].
        intros r st' H. apply Hsome; auto.
Qed.

(** One more operator and operand of a chain: [op] is the terminal of the
    operator under the cursor, [operand] parses what follows it and [rec]
    parses the rest of the chain. *)
Lemma chain_continues (op operand rec : M node_ptr) ntype L st t rest :
  lexed_in st = t :: rest -> remaining st <= L ->
  post op st (fun c0 st1 => lexed_in st1 = rest /\ exists n, c0 = Some n) ->
  (forall st1, remaining st1 <= L ->
     post operand st1
       (fun c1 st2 => remaining st2 <= remaining st1
                      /\ well_formed_ptr c1 = true)) ->
  (forall st2, remaining st2 <= L - 1 ->
     post rec st2
       (fun c2 st3 => remaining st3 <= remaining st2
                      /\ exists n, c2 = Some n /\ well_formed_chain n = true)) ->
  post (c0 <- op ;; c1 <- operand ;; c2 <- rec ;;
        ret (create_node ntype "" [c0; c1; c2])) st
    (fun r st' =>
       remaining st' <= remaining st
       /\ exists n, r = Some n /\ well_formed_chain n = true).
Proof.
  intros Ecur HL Hop Hoperand Hrec. unfold remaining in *.
  rewrite Ecur in *. simpl in HL.
  run_bind Hop. intros c0 st1 (Hcur & n0 & ->).
  run_bind (Hoperand st1); [rewrite Hcur; lia |].
  intros c1 st2 (Hrem2 & Hwf1). rewrite Hcur in Hrem2.
  run_bind (Hrec st2); [lia |].
  intros c2 st3 (Hrem3 & n2 & -> & Hwf2).
  apply post_ret. split; [simpl; lia |].
  eexists. split; [reflexivity |].
  cbn [well_formed_chain]. unfold well_formed_ptr in Hwf1.
  now rewrite Hwf1, Hwf2.
Qed.

Lemma operator_post type ntype msg st t rest :
  lexed_in st = t :: rest -> tok_type t = type ->
  post (terminal type ntype msg) st
    (fun c0 st1 => lexed_in st1 = rest /\ exists n, c0 = Some n).
Proof.
  intros Ecur Et.
  eapply post_weaken; [apply terminal_post |].
  intros c0 st1 [Hcur Hm]. rewrite Ecur in Hcur, Hm.
  destruct (Hm Et) as [-> _]. split; [exact Hcur | eauto].
Qed.

Lemma chain_ends ntype st :
  post (ret (create_node ntype "" [epsilon])) st
    (fun r st' =>
       remaining st' <= remaining st
       /\ exists n, r = Some n /\ well_formed_chain n = true).
Proof.
  apply post_ret. split; [lia |]. eexists. split; reflexivity.
Qed.

Lemma Exprp_step L :
  returns_exprpp L -> (forall L', L' < L -> returns_Exprp L') -> returns_Exprp L.
Proof.
  intros Hpp IH fuel st HL Hfuel.
  destruct fuel as [| fuel]; [lia |].
  cbn [Exprp]. apply bind_cursor.
  destruct (lexed_in st) as [| t rest] eqn:Ecur; [apply chain_ends |].
  assert (H1 : forall st1, remaining st1 <= L ->
            post (exprpp fuel) st1
              (fun c1 st2 => remaining st2 <= remaining st1
                             /\ well_formed_ptr c1 = true)).
  { intros st1 H. eapply post_weaken; [apply (Hpp fuel st1); lia |].
    intros c1 st2 (? & ? & _); auto. }
  assert (H2 : forall st2, remaining st2 <= L - 1 ->
            post (Exprp fuel) st2
              (fun c2 st3 => remaining st3 <= remaining st2
                 /\ exists n, c2 = Some n /\ well_formed_chain n = true)).
  { intros st2 H. unfold remaining in HL. rewrite Ecur in HL. simpl in HL.
    apply (IH (L - 1)); lia. }
  destruct (tok_type t) eqn:Et; try apply chain_ends.
  - eapply chain_continues; eauto using operator_post.
  - eapply chain_continues; eauto using operator_post.
Qed.

Lemma exprp_step L : returns_exprpp L -> returns_Exprp L -> returns_exprp L.
Proof.
  intros Hpp HPp fuel st HL Hfuel.
  destruct fuel as [| fuel]; [lia |].
  cbn [exprp].
  run_bind (Hpp fuel st); try lia.
  intros c0 st1 (Hrem1 & Hwf0 & Hfail).
  run_bind (HPp fuel st1); try lia.
  intros c1 st2 (Hrem2 & E & -> & HwfE).
  apply post_ret. split; [lia |].
  exists c0, E. split; [reflexivity |]. split; [| exact Hfail].
  cbn [well_formed]. unfold well_formed_ptr in Hwf0.
  now rewrite Hwf0, HwfE.
Qed.

Lemma Expr_step L :
  returns_exprp L -> (forall L', L' < L -> returns_Expr L') -> returns_Expr L.
Proof.
  intros Hp IH fuel st HL Hfuel.
  destruct fuel as [| fuel]; [lia |].
  cbn [Expr]. apply bind_cursor.
  destruct (lexed_in st) as [| t rest] eqn:Ecur; [apply chain_ends |].
  assert (H1 : forall st1, remaining st1 <= L ->
            post (exprp fuel) st1
              (fun c1 st2 => remaining st2 <= remaining st1
                             /\ well_formed_ptr c1 = true)).
  { intros st1 H. eapply post_weaken; [apply (Hp fuel st1); lia |].
    intros c1 st2 (? & c & E & -> & Hwf & _). split; [assumption |].
    exact Hwf. }
  assert (H2 : forall st2, remaining st2 <= L - 1 ->
            post (Expr fuel) st2
              (fun c2 st3 => remaining st3 <= remaining st2
                 /\ exists n, c2 = Some n /\ well_formed_chain n = true)).
  { intros st2 H. unfold remaining in HL. rewrite Ecur in HL. simpl in HL.
    apply (IH (L - 1)); lia. }
  destruct (tok_type t) eqn:Et; try apply chain_ends.
  - eapply chain_continues; eauto using operator_post.
  - eapply chain_continues; eauto using operator_post.
Qed.

Lemma expr_step L : returns_exprp L -> returns_Expr L -> returns_expr L.
Proof.
  intros Hp HE fuel st HL Hfuel.
  destruct fuel as [| fuel]; [lia |].
  cbn [expr].
  run_bind (Hp fuel st); try lia.
  intros c0 st1 (Hrem1 & c & E' & -> & Hwf0 & Hfail).
  run_bind (HE fuel st1); try lia.
  intros c1 st2 (Hrem2 & E & -> & HwfE).
  apply post_ret. split; [lia |].
  exists c, E', E. split; [reflexivity |]. split; [| exact Hfail].
  change (well_formed (Node NEXPRP "" [c; Some E']) && well_formed_chain E
          = true).
  now rewrite Hwf0, HwfE.
Qed.

(** All six functions return when the recursion bound is at least six
    times the number of tokens left, plus their rank. *)
Lemma parser_specs L :
  returns_exprppp L /\ returns_exprpp L /\ returns_Exprp L
  /\ returns_exprp L /\ returns_Expr L /\ returns_expr L.
Proof.
  induction L as [L IH] using lt_wf_ind.
  assert (Hppp : returns_exprppp L)
    by (apply exprppp_step; intros L' HL'; apply (IH L' HL')).
  assert (Hpp : returns_exprpp L)
    by (apply exprpp_step; auto; intros L' HL'; apply (IH L' HL')).
  assert (HPp : returns_Exprp L)
    by (apply Exprp_step; auto; intros L' HL'; apply (IH L' HL')).
  assert (Hp : returns_exprp L) by (apply exprp_step; auto).
  assert (HE : returns_Expr L)
    by (apply Expr_step; auto; intros L' HL'; apply (IH L' HL')).
  assert (He : returns_expr L) by (apply expr_step; auto).
  tauto.
Qed.

(** [expr] applied to any token list returns a [NEXPR] node whose first
    child is a [NEXPRP] node; the renderers are defined on that tree, and
    the operand slot [c] is null exactly when [exprpp] gives up on the
    first token. *)
Lemma parse_returns (lexed_input : list token) :
  exists c E' E st',
    parse lexed_input
    = Some (Some (Node NEXPR "" [Some (Node NEXPRP "" [c; Some E']); Some E]),
            st')
    /\ well_formed (Node NEXPR "" [Some (Node NEXPRP "" [c; Some E']); Some E])
       = true
    /\ (c = None <-> exprpp_fails lexed_input = true)
    /\ List.length (lexed_in st') <= List.length lexed_input.
Proof.
  destruct (parser_specs (List.length lexed_input))
    as (_ & _ & _ & _ & _ & He).
  destruct (He (parse_fuel lexed_input) (mk_pstate lexed_input []))
    as (r & st' & Hrun & Hrem & c & E' & E & -> & Hwf & Hfail).
  - unfold remaining; simpl; lia.
  - unfold parse_fuel; lia.
  - exists c, E', E, st'. repeat split; auto; apply Hfail.
Qed.

(** The loop of [exprpp] stops at the first right parenthesis: the tokens
    it steps over are not right parentheses, and it stops on a right
    parenthesis or at the end of the list. *)
Lemma lookahead_loop_first_rparen (cur : list token) :
  exists before,
    cur = (before ++ lookahead_loop cur)%list
    /\ forallb (fun t => negb (token_type_eqb (tok_type t) RPAREN)) before
       = true
    /\ match lookahead_loop cur with
       | t :: _ => tok_type t = RPAREN
       | [] => True
       end.
Proof.
  induction cur as [| t cur (before & Hcur & Hbefore & Hstop)].
  - exists []. repeat split.
  - cbn [lookahead_loop].
    destruct (token_type_eqb (tok_type t) RPAREN) eqn:E.
    + exists []. repeat split. now apply token_type_eqb_eq.
    + exists (t :: before). cbn [app forallb]. rewrite E, Hbefore.
      repeat split; [now rewrite <- Hcur | exact Hstop].
Qed.

(** *** The atoms of the tree are lexemes of atoms *)

Lemma bind_inv {A B} (m : M A) (k : A -> M B) st r st' :
  bind m k st = Some (r, st') ->
  exists a st1, m st = Some (a, st1) /\ k a st1 = Some (r, st').
Proof.
  unfold bind. destruct (m st) as [[a st1] |]; [eauto | discriminate].
Qed.

Lemma keeps_plain_ret r : atoms_plain_ptr r = true -> keeps_plain (ret r).
Proof. intros Hr st r' st' H Hst. inversion H; subst. auto. Qed.

Lemma keeps_plain_cursor (k : list token -> M node_ptr) :
  (forall cur, keeps_plain (k cur)) -> keeps_plain (bind cursor k).
Proof. intros Hk st r st' H. exact (Hk (lexed_in st) st r st' H). Qed.

Lemma keeps_plain_printf msg r :
  atoms_plain_ptr r = true -> keeps_plain (printf msg ;;; ret r).
Proof. intros Hr st r' st' H Hst. inversion H; subst. auto. Qed.

Lemma keeps_plain_node (m : M node_ptr) (k : node_ptr -> M node_ptr) :
  keeps_plain m ->
  (forall c, atoms_plain_ptr c = true -> keeps_plain (k c)) ->
  keeps_plain (bind m k).
Proof.
  intros Hm Hk st r st' H Hst.
  apply bind_inv in H. destruct H as (c & st1 & H1 & H2).
  destruct (Hm _ _ _ H1 Hst) as [Hst1 Hc].
  exact (Hk c Hc _ _ _ H2 Hst1).
Qed.

Lemma terminal_keeps_plain type ntype msg :
  (ntype = NATOM -> type = ATOM) -> keeps_plain (terminal type ntype msg).
Proof.
  intros Hty st r st' H Hst. unfold plain_state in *.
  unfold terminal, bind, cursor, advance, printf, ret, create_node in H.
  destruct st as [[| t rest] out]; simpl in *.
  - inversion H; subst. auto.
  - apply andb_true_iff in Hst. destruct Hst as [Ht Hrest].
    destruct (token_type_eqb (tok_type t) type) eqn:E;
      inversion H; subst; simpl; split; auto.
    rewrite andb_true_r. destruct ntype; try reflexivity.
    apply token_type_eqb_eq in E. rewrite (Hty eq_refl) in E.
    unfold token_plain in Ht. now rewrite E in Ht.
Qed.

Ltac plain_node :=
  repeat (apply keeps_plain_node;
          [auto using terminal_keeps_plain
          | let c := fresh "c" in let Hc := fresh "Hc" in intros c Hc]);
  try (apply terminal_keeps_plain; intros; congruence);
  try (apply keeps_plain_ret; cbn [create_node atoms_plain_ptr atoms_plain forallb];
       unfold atoms_plain_ptr in *;
       repeat match goal with H : _ = true |- _ => rewrite H; clear H end;
       reflexivity).

Lemma parser_keeps_plain fuel :
  keeps_plain (exprppp fuel) /\ keeps_plain (exprpp fuel)
  /\ keeps_plain (Exprp fuel) /\ keeps_plain (exprp fuel)
  /\ keeps_plain (Expr fuel) /\ keeps_plain (expr fuel).
Proof.
  induction fuel as [| fuel (IHppp & IHpp & IHPp & IHp & IHE & IHe)].
  { repeat apply conj; intros st r st' H; discriminate. }
  assert (Ht : forall type ntype msg,
             ntype <> NATOM -> keeps_plain (terminal type ntype msg))
    by (intros; apply terminal_keeps_plain; congruence).
  repeat apply conj.
  - cbn [exprppp]. apply keeps_plain_cursor. intros [| t rest].
    + now apply keeps_plain_ret.
    + destruct (token_type_eqb (tok_type t) ATOM); plain_node.
  - cbn [exprpp]. apply keeps_plain_cursor. intros [| t rest].
    + now apply keeps_plain_ret.
    + destruct (token_type_eqb (tok_type t) ATOM).
      * destruct (next_is_EXP _); plain_node.
      * destruct (lookahead_loop _).
        -- now apply keeps_plain_printf.
        -- destruct (next_is_EXP _); plain_node.
  - cbn [Exprp]. apply keeps_plain_cursor. intros [| t rest].
    + now apply keeps_plain_ret.
    + destruct (tok_type t); plain_node.
  - cbn [exprp]. plain_node.
  - cbn [Expr]. apply keeps_plain_cursor. intros [| t rest].
    + now apply keeps_plain_ret.
    + destruct (tok_type t); plain_node.
  - cbn [expr]. plain_node.
Qed.

End Parser.

(** ** The renderers on the trees of the parser *)

Section Renderers.

(** Induction on a tree, with the hypothesis on every non-null child. *)
Lemma pt_node_children_ind (P : pt_node -> Prop) :
  (forall type str child_ptrs,
     Forall (ptr_holds P) child_ptrs -> P (Node type str child_ptrs)) ->
  forall n, P n.
Proof.
  intros H. fix IH 1. intros [type str child_ptrs]. apply H.
  induction child_ptrs as [| c cs IHcs]; constructor.
  - destruct c as [n |]; [apply IH | exact I].
  - exact IHcs.
Qed.

Lemma chain_defined_loops f E : chain_defined f E -> loops_defined f E.
Proof.
  destruct E as [type str cs]. unfold chain_defined; simpl.
  destruct cs as [| [op |] [| c1 [| [E' |] [| c3 cs]]]]; try tauto;
    try (intros _ result; repeat split; eexists; reflexivity).
  intros [[s Hs] Hloops] result.
  cbn [open_loop close_loop postfix_loop prefix_loop].
  rewrite Hs. cbn [rbind].
  repeat split; apply Hloops.
Qed.

(** The part of the argument that is the same for the three renderers:
    a well-formed chain below a node is a chain on which the loops
    return, once the renderer returns on the well-formed children. *)
Lemma chain_defined_step (f : pt_node -> R) type str cs :
  Forall (ptr_holds (fun n =>
            (well_formed n = true -> defined (f n))
            /\ (well_formed_chain n = true -> chain_defined f n))) cs ->
  well_formed_chain (Node type str cs) = true ->
  chain_defined f (Node type str cs).
Proof.
  intros IH Hwf. unfold chain_defined. cbn [child_ptrs_of].
  cbn [well_formed_chain] in Hwf.
  destruct cs as [| [op |] [| c1 [| [E' |] [| c3 cs]]]]; try discriminate;
    try exact I.
  apply andb_true_iff in Hwf. destruct Hwf as [Hw1 HwE].
  inversion_clear IH as [| ? ? _ IH1]. inversion_clear IH1 as [| ? ? IHc1 IH2].
  inversion_clear IH2 as [| ? ? IHE _]. simpl in IHE.
  split.
  - destruct c1 as [n1 |]; simpl; [| eexists; reflexivity].
    apply IHc1. exact Hw1.
  - apply chain_defined_loops. apply IHE. exact HwE.
Qed.

Ltac children IH :=
  repeat match type of IH with
         | Forall _ (_ :: _) =>
             let H := fresh "IHc" in
             let IH' := fresh "IH" in
             inversion IH as [| ? ? H IH']; subst; clear IH; rename IH' into IH
         end.

Ltac run_defined Hloops :=
  repeat (cbn [rbind];
    match goal with
    | H : ?m = Some _ |- defined (rbind ?m _) => rewrite H
    | H : ?m = Some _ |- defined ?m => rewrite H
    | |- defined (rbind (open_loop ?E ?r) _) =>
        let s := fresh "s" in
        let Hs := fresh "Hs" in
        destruct (Hloops r) as ((s & Hs) & _); rewrite Hs
    | |- defined (Some _) => eexists; reflexivity
    | |- defined (close_loop _ _ _) => apply Hloops
    | |- defined (postfix_loop _ _ _) => apply Hloops
    | |- defined (prefix_loop _ _ _) => apply Hloops
    end).

(** The cases of a renderer on a well-formed node; [unfold_renderer]
    unfolds one step of the renderer at hand. *)
Ltac chain_node IH Hwf unfold_renderer :=
  match type of IH with
  | Forall _ ?cs =>
      destruct cs as [| ?c0 [| [?E |] [| ? ?]]]; try discriminate
  end;
  apply andb_true_iff in Hwf; destruct Hwf as [?Hw0 ?HwE];
  children IH;
  match goal with
  | Hc0 : ptr_holds _ ?c0, HE : ptr_holds _ (Some ?E),
    Hw0 : _ = true, HwE : well_formed_chain ?E = true |- _ =>
      let Hd := fresh "Hd" in
      assert (Hd : defined (on_ptr _ c0))
        by (destruct c0; simpl; [apply Hc0; exact Hw0 | eexists; reflexivity]);
      let HEc := fresh "HEc" in
      destruct HE as [_ HEc]; specialize (HEc HwE);
      destruct E as [? ? ?csE];
      unfold chain_defined in HEc; cbn [child_ptrs_of] in HEc;
      destruct csE as [| [?op |] [| ?c1 [| [?E2 |] [| ? ?]]]];
      try contradiction;
      try (unfold_renderer; exact Hd);
      let Hloops := fresh "Hloops" in
      destruct HEc as [[? ?Hs1] Hloops]; destruct Hd as [? ?Hs0];
      unfold_renderer; run_defined Hloops
  end.

Ltac leaf_children IH Hwf unfold_renderer :=
  match type of IH with
  | Forall _ ?cs =>
      destruct cs as [| ?c0 [| ?c1 [| ?c2 [| ? ?]]]]; try discriminate
  end;
  children IH;
  try (apply andb_true_iff in Hwf; destruct Hwf as [?Hw0 ?Hw2]);
  repeat match goal with
         | Hc : ptr_holds _ ?c, Hw : match ?c with _ => _ end = true |- _ =>
             let Hd := fresh "Hd" in
             assert (Hd : defined (on_ptr _ c))
               by (destruct c; simpl;
                   [apply Hc; exact Hw | eexists; reflexivity]);
             clear Hc; destruct Hd as [? ?Hs]
         end;
  unfold_renderer; run_defined I.

Lemma pre_compl_par_node_defined n :
  (well_formed n = true -> defined (pre_compl_par_node n))
  /\ (well_formed_chain n = true -> chain_defined pre_compl_par_node n).
Proof.
  induction n as [type str cs IH] using pt_node_children_ind.
  split; [| apply chain_defined_step; exact IH].
  intros Hwf.
  destruct type; cbn [well_formed] in Hwf; try discriminate.
  - chain_node IH Hwf ltac:(cbn [pre_compl_par_node num_childs child_ptrs_of List.length Nat.eqb]).
  - chain_node IH Hwf ltac:(cbn [pre_compl_par_node num_childs child_ptrs_of List.length Nat.eqb]).
  - leaf_children IH Hwf ltac:(cbn [pre_compl_par_node]).
  - leaf_children IH Hwf ltac:(cbn [pre_compl_par_node]).
  - eexists; reflexivity.
Qed.

Lemma postfix_node_defined n :
  (well_formed n = true -> defined (postfix_node n))
  /\ (well_formed_chain n = true -> chain_defined postfix_node n).
Proof.
  induction n as [type str cs IH] using pt_node_children_ind.
  split; [| apply chain_defined_step; exact IH].
  intros Hwf.
  destruct type; cbn [well_formed] in Hwf; try discriminate.
  - chain_node IH Hwf ltac:(cbn [postfix_node num_childs child_ptrs_of List.length Nat.eqb]).
  - chain_node IH Hwf ltac:(cbn [postfix_node num_childs child_ptrs_of List.length Nat.eqb]).
  - leaf_children IH Hwf ltac:(cbn [postfix_node]).
  - leaf_children IH Hwf ltac:(cbn [postfix_node]).
  - eexists; reflexivity.
Qed.

Lemma prefix_node_defined n :
  (well_formed n = true -> defined (prefix_node n))
  /\ (well_formed_chain n = true -> chain_defined prefix_node n).
Proof.
  induction n as [type str cs IH] using pt_node_children_ind.
  split; [| apply chain_defined_step; exact IH].
  intros Hwf.
  destruct type; cbn [well_formed] in Hwf; try discriminate.
  - chain_node IH Hwf ltac:(cbn [prefix_node num_childs child_ptrs_of List.length Nat.eqb]).
  - chain_node IH Hwf ltac:(cbn [prefix_node num_childs child_ptrs_of List.length Nat.eqb]).
  - leaf_children IH Hwf ltac:(cbn [prefix_node]).
  - leaf_children IH Hwf ltac:(cbn [prefix_node]).
  - eexists; reflexivity.
Qed.

(** *** The shape of the fully parenthesized string *)

Lemma append_assoc (s1 s2 s3 : string) : (s1 ++ s2) ++ s3 = s1 ++ (s2 ++ s3).
Proof. induction s1 as [| c s1 IH]; simpl; [reflexivity | now rewrite IH]. Qed.

Lemma append_nil_r (s : string) : s ++ "" = s.
Proof. induction s as [| c s IH]; simpl; [reflexivity | now rewrite IH]. Qed.

(** The first loop only adds characters behind what it was given. *)
Lemma open_loop_appends E :
  forall r x, open_loop E r = Some x -> exists y, x = r ++ y.
Proof.
  induction E as [type str cs IH] using pt_node_children_ind.
  intros r x H. cbn [open_loop] in H.
  destruct cs as [| c0 [| c1 [| [d |] [| c3 cs]]]];
    try discriminate;
    try (inversion H; subst; exists ""; now rewrite append_nil_r).
  children IH. simpl in IHc1. destruct (IHc1 _ _ H) as [y Hy].
  exists ("(" ++ y). rewrite Hy. unfold concat. apply append_assoc.
Qed.

(** The second loop adds nothing, or something that ends with a right
    parenthesis. *)
Lemma close_loop_appends f E :
  forall r x, close_loop f E r = Some x ->
    exists m, x = r ++ m /\ (m = "" \/ exists m', m = m' ++ ")").
Proof.
  induction E as [type str cs IH] using pt_node_children_ind.
  intros r x H. cbn [close_loop] in H.
  destruct cs as [| [op |] [| c1 [| [d |] cs]]];
    try discriminate;
    try solve [inversion H; subst; exists ""; rewrite append_nil_r; auto].
  destruct (on_ptr f c1) as [s1 |]; [| discriminate]. cbn [rbind] in H.
  children IH. simpl in IHc1. destruct (IHc1 _ _ H) as (m & Hm & Hend).
  unfold concat in Hm.
  exists (string_of op ++ s1 ++ ")" ++ m). split.
  - rewrite Hm. now rewrite !append_assoc.
  - right. destruct Hend as [-> | [m' ->]].
    + exists (string_of op ++ s1). now rewrite !append_assoc.
    + exists (string_of op ++ s1 ++ ")" ++ m'). now rewrite !append_assoc.
Qed.

Lemma operand_shape c :
  ptr_holds (fun n => well_formed n = true -> atoms_plain n = true ->
                      forall s, pre_compl_par_node n = Some s ->
                                plain_or_wrapped s) c ->
  well_formed_ptr c = true -> atoms_plain_ptr c = true ->
  forall s, on_ptr pre_compl_par_node c = Some s -> plain_or_wrapped s.
Proof.
  destruct c as [n |]; simpl; [auto |].
  intros _ _ _ s H. inversion H. now left.
Qed.

Ltac operand :=
  match goal with
  | Hs : on_ptr _ ?c = Some ?s |- plain_or_wrapped ?s =>
      apply (operand_shape c); assumption
  end.

Ltac split_andb :=
  repeat match goal with
         | H : _ && _ = true |- _ =>
             let H1 := fresh H in
             apply andb_true_iff in H; destruct H as [H H1]
         end.

Ltac chain_shape IH Hwf Hcs Hs :=
  match type of IH with
  | Forall _ ?cs => destruct cs as [| ?c0 [| [?E |] [| ? ?]]]; try discriminate
  end;
  cbn [forallb] in Hcs; split_andb; children IH;
  match goal with
  | HwE : well_formed_chain ?E = true |- _ =>
      destruct E as [? ? ?csE]; cbn [well_formed_chain] in HwE;
      destruct csE as [| [?op |] [| ?c1 [| [?E2 |] [| ? ?]]]];
      try discriminate;
      cbn [pre_compl_par_node num_childs child_ptrs_of List.length Nat.eqb]
        in Hs;
      try operand
  end.

Ltac chain_wrapped Hs :=
  let Eo := fresh "Eo" in
  destruct (open_loop _ _) as [?x |] eqn:Eo; [| discriminate];
  cbn [rbind] in Hs;
  match type of Hs with
  | rbind (on_ptr _ ?c0) _ = _ =>
      destruct (on_ptr _ c0) as [?s0 |]; [| discriminate]; cbn [rbind] in Hs
  end;
  match type of Hs with
  | rbind (on_ptr _ ?c1) _ = _ =>
      destruct (on_ptr _ c1) as [?s1 |]; [| discriminate]; cbn [rbind] in Hs
  end;
  apply open_loop_appends in Eo; destruct Eo as [?y ?Hy];
  apply close_loop_appends in Hs; destruct Hs as (?m & ?Hm & [-> | [?m' ->]]);
  subst; right; unfold concat, wrapped;
  match goal with
  | |- exists _, ((((_ ++ ?y) ++ ?s0) ++ ?o) ++ ?s1) ++ ")" ++ "" = _ =>
      exists (y ++ s0 ++ o ++ s1)
  | |- exists _, (((((_ ++ ?y) ++ ?s0) ++ ?o) ++ ?s1) ++ ")") ++ "" = _ =>
      exists (y ++ s0 ++ o ++ s1)
  | |- exists _, (((((_ ++ ?y) ++ ?s0) ++ ?o) ++ ?s1) ++ ")") ++ ?m' ++ ")" = _ =>
      exists (y ++ s0 ++ o ++ s1 ++ ")" ++ m')
  end;
  rewrite ?append_nil_r, !append_assoc; reflexivity.

(** On a tree of the parser built from plain atoms, the fully
    parenthesized string either does not start with a left parenthesis or
    is wrapped in one pair of parentheses. *)
Lemma pre_compl_par_node_shape n :
  well_formed n = true -> atoms_plain n = true ->
  forall s, pre_compl_par_node n = Some s -> plain_or_wrapped s.
Proof.
  induction n as [type str cs IH] using pt_node_children_ind.
  intros Hwf Hpl s Hs.
  cbn [atoms_plain] in Hpl. apply andb_true_iff in Hpl.
  destruct Hpl as [Hstr Hcs].
  destruct type; cbn [well_formed] in Hwf; try discriminate.
  - chain_shape IH Hwf Hcs Hs. chain_wrapped Hs.
  - chain_shape IH Hwf Hcs Hs. chain_wrapped Hs.
  - destruct cs as [| c0 [| c1 [| c2 [| ? ?]]]]; try discriminate;
      cbn [forallb] in Hcs; split_andb; children IH;
      cbn [pre_compl_par_node] in Hs; try operand.
    destruct (on_ptr _ c0) as [s0 |]; [| discriminate]. cbn [rbind] in Hs.
    destruct (on_ptr _ c2) as [s2 |]; [| discriminate]. cbn [rbind] in Hs.
    inversion Hs. right. exists (s0 ++ "^" ++ s2). unfold concat.
    cbn [append]. now rewrite !append_assoc.
  - destruct cs as [| c0 [| c1 [| c2 [| ? ?]]]]; try discriminate;
      cbn [forallb] in Hcs; split_andb; children IH;
      cbn [pre_compl_par_node] in Hs; operand.
  - cbn [pre_compl_par_node] in Hs. inversion Hs; subst. now left.
Qed.

End Renderers.

(** ** Properties of the whole program *)

Lemma renderers_defined (lexed_input : list token) :
  exists s1 s2 s3,
    render_all (tree_of lexed_input) = mk_renders (Some s1) (Some s2) (Some s3).
Proof.
  destruct (parse_returns lexed_input) as (c & E' & E & st' & Hp & Hwf & _).
  unfold tree_of, render_all, compl_par, pre_compl_par, postfix, prefix.
  rewrite Hp. cbn [on_ptr].
  destruct (proj1 (pre_compl_par_node_defined _) Hwf) as [s1 H1].
  destruct (proj1 (postfix_node_defined _) Hwf) as [s2 H2].
  destruct (proj1 (prefix_node_defined _) Hwf) as [s3 H3].
  rewrite H1, H2, H3. cbn [rbind]. eauto.
Qed.


(** C1.  The scan of [exprpp] stops at the first right parenthesis, not
    at the one that closes the parenthesis under the cursor.  On
    [((a)+b)^c] it stops at the right parenthesis that closes [(a)] and
    looks at the [+] behind it, where the scan over a balanced run reaches
    the last right parenthesis, which is followed by [^].  [exprpp]
    therefore takes the production without [^]: the parse ends with [^c]
    unread and the tree is the one of [((a)+b)].  On [(a+(b)^c)+d] the
    first right parenthesis is followed by [^] while the matching one is
    followed by [+]: [exprpp] takes the production with [^], and the
    renders are those of [(a+b^c)^d]. *)
Theorem exprpp_lookahead_stops_at_first_rparen :
  let toks := tokens_of "((a)+b)^c" in
  let toks' := tokens_of "(a+(b)^c)+d" in
  (forall cur, exists before,
     cur = (before ++ lookahead_loop cur)%list
     /\ forallb (fun t => negb (token_type_eqb (tok_type t) RPAREN)) before
        = true
     /\ match lookahead_loop cur with
        | t :: _ => tok_type t = RPAREN
        | [] => True
        end)
  /\ lookahead_loop toks
     = [mk_token RPAREN ")"; mk_token ADD "+"; mk_token ATOM "b";
        mk_token RPAREN ")"; mk_token EXP "^"; mk_token ATOM "c"]
  /\ next_is_EXP (lookahead_loop toks) = false
  /\ spec_matching_rparen 0 toks
     = [mk_token RPAREN ")"; mk_token EXP "^"; mk_token ATOM "c"]
  /\ next_is_EXP (spec_matching_rparen 0 toks) = true
  /\ (exists head,
        parse toks
        = Some (head, mk_pstate [mk_token EXP "^"; mk_token ATOM "c"] [])
        /\ head = tree_of (tokens_of "((a)+b)"))
  /\ next_is_EXP (lookahead_loop toks') = true
  /\ next_is_EXP (spec_matching_rparen 0 toks') = false
  /\ run "(a+(b)^c)+d"
     = mk_renders (Some "(a+(b^c))^d") (Some "a b c ^ + d ^ ")
         (Some "^ + a ^ b c d ").
Proof.
  cbv zeta. split; [exact lookahead_loop_first_rparen |].
  repeat split; try (vm_compute; reflexivity).
  eexists. split; vm_compute; reflexivity.
Qed.

(** The first operand slot of the tree is what [exprpp] returned on the
    first token. *)
Lemma parse_first_operand (lexed_input : list token) c E' E st' :
  parse lexed_input
  = Some (Some (Node NEXPR "" [Some (Node NEXPRP "" [c; Some E']); Some E]), st')
  ->
  exists st1,
    exprpp (parse_fuel lexed_input - 2) (mk_pstate lexed_input [])
    = Some (c, st1).
Proof.
  unfold parse, parse_fuel.
  replace (6 * List.length lexed_input + 6)
    with (S (S (6 * List.length lexed_input + 4))) by lia.
  replace (S (S (6 * List.length lexed_input + 4)) - 2)
    with (6 * List.length lexed_input + 4) by lia.
  cbn [expr exprp]. unfold bind, ret, create_node.
  destruct (exprpp _ _) as [[c' st1] |]; [| discriminate].
  destruct (Exprp _ _) as [[e1 st2] |]; [| discriminate].
  destruct (Expr _ _) as [[e2 st3] |]; [| discriminate].
  intros H. inversion H; subst. eauto.
Qed.

(** C2 (as stated, refuted).  The tokens of [a+] do not make [expr] fail:
    it returns a tree, prints nothing, and the renderers turn the tree into
    [a+], [a + ] and [+ a ]. *)
Lemma trailing_operator_is_not_a_failure :
  ~ parse_fails (tokens_of "a+")
  /\ (exists head,
        parse (tokens_of "a+") = Some (Some head, mk_pstate [] []))
  /\ run "a+" = mk_renders (Some "a+") (Some "a + ") (Some "+ a ").
Proof.
  split; [| split].
  - intros [st H]. vm_compute in H. discriminate.
  - eexists. vm_compute. reflexivity.
  - vm_compute. reflexivity.
Qed.

(** C2 (amended).  [expr] never hands a failure to its caller: for every
    token list it returns a node.  A sub-parse that fails leaves a null
    child and the parse goes on with the tokens that remain.  On [(a+b] the
    operand is null, [Invalid input!] is printed and no token is consumed;
    on [a+] the right operand is null and nothing is printed; on [a+*b] the
    left operand of [*] is null, [Invalid input!] is printed, all tokens are
    consumed and the renders are [a+( *b)], [a b * + ] and [+ a * b ]. *)
Theorem expr_returns_a_tree_on_malformed_input :
  (forall lexed_input,
     ~ parse_fails lexed_input
     /\ exists head st', parse lexed_input = Some (Some head, st'))
  /\ (exists E' E,
        parse (tokens_of "(a+b")
        = Some (Some (Node NEXPR "" [Some (Node NEXPRP "" [None; Some E']);
                                     Some E]),
                mk_pstate (tokens_of "(a+b") ["Invalid input!"])
        /\ run "(a+b" = mk_renders (Some "") (Some "") (Some ""))
  /\ (exists p E' E'',
        parse (tokens_of "a+")
        = Some (Some (Node NEXPR ""
                        [Some p;
                         Some (Node NeXPR ""
                                 [Some (Node NADD "+" []);
                                  Some (Node NEXPRP "" [None; Some E']);
                                  Some E''])]),
                mk_pstate [] [])
        /\ run "a+" = mk_renders (Some "a+") (Some "a + ") (Some "+ a "))
  /\ (exists head,
        parse (tokens_of "a+*b")
        = Some (Some head, mk_pstate [] ["Invalid input!"])
        /\ run "a+*b"
           = mk_renders (Some ("a+(" ++ "*b)")) (Some "a b * + ")
               (Some "+ a * b ")).
Proof.
  split; [| split; [| split]].
  - intros lexed_input.
    destruct (parse_returns lexed_input) as (c & E' & E & st' & Hp & _).
    split; [| eauto].
    intros [st H]. rewrite Hp in H. discriminate.
  - do 2 eexists. split; vm_compute; reflexivity.
  - do 3 eexists. split; vm_compute; reflexivity.
  - eexists. split; vm_compute; reflexivity.
Qed.

(** C3.  The line [((a)+b)^c] is lexed into nine tokens, and the three
    renders of its tree are those of [(a)+b]: the operator [^] and the atom
    [c] of the input are in none of them. *)
Theorem renders_drop_power_after_nested_parentheses :
  lexemes (tokens_of "((a)+b)^c") = "((a)+b)^c"
  /\ List.length (tokens_of "((a)+b)^c") = 9
  /\ run "((a)+b)^c" = mk_renders (Some "a+b") (Some "a b + ") (Some "+ a b ")
  /\ run "((a)+b)^c" = run "(a)+b".
Proof. repeat split; vm_compute; reflexivity. Qed.

(** C4.  The line [(a+b*c)^d] is parsed without a diagnostic and to its
    last token; its fully parenthesized render is [(a+(b*c))^d].  Lexing
    and parsing that render gives a tree whose postfix and prefix renders
    have lost [^] and [d]. *)
Theorem reparse_of_compl_par_changes_renders :
  let head := tree_of (tokens_of "(a+b*c)^d") in
  parse (tokens_of "(a+b*c)^d") = Some (head, mk_pstate [] [])
  /\ compl_par head = Some "(a+(b*c))^d"
  /\ postfix head = Some "a b c * + d ^ "
  /\ prefix head = Some "^ + a * b c d "
  /\ postfix (reparse head) = Some "a b c * + "
  /\ prefix (reparse head) = Some "+ a * b c "
  /\ postfix (reparse head) <> postfix head
  /\ prefix (reparse head) <> prefix head.
Proof.
  cbv zeta. repeat split; try (vm_compute; reflexivity);
    vm_compute; discriminate.
Qed.

(** C5 (as stated, refuted).  The postfix render of [a-b-c] is not the
    string [a b - c -], and the prefix render is not [- - a b c]. *)
Lemma left_assoc_renders_are_not_trimmed :
  postfix_form (run "a-b-c") <> Some "a b - c -"
  /\ prefix_form (run "a-b-c") <> Some "- - a b c".
Proof. split; vm_compute; discriminate. Qed.

(** C5 (amended).  [a-b-c] is parsed as [(a-b)-c]: the postfix render is
    [a b - c - ] and the prefix render is [- - a b c ], every atom and
    operator being followed by one space, the last one too. *)
Theorem left_assoc_renders :
  run "a-b-c"
  = mk_renders (Some "(a-b)-c") (Some "a b - c - ") (Some "- - a b c ").
Proof. vm_compute. reflexivity. Qed.

(** C6 (as stated, refuted).  The postfix render of [a^b^c] is not the
    string [a b c ^ ^], and the prefix render is not [^ a ^ b c]. *)
Lemma right_assoc_renders_are_not_trimmed :
  postfix_form (run "a^b^c") <> Some "a b c ^ ^"
  /\ prefix_form (run "a^b^c") <> Some "^ a ^ b c".
Proof. split; vm_compute; discriminate. Qed.

(** C6 (amended).  [a^b^c] is parsed as [a^(b^c)]: the postfix render is
    [a b c ^ ^ ] and the prefix render is [^ a ^ b c ], every atom and
    operator being followed by one space, the last one too. *)
Theorem right_assoc_renders :
  run "a^b^c"
  = mk_renders (Some "a^(b^c)") (Some "a b c ^ ^ ") (Some "^ a ^ b c ").
Proof. vm_compute. reflexivity. Qed.

(** C7 (as stated, refuted).  For [(a+3)+var^(b+282*c)] the postfix and
    prefix renders are not the strings of the example, which end with their
    last operator or atom. *)
Lemma example_renders_are_not_trimmed :
  postfix_form (run "(a+3)+var^(b+282*c)") <> Some "a 3 + var b 282 c * + ^ +"
  /\ prefix_form (run "(a+3)+var^(b+282*c)")
     <> Some "+ + a 3 ^ var + b * 282 c".
Proof. split; vm_compute; discriminate. Qed.

(** C7 (amended).  For [(a+3)+var^(b+282*c)] the fully parenthesized render
    is [(a+3)+(var^(b+(282*c)))], the postfix render is
    [a 3 + var b 282 c * + ^ + ] and the prefix render is
    [+ + a 3 ^ var + b * 282 c ], the last two ending with a space. *)
Theorem example_renders :
  run "(a+3)+var^(b+282*c)"
  = mk_renders (Some "(a+3)+(var^(b+(282*c)))")
      (Some "a 3 + var b 282 c * + ^ + ")
      (Some "+ + a 3 ^ var + b * 282 c ").
Proof. vm_compute. reflexivity. Qed.

Lemma drop_last_app s c : drop_last (s ++ String c "") = s.
Proof.
  induction s as [| a s IH]; [reflexivity |].
  cbn [append drop_last]. rewrite IH.
  destruct s; reflexivity.
Qed.

Lemma strip_parens_wrapped s : strip_parens ("(" ++ s ++ ")") = s.
Proof. change (drop_last (s ++ ")") = s). apply drop_last_app. Qed.

Lemma strip_parens_cases c s :
  strip_parens (String c s)
  = if Ascii.eqb c "("%char then drop_last s else String c s.
Proof.
  destruct (Ascii.eqb c "(") eqn:E.
  - apply Ascii.eqb_eq in E. subst c. reflexivity.
  - destruct c as [[] [] [] [] [] [] [] []]; try reflexivity; discriminate.
Qed.

Lemma strip_parens_plain s : plain s = true -> strip_parens s = s.
Proof.
  destruct s as [| c s]; [reflexivity |].
  unfold plain. cbn [first_char_is]. intros H. apply negb_true_iff in H.
  rewrite strip_parens_cases, Ascii.eqb_sym, H. reflexivity.
Qed.

(** Whatever the line, the string of [pre_compl_par] on the tree of the
    program does not start with a left parenthesis, and [compl_par] returns
    it, or it is wrapped in a pair of parentheses, and [compl_par] returns
    what is inside. *)
Lemma compl_par_of_line (user_input : string) :
  let head := tree_of (tokens_of user_input) in
  exists s,
    pre_compl_par head = Some s
    /\ ((plain s = true /\ compl_par head = Some s)
        \/ (exists s', s = "(" ++ s' ++ ")" /\ compl_par head = Some s')).
Proof.
  cbv zeta.
  destruct (parse_returns (tokens_of user_input))
    as (c & E' & E & st' & Hp & Hwf & _).
  destruct (parser_keeps_plain (parse_fuel (tokens_of user_input)))
    as (_ & _ & _ & _ & _ & Hkeep).
  destruct (Hkeep _ _ _ Hp (tokens_of_plain user_input)) as [_ Hatoms].
  unfold tree_of, compl_par, pre_compl_par. rewrite Hp. cbn [on_ptr].
  destruct (proj1 (pre_compl_par_node_defined _) Hwf) as [s Hs].
  rewrite Hs. cbn [rbind]. exists s. split; [reflexivity |].
  destruct (pre_compl_par_node_shape _ Hwf Hatoms s Hs) as [Hpl | [s' ->]].
  - left. now rewrite strip_parens_plain.
  - right. exists s'. now rewrite strip_parens_wrapped.
Qed.

(** C8 (as stated, refuted).  The parentheses written around the primary
    [a] are not in the render of [(a)], nor in that of [(a)*b]; those
    written around [a+b] are not in the render of [(a+b)]. *)
Lemma written_parentheses_are_not_rendered :
  fully_parenthesized (run "(a)") = Some "a"
  /\ fully_parenthesized (run "(a)*b") = Some "a*b"
  /\ fully_parenthesized (run "(a+b)") = Some "a+b".
Proof. repeat split; vm_compute; reflexivity. Qed.

(** C8 (amended).  [strip_parens] removes the first and the last character
    of a string that starts with a left parenthesis, and returns any other
    string as it is; so a render that is wrapped in one pair of parentheses
    loses exactly that pair.  On the tree of any line, the string of
    [pre_compl_par] either does not start with a left parenthesis, and is
    the render, or is wrapped in one pair, and the render is what is inside
    the pair.  The parentheses of the output are the ones the renderer
    generates around an operator and its operands: a parenthesized primary
    is rendered as the expression inside it, and the parenthesis tokens of
    the input are not copied. *)
Theorem compl_par_strips_one_generated_pair :
  (forall s, strip_parens ("(" ++ s ++ ")") = s)
  /\ (forall c s,
        strip_parens (String c s)
        = if Ascii.eqb c "("%char then drop_last s else String c s)
  /\ strip_parens "" = ""
  /\ (forall head, compl_par head
        = match pre_compl_par head with
          | Some s => Some (strip_parens s)
          | None => None
          end)
  /\ (forall user_input,
        let head := tree_of (tokens_of user_input) in
        exists s,
          pre_compl_par head = Some s
          /\ ((plain s = true /\ compl_par head = Some s)
              \/ (exists s', s = "(" ++ s' ++ ")"
                             /\ compl_par head = Some s')))
  /\ (forall str l e r,
        pre_compl_par (Some (Node NEXPRPPP str [l; e; r])) = pre_compl_par e)
  /\ fully_parenthesized (run "(a+b)*c") = Some "(a+b)*c"
  /\ fully_parenthesized (run "(a)") = Some "a".
Proof.
  repeat apply conj; try reflexivity.
  - exact strip_parens_wrapped.
  - exact strip_parens_cases.
  - exact compl_par_of_line.
Qed.

(** C10.  For every list of tokens, empty or ill-formed ones too, [expr]
    returns a [NEXPR] node whose first child is a [NEXPRP] node.  The first
    child [c] of that node is the pointer [exprpp] returned on the first
    token: it is null exactly when no token is left, or the first token is
    not an atom and no right parenthesis follows, and it is stored as it is
    in the node that [exprp] builds.  The three renderers return the empty
    string on a null pointer and are defined on the whole tree.  On the
    empty list, and on the single token [)] whose two terminals [lparen]
    and [rparen] fail, the null pointers are children of ordinary nodes. *)
Theorem expr_returns_node_with_null_children :
  (forall lexed_input,
     exists c E' E st' st1,
       parse lexed_input
       = Some (Some (Node NEXPR "" [Some (Node NEXPRP "" [c; Some E']);
                                    Some E]), st')
       /\ exprpp (parse_fuel lexed_input - 2) (mk_pstate lexed_input [])
          = Some (c, st1)
       /\ (c = None <-> exprpp_fails lexed_input = true)
       /\ exists s1 s2 s3,
            render_all (tree_of lexed_input)
            = mk_renders (Some s1) (Some s2) (Some s3))
  /\ pre_compl_par None = Some ""
  /\ postfix None = Some ""
  /\ prefix None = Some ""
  /\ parse []
     = Some (Some (Node NEXPR ""
                     [Some (Node NEXPRP ""
                              [None; Some (Node NeXPRP "" [epsilon])]);
                      Some (Node NeXPR "" [epsilon])]),
             mk_pstate [] [])
  /\ render_all (tree_of []) = mk_renders (Some "") (Some "") (Some "")
  /\ (exists inner,
        parse [mk_token RPAREN ")"]
        = Some (Some (Node NEXPR ""
                  [Some (Node NEXPRP ""
                     [Some (Node NEXPRPP ""
                        [Some (Node NEXPRPPP "" [None; inner; None])]);
                      Some (Node NeXPRP "" [epsilon])]);
                   Some (Node NeXPR "" [epsilon])]),
                mk_pstate []
                  ["Failed to match left parenthesis!";
                   "Failed to match right parenthesis!"])
        /\ inner = tree_of []).
Proof.
  split; [| repeat split; try (vm_compute; reflexivity)].
  - intros lexed_input.
    destruct (parse_returns lexed_input)
      as (c & E' & E & st' & Hp & Hwf & Hfail & _).
    destruct (parse_first_operand _ _ _ _ _ Hp) as [st1 Hpp].
    exists c, E', E, st', st1. repeat split; try apply Hfail; auto.
    apply renderers_defined.
  - eexists. split; vm_compute; reflexivity.
Qed.

(** ** The renderers on the trees of derivations *)

Section RenderDerivations.

Lemma addop_node_string op :
  string_of (addop_node op) = binop_string (addop_binop op).
Proof. destruct op; reflexivity. Qed.

Lemma mulop_node_string op :
  string_of (mulop_node op) = binop_string (mulop_binop op).
Proof. destruct op; reflexivity. Qed.

Lemma postfix_of_derivation :
  (forall d, postfix_node (tree_expr d) = Some (std_postfix (ast_expr d)))
  /\ (forall E left,
        postfix_loop postfix_node (tree_Expr E) (std_postfix left)
        = Some (std_postfix (ast_Expr left E)))
  /\ (forall d, postfix_node (tree_exprp d) = Some (std_postfix (ast_exprp d)))
  /\ (forall E left,
        postfix_loop postfix_node (tree_Exprp E) (std_postfix left)
        = Some (std_postfix (ast_Exprp left E)))
  /\ (forall d, postfix_node (tree_exprpp d) = Some (std_postfix (ast_exprpp d)))
  /\ (forall d, postfix_node (tree_exprppp d)
                = Some (std_postfix (ast_exprppp d))).
Proof.
  apply deriv_mutind.
  - intros p IHp E IHE. specialize (IHE (ast_exprp p)).
    destruct E as [op p1 E' |]; cbn [tree_expr tree_Expr] in *.
    + cbn [postfix_node num_childs child_ptrs_of List.length Nat.eqb on_ptr].
      cbn [postfix_loop on_ptr] in IHE. rewrite IHp. cbn [rbind].
      exact IHE.
    + cbn [postfix_node num_childs child_ptrs_of List.length Nat.eqb on_ptr
           epsilon create_node].
      exact IHp.
  - intros op p IHp E IHE left. cbn [tree_Expr postfix_loop on_ptr].
    rewrite IHp. cbn [rbind]. rewrite addop_node_string.
    cbn [ast_Expr]. rewrite <- IHE. f_equal.
    unfold concat. cbn [std_postfix]. now rewrite append_assoc.
  - reflexivity.
  - intros pp IHpp Ep IHEp. specialize (IHEp (ast_exprpp pp)).
    destruct Ep as [op pp1 Ep' |]; cbn [tree_exprp tree_Exprp] in *.
    + cbn [postfix_node num_childs child_ptrs_of List.length Nat.eqb on_ptr].
      cbn [postfix_loop on_ptr] in IHEp. rewrite IHpp. cbn [rbind].
      exact IHEp.
    + cbn [postfix_node num_childs child_ptrs_of List.length Nat.eqb on_ptr
           epsilon create_node].
      exact IHpp.
  - intros op pp IHpp Ep IHEp left. cbn [tree_Exprp postfix_loop on_ptr].
    rewrite IHpp. cbn [rbind]. rewrite mulop_node_string.
    cbn [ast_Exprp]. rewrite <- IHEp. f_equal.
    unfold concat. cbn [std_postfix]. now rewrite append_assoc.
  - reflexivity.
  - intros ppp IHppp pp IHpp. cbn [tree_exprpp postfix_node on_ptr].
    rewrite IHppp, IHpp. cbn [rbind ast_exprpp std_postfix]. f_equal.
    unfold concat. cbn [append]. now rewrite append_assoc.
  - intros ppp IHppp. cbn [tree_exprpp postfix_node on_ptr]. exact IHppp.
  - reflexivity.
  - intros e IHe. cbn [tree_exprppp postfix_node on_ptr]. exact IHe.
Qed.

Lemma prefix_of_derivation :
  (forall d, prefix_node (tree_expr d) = Some (std_prefix (ast_expr d)))
  /\ (forall E left,
        prefix_loop prefix_node (tree_Expr E) (std_prefix left)
        = Some (std_prefix (ast_Expr left E)))
  /\ (forall d, prefix_node (tree_exprp d) = Some (std_prefix (ast_exprp d)))
  /\ (forall E left,
        prefix_loop prefix_node (tree_Exprp E) (std_prefix left)
        = Some (std_prefix (ast_Exprp left E)))
  /\ (forall d, prefix_node (tree_exprpp d) = Some (std_prefix (ast_exprpp d)))
  /\ (forall d, prefix_node (tree_exprppp d)
                = Some (std_prefix (ast_exprppp d))).
Proof.
  apply deriv_mutind.
  - intros p IHp E IHE. specialize (IHE (ast_exprp p)).
    destruct E as [op p1 E' |]; cbn [tree_expr tree_Expr] in *.
    + cbn [prefix_node num_childs child_ptrs_of List.length Nat.eqb on_ptr].
      cbn [prefix_loop on_ptr] in IHE. rewrite IHp. cbn [rbind].
      exact IHE.
    + cbn [prefix_node num_childs child_ptrs_of List.length Nat.eqb on_ptr
           epsilon create_node].
      exact IHp.
  - intros op p IHp E IHE left. cbn [tree_Expr prefix_loop on_ptr].
    rewrite IHp. cbn [rbind]. rewrite addop_node_string.
    cbn [ast_Expr]. rewrite <- IHE. f_equal.
    unfold concat. cbn [std_prefix]. now rewrite !append_assoc.
  - reflexivity.
  - intros pp IHpp Ep IHEp. specialize (IHEp (ast_exprpp pp)).
    destruct Ep as [op pp1 Ep' |]; cbn [tree_exprp tree_Exprp] in *.
    + cbn [prefix_node num_childs child_ptrs_of List.length Nat.eqb on_ptr].
      cbn [prefix_loop on_ptr] in IHEp. rewrite IHpp. cbn [rbind].
      exact IHEp.
    + cbn [prefix_node num_childs child_ptrs_of List.length Nat.eqb on_ptr
           epsilon create_node].
      exact IHpp.
  - intros op pp IHpp Ep IHEp left. cbn [tree_Exprp prefix_loop on_ptr].
    rewrite IHpp. cbn [rbind]. rewrite mulop_node_string.
    cbn [ast_Exprp]. rewrite <- IHEp. f_equal.
    unfold concat. cbn [std_prefix]. now rewrite !append_assoc.
  - reflexivity.
  - intros ppp IHppp pp IHpp. cbn [tree_exprpp prefix_node on_ptr].
    rewrite IHppp, IHpp. cbn [rbind ast_exprpp std_prefix]. f_equal.
  - intros ppp IHppp. cbn [tree_exprpp prefix_node on_ptr]. exact IHppp.
  - reflexivity.
  - intros e IHe. cbn [tree_exprppp prefix_node on_ptr]. exact IHe.
Qed.

Lemma parens_Expr_comm E s :
  parens_Expr E ++ String "(" s = String "(" (parens_Expr E ++ s).
Proof.
  induction E as [op p E IH |]; [| reflexivity].
  cbn [parens_Expr append]. now rewrite IH.
Qed.

Lemma parens_Exprp_comm E s :
  parens_Exprp E ++ String "(" s = String "(" (parens_Exprp E ++ s).
Proof.
  induction E as [op p E IH |]; [| reflexivity].
  cbn [parens_Exprp append]. now rewrite IH.
Qed.

Lemma open_loop_tree_Expr E :
  forall r, open_loop (tree_Expr E) r = Some (r ++ parens_Expr E).
Proof.
  induction E as [op p E IH |]; intros r.
  - cbn [tree_Expr open_loop]. rewrite IH. unfold concat. f_equal.
    now rewrite append_assoc.
  - cbn. now rewrite append_nil_r.
Qed.

Lemma open_loop_tree_Exprp E :
  forall r, open_loop (tree_Exprp E) r = Some (r ++ parens_Exprp E).
Proof.
  induction E as [op p E IH |]; intros r.
  - cbn [tree_Exprp open_loop]. rewrite IH. unfold concat. f_equal.
    now rewrite append_assoc.
  - cbn. now rewrite append_nil_r.
Qed.

(** The fully parenthesized form of a chain: the left parentheses, the
    first operand, then every operator with its operand and a right
    parenthesis. *)
Lemma std_infix_Expr E :
  forall left,
    std_infix (ast_Expr left E)
    = parens_Expr E ++ std_infix left ++ tail_Expr E.
Proof.
  induction E as [op p E IH |]; intros left.
  - cbn [ast_Expr]. rewrite IH. cbn [std_infix parens_Expr tail_Expr append].
    rewrite parens_Expr_comm. now rewrite !append_assoc.
  - cbn. now rewrite append_nil_r.
Qed.

Lemma std_infix_Exprp E :
  forall left,
    std_infix (ast_Exprp left E)
    = parens_Exprp E ++ std_infix left ++ tail_Exprp E.
Proof.
  induction E as [op p E IH |]; intros left.
  - cbn [ast_Exprp]. rewrite IH.
    cbn [std_infix parens_Exprp tail_Exprp append].
    rewrite parens_Exprp_comm. now rewrite !append_assoc.
  - cbn. now rewrite append_nil_r.
Qed.

Lemma pre_compl_par_of_derivation :
  (forall d, pre_compl_par_node (tree_expr d) = Some (std_infix (ast_expr d)))
  /\ (forall E r,
        close_loop pre_compl_par_node (tree_Expr E) r
        = Some (r ++ tail_Expr E))
  /\ (forall d, pre_compl_par_node (tree_exprp d)
                = Some (std_infix (ast_exprp d)))
  /\ (forall E r,
        close_loop pre_compl_par_node (tree_Exprp E) r
        = Some (r ++ tail_Exprp E))
  /\ (forall d, pre_compl_par_node (tree_exprpp d)
                = Some (std_infix (ast_exprpp d)))
  /\ (forall d, pre_compl_par_node (tree_exprppp d)
                = Some (std_infix (ast_exprppp d))).
Proof.
  apply deriv_mutind.
  - intros p IHp E IHE.
    destruct E as [op p1 E' |]; cbn [tree_expr tree_Expr] in *.
    + cbn [pre_compl_par_node num_childs child_ptrs_of List.length Nat.eqb on_ptr].
      rewrite open_loop_tree_Expr. cbn [rbind]. rewrite IHp. cbn [rbind].
      refine (eq_trans (IHE _) _). f_equal.
      cbn [ast_expr]. rewrite std_infix_Expr. unfold concat.
      cbn [parens_Expr append]. now rewrite !append_assoc.
    + cbn [pre_compl_par_node num_childs child_ptrs_of List.length Nat.eqb
           on_ptr epsilon create_node].
      exact IHp.
  - intros op p IHp E IHE r. cbn [tree_Expr close_loop on_ptr].
    rewrite IHp. cbn [rbind]. rewrite IHE, addop_node_string. f_equal.
    unfold concat. cbn [tail_Expr]. now rewrite !append_assoc.
  - intros r. cbn. now rewrite append_nil_r.
  - intros pp IHpp Ep IHEp.
    destruct Ep as [op pp1 Ep' |]; cbn [tree_exprp tree_Exprp] in *.
    + cbn [pre_compl_par_node num_childs child_ptrs_of List.length Nat.eqb on_ptr].
      rewrite open_loop_tree_Exprp. cbn [rbind]. rewrite IHpp. cbn [rbind].
      refine (eq_trans (IHEp _) _). f_equal.
      cbn [ast_exprp]. rewrite std_infix_Exprp. unfold concat.
      cbn [parens_Exprp append]. now rewrite !append_assoc.
    + cbn [pre_compl_par_node num_childs child_ptrs_of List.length Nat.eqb
           on_ptr epsilon create_node].
      exact IHpp.
  - intros op pp IHpp Ep IHEp r. cbn [tree_Exprp close_loop on_ptr].
    rewrite IHpp. cbn [rbind]. rewrite IHEp, mulop_node_string. f_equal.
    unfold concat. cbn [tail_Exprp]. now rewrite !append_assoc.
  - intros r. cbn. now rewrite append_nil_r.
  - intros ppp IHppp pp IHpp. cbn [tree_exprpp pre_compl_par_node on_ptr].
    rewrite IHppp, IHpp. cbn [rbind ast_exprpp std_infix]. f_equal.
    unfold concat. cbn [append]. now rewrite !append_assoc.
  - intros ppp IHppp. cbn [tree_exprpp pre_compl_par_node on_ptr]. exact IHppp.
  - reflexivity.
  - intros e IHe. cbn [tree_exprppp pre_compl_par_node on_ptr]. exact IHe.
Qed.

End RenderDerivations.

(** ** The parser on the yields of derivations *)

Section ParseDerivations.

Lemma bind_eq {A B} (m : M A) (k : A -> M B) st a st1 :
  m st = Some (a, st1) -> bind m k st = k a st1.
Proof. intros H. unfold bind. now rewrite H. Qed.

Lemma lookahead_loop_finds a b :
  lookahead_loop (a ++ mk_token RPAREN ")" :: b) <> [].
Proof.
  induction a as [| t a IH]; cbn [app lookahead_loop]; [discriminate |].
  destruct (token_type_eqb (tok_type t) RPAREN); [discriminate | exact IH].
Qed.

Lemma head_after_Expr types E rest :
  (forall op, existsb (token_type_eqb (tok_type (addop_token op))) types = false) ->
  head_type_in (ADD :: SUB :: types) rest = false ->
  head_type_in types (yield_Expr E ++ rest) = false.
Proof.
  intros Hop Hrest. destruct E as [op p E |]; cbn [yield_Expr app head_type_in].
  - apply Hop.
  - destruct rest as [| t rest]; [reflexivity |].
    cbn [head_type_in existsb] in Hrest.
    apply orb_false_iff in Hrest. destruct Hrest as [_ Hrest].
    apply orb_false_iff in Hrest. now destruct Hrest.
Qed.

Lemma head_after_Exprp types E rest :
  (forall op, existsb (token_type_eqb (tok_type (mulop_token op))) types = false) ->
  head_type_in (MUL :: DIV :: types) rest = false ->
  head_type_in types (yield_Exprp E ++ rest) = false.
Proof.
  intros Hop Hrest. destruct E as [op p E |]; cbn [yield_Exprp app head_type_in].
  - apply Hop.
  - destruct rest as [| t rest]; [reflexivity |].
    cbn [head_type_in existsb] in Hrest.
    apply orb_false_iff in Hrest. destruct Hrest as [_ Hrest].
    apply orb_false_iff in Hrest. now destruct Hrest.
Qed.

Ltac fuel_ok :=
  repeat (progress (cbn [List.length] in *) || rewrite List.length_app in *);
  lia.

Ltac follow_ok :=
  first [ eassumption
        | reflexivity
        | apply head_after_Expr; [intros []; reflexivity | assumption]
        | apply head_after_Exprp; [intros []; reflexivity | assumption]
        | match goal with
          | |- head_type_in [] ?r = false => destruct r; reflexivity
          end ].

Ltac step H :=
  erewrite bind_eq; [| eapply H; [try eassumption | follow_ok | fuel_ok]].

Lemma terminal_match type ntype msg t rest out :
  tok_type t = type ->
  terminal type ntype msg (mk_pstate (t :: rest) out)
  = Some (Some (Node ntype (tok_string t) []), mk_pstate rest out).
Proof.
  intros <-. unfold terminal, bind, cursor, advance, ret, create_node.
  cbn. destruct (tok_type t); reflexivity.
Qed.

(** Which production [exprpp] takes in front of an [exprppp] on which the
    lookahead agrees: the one with [^] exactly when [^] follows. *)
Lemma exprpp_decision fuel ppp rest out :
  lookahead_agrees_exprppp ppp rest = true ->
  exprpp (S fuel) (mk_pstate (yield_exprppp ppp ++ rest) out)
  = (if head_type_in [EXP] rest then
       c0 <- exprppp fuel ;; c1 <- expo ;; c2 <- exprpp fuel ;;
       ret (create_node NEXPRPP "" [c0; c1; c2])
     else
       c0 <- exprppp fuel ;; ret (create_node NEXPRPP "" [c0]))
      (mk_pstate (yield_exprppp ppp ++ rest) out).
Proof.
  intros Hag. cbn [exprpp]. unfold bind at 1, cursor. cbn [lexed_in].
  assert (Hnext : forall t, next_is_EXP (t :: rest) = head_type_in [EXP] rest).
  { intros t. unfold next_is_EXP, head_type_in. cbn [tl existsb].
    destruct rest; [reflexivity | now rewrite orb_false_r]. }
  destruct ppp as [lexeme | e].
  - cbn [yield_exprppp app tok_type token_type_eqb]. now rewrite Hnext.
  - cbn [lookahead_agrees_exprppp] in Hag. apply andb_true_iff in Hag.
    destruct Hag as [Hdec _]. apply Bool.eqb_prop in Hdec.
    cbn [yield_exprppp app tok_type token_type_eqb].
    rewrite <- app_assoc. cbn [app].
    destruct (lookahead_loop _) as [| t' rest'] eqn:El.
    + exfalso.
      exact (lookahead_loop_finds (mk_token LPAREN "(" :: yield_expr e) rest El).
    + now rewrite Hdec.
Qed.

Lemma parser_on_derivations :
  (forall d, parses expr 6 yield_expr tree_expr lookahead_agrees_expr
               [ADD; SUB; MUL; DIV; EXP] d)
  /\ (forall d, parses Expr 5 yield_Expr tree_Expr lookahead_agrees_Expr
                  [ADD; SUB; MUL; DIV; EXP] d)
  /\ (forall d, parses exprp 4 yield_exprp tree_exprp lookahead_agrees_exprp
                  [MUL; DIV; EXP] d)
  /\ (forall d, parses Exprp 3 yield_Exprp tree_Exprp lookahead_agrees_Exprp
                  [MUL; DIV; EXP] d)
  /\ (forall d, parses exprpp 2 yield_exprpp tree_exprpp lookahead_agrees_exprpp
                  [EXP] d)
  /\ (forall d, parses exprppp 1 yield_exprppp tree_exprppp
                  lookahead_agrees_exprppp [] d).
Proof.
  apply deriv_mutind; unfold parses.
  - (* expr -> exprp Expr *)
    intros p IHp E IHE rest out fuel Hag Hfol Hfuel.
    cbn [lookahead_agrees_expr] in Hag. apply andb_true_iff in Hag.
    destruct Hag as [Hagp HagE].
    destruct fuel as [| fuel]; [lia |].
    cbn [yield_expr expr] in *. rewrite <- app_assoc.
    step IHp. step IHE. reflexivity.
  - (* Expr -> + exprp Expr, Expr -> - exprp Expr *)
    intros op p IHp E IHE rest out fuel Hag Hfol Hfuel.
    cbn [lookahead_agrees_Expr] in Hag. apply andb_true_iff in Hag.
    destruct Hag as [Hagp HagE].
    destruct fuel as [| fuel]; [lia |].
    cbn [yield_Expr Expr app] in *. unfold bind at 1, cursor. cbn [lexed_in].
    rewrite <- app_assoc.
    destruct op; cbn [addop_token tok_type];
      (erewrite bind_eq; [| apply terminal_match; reflexivity]);
      step IHp; step IHE; reflexivity.
  - (* Expr -> epsilon *)
    intros rest out fuel _ Hfol Hfuel.
    destruct fuel as [| fuel]; [cbn in Hfuel; lia |].
    cbn [yield_Expr Expr app]. unfold bind, cursor. cbn [lexed_in].
    destruct rest as [| t rest]; [reflexivity |].
    cbn [head_type_in existsb] in Hfol.
    destruct (tok_type t); try reflexivity; discriminate.
  - (* exprp -> exprpp Exprp *)
    intros pp IHpp Ep IHEp rest out fuel Hag Hfol Hfuel.
    cbn [lookahead_agrees_exprp] in Hag. apply andb_true_iff in Hag.
    destruct Hag as [Hagpp HagEp].
    destruct fuel as [| fuel]; [lia |].
    cbn [yield_exprp exprp] in *. rewrite <- app_assoc.
    step IHpp. step IHEp. reflexivity.
  - (* Exprp -> * exprpp Exprp, Exprp -> / exprpp Exprp *)
    intros op pp IHpp Ep IHEp rest out fuel Hag Hfol Hfuel.
    cbn [lookahead_agrees_Exprp] in Hag. apply andb_true_iff in Hag.
    destruct Hag as [Hagpp HagEp].
    destruct fuel as [| fuel]; [lia |].
    cbn [yield_Exprp Exprp app] in *. unfold bind at 1, cursor. cbn [lexed_in].
    rewrite <- app_assoc.
    destruct op; cbn [mulop_token tok_type];
      (erewrite bind_eq; [| apply terminal_match; reflexivity]);
      step IHpp; step IHEp; reflexivity.
  - (* Exprp -> epsilon *)
    intros rest out fuel _ Hfol Hfuel.
    destruct fuel as [| fuel]; [cbn in Hfuel; lia |].
    cbn [yield_Exprp Exprp app]. unfold bind, cursor. cbn [lexed_in].
    destruct rest as [| t rest]; [reflexivity |].
    cbn [head_type_in existsb] in Hfol.
    destruct (tok_type t); try reflexivity; discriminate.
  - (* exprpp -> exprppp ^ exprpp *)
    intros ppp IHppp pp IHpp rest out fuel Hag Hfol Hfuel.
    cbn [lookahead_agrees_exprpp] in Hag. apply andb_true_iff in Hag.
    destruct Hag as [Hagppp Hagpp].
    destruct fuel as [| fuel]; [lia |].
    cbn [yield_exprpp] in *. rewrite <- app_assoc. cbn [app].
    rewrite exprpp_decision by exact Hagppp.
    cbn [head_type_in existsb tok_type token_type_eqb orb].
    step IHppp.
    erewrite bind_eq; [| apply terminal_match; reflexivity].
    step IHpp. reflexivity.
  - (* exprpp -> exprppp *)
    intros ppp IHppp rest out fuel Hag Hfol Hfuel.
    cbn [lookahead_agrees_exprpp] in Hag.
    destruct fuel as [| fuel]; [lia |].
    cbn [yield_exprpp] in *.
    rewrite exprpp_decision by exact Hag. rewrite Hfol.
    step IHppp. reflexivity.
  - (* exprppp -> atom *)
    intros lexeme rest out fuel _ _ Hfuel.
    destruct fuel as [| fuel]; [lia |]. reflexivity.
  - (* exprppp -> ( expr ) *)
    intros e IHe rest out fuel Hag _ Hfuel.
    cbn [lookahead_agrees_exprppp] in Hag. apply andb_true_iff in Hag.
    destruct Hag as [_ Hage].
    destruct fuel as [| fuel]; [lia |].
    cbn [yield_exprppp exprppp app] in *. unfold bind at 1, cursor.
    cbn [lexed_in tok_type token_type_eqb].
    erewrite bind_eq; [| apply terminal_match; reflexivity].
    rewrite <- app_assoc. cbn [app].
    step IHe. reflexivity.
Qed.

End ParseDerivations.

(** ** From tokens back to the line *)

Section LexLexemes.

Lemma string_length_append s1 s2 :
  String.length (s1 ++ s2) = String.length s1 + String.length s2.
Proof. induction s1 as [| c s1 IH]; simpl; [reflexivity | now rewrite IH]. Qed.

Lemma substring_prefix s r : substring 0 (String.length s) (s ++ r) = s.
Proof.
  induction s as [| c s IH]; simpl; [now destruct r | now rewrite IH].
Qed.

Lemma skip_while_app p s r :
  string_forall p s = true -> first_char_is p r = false ->
  skip_while p (s ++ r) = r.
Proof.
  intros Hs Hr. induction s as [| c s IH]; simpl.
  - destruct r as [| a r]; [reflexivity |]. simpl in *. now rewrite Hr.
  - simpl in Hs. apply andb_true_iff in Hs. destruct Hs as [Hc Hs].
    rewrite Hc. auto.
Qed.

Lemma operator_not_alnum c type :
  operator_type c = Some type -> isalpha c = false /\ isdigit c = false.
Proof.
  unfold operator_type.
  repeat match goal with
         | |- context [Ascii.eqb c ?a] =>
             let E := fresh "E" in
             destruct (Ascii.eqb c a) eqn:E;
             [apply Ascii.eqb_eq in E; subst c; intros _; split; reflexivity |]
         end.
  intros H. discriminate H.
Qed.

(** In a maximal sequence of well-formed tokens, the lexemes that follow a
    token do not start with a character of its class. *)
Lemma next_lexeme_other_class t rest :
  forallb token_ok (t :: rest) = true ->
  maximal_munch (t :: rest) = true ->
  tok_type t = ATOM ->
  (first_char_is isalpha (tok_string t) = true ->
   first_char_is isalpha (lexemes rest) = false)
  /\ (first_char_is isdigit (tok_string t) = true ->
      first_char_is isdigit (lexemes rest) = false).
Proof.
  intros Hok Hmax Ht. destruct rest as [| t2 rest]; [split; reflexivity |].
  cbn [forallb] in Hok. apply andb_true_iff in Hok. destruct Hok as [_ Hok].
  apply andb_true_iff in Hok. destruct Hok as [Hok2 _].
  rewrite !(first_char_lexemes _ _ _ (token_ok_nonempty _ Hok2)).
  cbn [maximal_munch] in Hmax. apply andb_true_iff in Hmax.
  destruct Hmax as [Hcls _]. apply negb_true_iff in Hcls.
  unfold same_class in Hcls. rewrite Ht in Hcls. cbn [token_type_eqb] in Hcls.
  destruct (tok_type t2) eqn:Et2;
    try (unfold token_ok in Hok2; rewrite Et2 in Hok2;
         destruct (tok_string t2) as [| c2 [| ? ?]]; try discriminate;
         destruct (operator_type c2) as [ty |] eqn:Eo; [| discriminate];
         destruct (operator_not_alnum c2 ty Eo) as [Ha Hd];
         cbn [first_char_is]; rewrite Ha, Hd; split; reflexivity).
  cbn [token_type_eqb andb] in Hcls. apply orb_false_iff in Hcls.
  destruct Hcls as [Ha Hd]. split; intros H; rewrite H in *; assumption.
Qed.

Lemma lexer_loop_of_lexemes toks :
  forall acc fuel,
    forallb token_ok toks = true -> maximal_munch toks = true ->
    String.length (lexemes toks) <= fuel ->
    lexer_loop fuel (lexemes toks) acc = Some (mk_lexed (acc ++ toks) []).
Proof.
  induction toks as [| t rest IH]; intros acc fuel Hok Hmax Hfuel.
  { destruct fuel; cbn; now rewrite app_nil_r. }
  pose proof (next_lexeme_other_class t rest Hok Hmax) as Hnext.
  assert (Hmax' : maximal_munch rest = true).
  { destruct rest; [reflexivity |]. cbn [maximal_munch] in Hmax.
    apply andb_true_iff in Hmax. apply Hmax. }
  cbn [forallb] in Hok. apply andb_true_iff in Hok. destruct Hok as [Hokt Hok].
  destruct t as [type str]. cbn [lexemes tok_string tok_type] in *.
  rewrite string_length_append in Hfuel.
  unfold token_ok in Hokt. cbn [tok_type tok_string] in Hokt.
  assert (Hacc : forall t', ((acc ++ [t']) ++ rest = acc ++ t' :: rest)%list)
    by (intros; now rewrite <- app_assoc).
  destruct type;
    try (destruct str as [| c [| ? ?]]; try discriminate;
         destruct (operator_type c) as [ty |] eqn:Eo; [| discriminate];
         apply token_type_eqb_eq in Hokt; subst ty;
         destruct (operator_not_alnum c _ Eo) as [Ha Hd];
         destruct fuel as [| fuel]; [simpl in Hfuel; lia |];
         cbn [append lexer_loop]; rewrite Ha, Hd, Eo;
         rewrite IH by (auto; simpl in Hfuel; lia);
         rewrite Hacc; unfold create_token; cbn [substring];
         now destruct (lexemes rest)).
  (* an atom *)
  destruct (Hnext eq_refl) as [Hna Hnd].
  destruct str as [| c str]; [discriminate |].
  destruct fuel as [| fuel]; [simpl in Hfuel; lia |].
  cbn [first_char_is string_forall] in *. cbn [append lexer_loop].
  assert (Htok : forall p,
            string_forall p str = true ->
            first_char_is p (lexemes rest) = false ->
            skip_while p (str ++ lexemes rest) = lexemes rest
            /\ create_token ATOM (String c (str ++ lexemes rest))
                 (String.length (String c (str ++ lexemes rest))
                  - String.length (lexemes rest))
               = mk_token ATOM (String c str)).
  { intros p Hp Hr. split; [now apply skip_while_app |].
    unfold create_token. cbn [String.length].
    rewrite string_length_append.
    replace (S (String.length str + String.length (lexemes rest))
             - String.length (lexemes rest))
      with (S (String.length str)) by lia.
    cbn [substring]. now rewrite substring_prefix. }
  apply orb_true_iff in Hokt. destruct Hokt as [Hokt | Hokt];
    apply andb_true_iff in Hokt; destruct Hokt as [Hc Hall];
    apply andb_true_iff in Hall; destruct Hall as [_ Hall].
  - rewrite Hc. destruct (Htok isalpha Hall (Hna Hc)) as [-> ->].
    rewrite IH by (auto; simpl in Hfuel; lia). now rewrite Hacc.
  - assert (Ha : isalpha c = false)
      by exact (first_digit_not_alpha (String c "") Hc).
    rewrite Ha, Hc.
    destruct (Htok isdigit Hall (Hnd Hc)) as [-> ->].
    rewrite IH by (auto; simpl in Hfuel; lia). now rewrite Hacc.
Qed.

Lemma lexemes_empty toks :
  forallb token_ok toks = true -> lexemes toks = "" -> toks = [].
Proof.
  intros Hok E. destruct toks as [| t rest]; [reflexivity |].
  cbn [forallb] in Hok. apply andb_true_iff in Hok. destruct Hok as [Ht _].
  apply token_ok_nonempty in Ht. cbn [lexemes] in E.
  destruct (tok_string t); [congruence | discriminate].
Qed.

Lemma tokens_of_lexemes toks :
  forallb token_ok toks = true -> maximal_munch toks = true ->
  tokens_of (lexemes toks) = toks.
Proof.
  intros Hok Hmax. unfold tokens_of, input_lexer.
  destruct (lexemes toks) as [| a s] eqn:E.
  - symmetry. now apply lexemes_empty.
  - rewrite <- E. now rewrite (lexer_loop_of_lexemes toks []).
Qed.

Lemma maximal_cons_other t toks :
  token_type_eqb (tok_type t) ATOM = false ->
  maximal_munch (t :: toks) = maximal_munch toks.
Proof.
  intros H. destruct toks as [| t2 toks]; [reflexivity |].
  cbn [maximal_munch]. unfold same_class. now rewrite H.
Qed.

Lemma maximal_cons_before_other t toks :
  head_type_in [ATOM] toks = false ->
  maximal_munch (t :: toks) = maximal_munch toks.
Proof.
  intros H. destruct toks as [| t2 toks]; [reflexivity |].
  cbn [maximal_munch]. unfold same_class.
  cbn [head_type_in existsb] in H. rewrite orb_false_r in H.
  now rewrite H, andb_false_r.
Qed.

Lemma head_atom_after_Expr E rest :
  head_type_in [ATOM] rest = false ->
  head_type_in [ATOM] (yield_Expr E ++ rest) = false.
Proof. destruct E as [[] p E |]; auto. Qed.

Lemma head_atom_after_Exprp E rest :
  head_type_in [ATOM] rest = false ->
  head_type_in [ATOM] (yield_Exprp E ++ rest) = false.
Proof. destruct E as [[] p E |]; auto. Qed.

(** In the yield of a derivation an atom is never followed by an atom. *)
Lemma yield_maximal :
  (forall d rest, head_type_in [ATOM] rest = false ->
     maximal_munch rest = true -> maximal_munch (yield_expr d ++ rest) = true)
  /\ (forall d rest, head_type_in [ATOM] rest = false ->
     maximal_munch rest = true -> maximal_munch (yield_Expr d ++ rest) = true)
  /\ (forall d rest, head_type_in [ATOM] rest = false ->
     maximal_munch rest = true -> maximal_munch (yield_exprp d ++ rest) = true)
  /\ (forall d rest, head_type_in [ATOM] rest = false ->
     maximal_munch rest = true -> maximal_munch (yield_Exprp d ++ rest) = true)
  /\ (forall d rest, head_type_in [ATOM] rest = false ->
     maximal_munch rest = true -> maximal_munch (yield_exprpp d ++ rest) = true)
  /\ (forall d rest, head_type_in [ATOM] rest = false ->
     maximal_munch rest = true -> maximal_munch (yield_exprppp d ++ rest) = true).
Proof.
  apply deriv_mutind.
  - intros p IHp E IHE rest Hh Hm. cbn [yield_expr]. rewrite <- app_assoc.
    apply IHp; [now apply head_atom_after_Expr | now apply IHE].
  - intros op p IHp E IHE rest Hh Hm. cbn [yield_Expr app].
    rewrite maximal_cons_other by now destruct op.
    rewrite <- app_assoc.
    apply IHp; [now apply head_atom_after_Expr | now apply IHE].
  - intros rest _ Hm. exact Hm.
  - intros pp IHpp Ep IHEp rest Hh Hm. cbn [yield_exprp]. rewrite <- app_assoc.
    apply IHpp; [now apply head_atom_after_Exprp | now apply IHEp].
  - intros op pp IHpp Ep IHEp rest Hh Hm. cbn [yield_Exprp app].
    rewrite maximal_cons_other by now destruct op.
    rewrite <- app_assoc.
    apply IHpp; [now apply head_atom_after_Exprp | now apply IHEp].
  - intros rest _ Hm. exact Hm.
  - intros ppp IHppp pp IHpp rest Hh Hm. cbn [yield_exprpp].
    rewrite <- app_assoc. cbn [app].
    apply IHppp; [reflexivity |].
    rewrite maximal_cons_other by reflexivity. now apply IHpp.
  - intros ppp IHppp rest Hh Hm. now apply IHppp.
  - intros lexeme rest Hh Hm. cbn [yield_exprppp app].
    now rewrite maximal_cons_before_other.
  - intros e IHe rest Hh Hm. cbn [yield_exprppp app].
    rewrite maximal_cons_other by reflexivity. rewrite <- app_assoc.
    cbn [app]. apply IHe; [reflexivity |].
    now rewrite maximal_cons_other by reflexivity.
Qed.

Lemma yield_tokens_ok :
  (forall d, atoms_ok_expr d = true -> forallb token_ok (yield_expr d) = true)
  /\ (forall d, atoms_ok_Expr d = true -> forallb token_ok (yield_Expr d) = true)
  /\ (forall d, atoms_ok_exprp d = true -> forallb token_ok (yield_exprp d) = true)
  /\ (forall d, atoms_ok_Exprp d = true -> forallb token_ok (yield_Exprp d) = true)
  /\ (forall d, atoms_ok_exprpp d = true ->
        forallb token_ok (yield_exprpp d) = true)
  /\ (forall d, atoms_ok_exprppp d = true ->
        forallb token_ok (yield_exprppp d) = true).
Proof.
  apply deriv_mutind; cbn [atoms_ok_expr atoms_ok_Expr atoms_ok_exprp
    atoms_ok_Exprp atoms_ok_exprpp atoms_ok_exprppp yield_expr yield_Expr
    yield_exprp yield_Exprp yield_exprpp yield_exprppp];
    intros;
    repeat match goal with
           | H : _ && _ = true |- _ =>
               apply andb_true_iff in H; destruct H
           end;
    repeat (rewrite forallb_app || cbn [forallb]);
    repeat match goal with
           | H : _ -> _ = true |- _ => rewrite H by assumption
           end;
    try reflexivity.
  - now destruct op.
  - now destruct op.
  - unfold lexeme_ok in *. now rewrite H.
Qed.

(** The lexer gives back the tokens of a derivation from the line they
    spell. *)
Lemma tokens_of_yield d :
  atoms_ok_expr d = true -> tokens_of (lexemes (yield_expr d)) = yield_expr d.
Proof.
  intros Hok. apply tokens_of_lexemes.
  - now apply yield_tokens_ok.
  - rewrite <- (app_nil_r (yield_expr d)). now apply yield_maximal.
Qed.

End LexLexemes.

(** ** When the lookahead of [exprpp] agrees *)

Section Lookahead.

Lemma next_is_EXP_cons t rest :
  next_is_EXP (t :: rest) = head_type_in [EXP] rest.
Proof.
  unfold next_is_EXP, head_type_in. cbn [tl existsb].
  destruct rest; [reflexivity | now rewrite orb_false_r].
Qed.

Lemma lookahead_loop_skips a rest :
  forallb (fun t => negb (token_type_eqb (tok_type t) RPAREN)) a = true ->
  lookahead_loop (a ++ rest) = lookahead_loop rest.
Proof.
  induction a as [| t a IH]; [reflexivity |].
  cbn [forallb app lookahead_loop]. intros H.
  apply andb_true_iff in H. destruct H as [Ht Ha].
  apply negb_true_iff in Ht. rewrite Ht. auto.
Qed.

(** The yield of a derivation without parentheses has no right
    parenthesis. *)
Lemma yield_without_rparen :
  let free toks :=
    forallb (fun t => negb (token_type_eqb (tok_type t) RPAREN)) toks = true in
  (forall d, depth_expr d = 0 -> free (yield_expr d))
  /\ (forall d, depth_Expr d = 0 -> free (yield_Expr d))
  /\ (forall d, depth_exprp d = 0 -> free (yield_exprp d))
  /\ (forall d, depth_Exprp d = 0 -> free (yield_Exprp d))
  /\ (forall d, depth_exprpp d = 0 -> free (yield_exprpp d))
  /\ (forall d, depth_exprppp d = 0 -> free (yield_exprppp d)).
Proof.
  cbv zeta.
  apply deriv_mutind; cbn [depth_expr depth_Expr depth_exprp depth_Exprp
    depth_exprpp depth_exprppp yield_expr yield_Expr yield_exprp yield_Exprp
    yield_exprpp yield_exprppp];
    intros; try discriminate;
    repeat (rewrite forallb_app || cbn [forallb]);
    repeat match goal with
           | H : _ -> _ = true |- _ => rewrite H by lia
           end;
    try reflexivity.
  - now destruct op.
  - now destruct op.
Qed.

(** Parentheses that are not nested: the first right parenthesis behind a
    left parenthesis is the one that closes it. *)
Lemma lookahead_agrees_unnested :
  (forall d rest, depth_expr d <= 1 -> lookahead_agrees_expr d rest = true)
  /\ (forall d rest, depth_Expr d <= 1 -> lookahead_agrees_Expr d rest = true)
  /\ (forall d rest, depth_exprp d <= 1 -> lookahead_agrees_exprp d rest = true)
  /\ (forall d rest, depth_Exprp d <= 1 -> lookahead_agrees_Exprp d rest = true)
  /\ (forall d rest, depth_exprpp d <= 1 ->
        lookahead_agrees_exprpp d rest = true)
  /\ (forall d rest, depth_exprppp d <= 1 ->
        lookahead_agrees_exprppp d rest = true).
Proof.
  apply deriv_mutind; cbn [depth_expr depth_Expr depth_exprp depth_Exprp
    depth_exprpp depth_exprppp lookahead_agrees_expr lookahead_agrees_Expr
    lookahead_agrees_exprp lookahead_agrees_Exprp lookahead_agrees_exprpp
    lookahead_agrees_exprppp];
    intros;
    repeat match goal with
           | H : forall rest, _ -> _ = true |- _ => rewrite H by lia
           end;
    try reflexivity.
  rewrite andb_true_r.
  change (mk_token LPAREN "(" :: yield_expr e ++ mk_token RPAREN ")" :: rest)
    with (([mk_token LPAREN "("] ++ yield_expr e)
          ++ mk_token RPAREN ")" :: rest)%list.
  rewrite lookahead_loop_skips.
  - cbn [lookahead_loop tok_type token_type_eqb]. rewrite next_is_EXP_cons.
    apply Bool.eqb_reflx.
  - cbn [app forallb tok_type token_type_eqb negb andb].
    apply yield_without_rparen. lia.
Qed.

Lemma no_rparen_exp_app_r a b :
  no_rparen_exp (a ++ b) = true -> no_rparen_exp b = true.
Proof.
  induction a as [| t a IH]; [auto |]. cbn [app no_rparen_exp]. intros H.
  apply andb_true_iff in H. now apply IH.
Qed.

Lemma no_rparen_exp_tail t toks :
  no_rparen_exp (t :: toks) = true -> no_rparen_exp toks = true.
Proof. exact (no_rparen_exp_app_r [t] toks). Qed.

Lemma no_rparen_exp_first toks :
  no_rparen_exp toks = true -> next_is_EXP (lookahead_loop toks) = false.
Proof.
  induction toks as [| t toks IH]; [reflexivity |].
  cbn [no_rparen_exp lookahead_loop]. intros H.
  apply andb_true_iff in H. destruct H as [Ht Htoks].
  destruct (token_type_eqb (tok_type t) RPAREN); [| auto].
  rewrite next_is_EXP_cons. cbn [andb] in Ht. now apply negb_true_iff in Ht.
Qed.

Lemma no_rparen_exp_after a rest :
  no_rparen_exp (a ++ mk_token RPAREN ")" :: rest) = true ->
  head_type_in [EXP] rest = false.
Proof.
  intros H. apply no_rparen_exp_app_r in H. cbn [no_rparen_exp] in H.
  apply andb_true_iff in H. destruct H as [H _].
  cbn [tok_type token_type_eqb andb] in H. now apply negb_true_iff in H.
Qed.

(** When no right parenthesis is followed by [^], the lookahead never
    sees [^], and no parenthesized expression is the base of a power. *)
Lemma lookahead_agrees_no_rparen_exp :
  (forall d rest, no_rparen_exp (yield_expr d ++ rest) = true ->
     lookahead_agrees_expr d rest = true)
  /\ (forall d rest, no_rparen_exp (yield_Expr d ++ rest) = true ->
     lookahead_agrees_Expr d rest = true)
  /\ (forall d rest, no_rparen_exp (yield_exprp d ++ rest) = true ->
     lookahead_agrees_exprp d rest = true)
  /\ (forall d rest, no_rparen_exp (yield_Exprp d ++ rest) = true ->
     lookahead_agrees_Exprp d rest = true)
  /\ (forall d rest, no_rparen_exp (yield_exprpp d ++ rest) = true ->
     lookahead_agrees_exprpp d rest = true)
  /\ (forall d rest, no_rparen_exp (yield_exprppp d ++ rest) = true ->
     lookahead_agrees_exprppp d rest = true).
Proof.
  apply deriv_mutind.
  - intros p IHp E IHE rest H. cbn [yield_expr lookahead_agrees_expr] in *.
    rewrite <- app_assoc in H. rewrite (IHp _ H).
    apply no_rparen_exp_app_r in H. now rewrite (IHE _ H).
  - intros op p IHp E IHE rest H. cbn [yield_Expr lookahead_agrees_Expr] in *.
    cbn [app] in H. apply no_rparen_exp_tail in H.
    rewrite <- app_assoc in H. rewrite (IHp _ H).
    apply no_rparen_exp_app_r in H. now rewrite (IHE _ H).
  - reflexivity.
  - intros pp IHpp Ep IHEp rest H. cbn [yield_exprp lookahead_agrees_exprp] in *.
    rewrite <- app_assoc in H. rewrite (IHpp _ H).
    apply no_rparen_exp_app_r in H. now rewrite (IHEp _ H).
  - intros op pp IHpp Ep IHEp rest H.
    cbn [yield_Exprp lookahead_agrees_Exprp] in *.
    cbn [app] in H. apply no_rparen_exp_tail in H.
    rewrite <- app_assoc in H. rewrite (IHpp _ H).
    apply no_rparen_exp_app_r in H. now rewrite (IHEp _ H).
  - reflexivity.
  - intros ppp IHppp pp IHpp rest H.
    cbn [yield_exprpp lookahead_agrees_exprpp] in *.
    rewrite <- app_assoc in H. cbn [app] in H. rewrite (IHppp _ H).
    apply no_rparen_exp_app_r in H. apply no_rparen_exp_tail in H.
    now rewrite (IHpp _ H).
  - intros ppp IHppp rest H. now apply IHppp.
  - reflexivity.
  - intros e IHe rest H. cbn [yield_exprppp lookahead_agrees_exprppp app] in *.
    rewrite <- app_assoc in H. cbn [app] in H.
    rewrite (no_rparen_exp_first _ H).
    apply no_rparen_exp_tail in H.
    rewrite (no_rparen_exp_after _ _ H). rewrite (IHe _ H). reflexivity.
Qed.

End Lookahead.

(** ** The program on the derivations of its grammar *)

Section Derivations.

Lemma ast_atoms_of_derivation :
  (forall d, atoms_ok_expr d = true -> ast_atoms_ok (ast_expr d) = true)
  /\ (forall d left, atoms_ok_Expr d = true -> ast_atoms_ok left = true ->
        ast_atoms_ok (ast_Expr left d) = true)
  /\ (forall d, atoms_ok_exprp d = true -> ast_atoms_ok (ast_exprp d) = true)
  /\ (forall d left, atoms_ok_Exprp d = true -> ast_atoms_ok left = true ->
        ast_atoms_ok (ast_Exprp left d) = true)
  /\ (forall d, atoms_ok_exprpp d = true -> ast_atoms_ok (ast_exprpp d) = true)
  /\ (forall d, atoms_ok_exprppp d = true ->
        ast_atoms_ok (ast_exprppp d) = true).
Proof.
  apply deriv_mutind; cbn [atoms_ok_expr atoms_ok_Expr atoms_ok_exprp
    atoms_ok_Exprp atoms_ok_exprpp atoms_ok_exprppp ast_expr ast_Expr
    ast_exprp ast_Exprp ast_exprpp ast_exprppp ast_atoms_ok];
    intros;
    repeat match goal with
           | H : _ && _ = true |- _ =>
               apply andb_true_iff in H; destruct H
           end;
    auto.
  - apply H0; auto. cbn [ast_atoms_ok]. rewrite H2. auto.
  - apply H0; auto. cbn [ast_atoms_ok]. rewrite H2. auto.
  - rewrite H, H0; auto.
Qed.

Lemma strip_parens_std_infix a :
  ast_atoms_ok a = true -> strip_parens (std_infix a) = std_infix_top a.
Proof.
  destruct a as [lexeme | op l r]; cbn [ast_atoms_ok std_infix std_infix_top].
  - intros H. apply strip_parens_plain.
    exact (token_ok_plain (mk_token ATOM lexeme) H).
  - intros _.
    replace (std_infix l ++ binop_string op ++ std_infix r ++ ")")
      with ((std_infix l ++ binop_string op ++ std_infix r) ++ ")")
      by now rewrite !append_assoc.
    apply strip_parens_wrapped.
Qed.

Lemma tree_of_yield d :
  lookahead_agrees_expr d [] = true ->
  tree_of (yield_expr d) = Some (tree_expr d).
Proof.
  intros Hag. destruct parser_on_derivations as (He & _).
  specialize (He d [] [] (parse_fuel (yield_expr d)) Hag eq_refl).
  rewrite app_nil_r in He. unfold tree_of, parse.
  rewrite He; [reflexivity | unfold parse_fuel; lia].
Qed.

Lemma compl_par_tree d :
  compl_par (Some (tree_expr d))
  = Some (strip_parens (std_infix (ast_expr d))).
Proof.
  unfold compl_par, pre_compl_par. cbn [on_ptr].
  now rewrite (proj1 pre_compl_par_of_derivation d).
Qed.

End Derivations.

(** X1.  On the tokens of a derivation of the grammar on which the
    lookahead of [exprpp] agrees with the matching parentheses, [expr]
    returns the parse tree of the derivation, reads every token and prints
    nothing. *)
Theorem expr_parses_derivation (d : deriv_expr) :
  lookahead_agrees_expr d [] = true ->
  parse (yield_expr d) = Some (Some (tree_expr d), mk_pstate [] []).
Proof.
  intros Hag. destruct parser_on_derivations as (He & _).
  specialize (He d [] [] (parse_fuel (yield_expr d)) Hag eq_refl).
  rewrite app_nil_r in He. apply He. unfold parse_fuel. lia.
Qed.

Lemma expr_parses_derivation_witness :
  lookahead_agrees_expr example_derivation [] = true
  /\ parse (yield_expr example_derivation)
     = Some (Some (tree_expr example_derivation), mk_pstate [] []).
Proof.
  split; [reflexivity | apply expr_parses_derivation; reflexivity].
Defined.

(** X2.  On the parse tree of any derivation, [postfix] returns the postfix
    form of the expression of the derivation, in which [+ - * /] associate
    to the left and [^] to the right. *)
Theorem postfix_of_parse_tree (d : deriv_expr) :
  postfix (Some (tree_expr d)) = Some (std_postfix (ast_expr d)).
Proof.
  destruct postfix_of_derivation as (Hexpr & _). exact (Hexpr d).
Qed.

(** X3.  On the parse tree of any derivation, [prefix] returns the prefix
    form of the expression of the derivation: putting each operator of a
    chain in front of everything rendered so far gives the operators of a
    left-associated expression in the right order. *)
Theorem prefix_of_parse_tree (d : deriv_expr) :
  prefix (Some (tree_expr d)) = Some (std_prefix (ast_expr d)).
Proof.
  destruct prefix_of_derivation as (Hexpr & _). exact (Hexpr d).
Qed.

(** X4.  On the parse tree of any derivation, [pre_compl_par] returns the
    expression of the derivation with one pair of parentheses around every
    operator and its two operands, and none around an atom. *)
Theorem pre_compl_par_of_parse_tree (d : deriv_expr) :
  pre_compl_par (Some (tree_expr d)) = Some (std_infix (ast_expr d)).
Proof.
  destruct pre_compl_par_of_derivation as (Hexpr & _). exact (Hexpr d).
Qed.

(** X5.  When the atoms of the derivation are runs of letters or of
    digits, [compl_par] returns the fully parenthesized form without the
    pair around the whole expression. *)
Theorem compl_par_of_parse_tree (d : deriv_expr) :
  atoms_ok_expr d = true ->
  compl_par (Some (tree_expr d)) = Some (std_infix_top (ast_expr d)).
Proof.
  intros Hok. rewrite compl_par_tree. f_equal.
  apply strip_parens_std_infix. now apply ast_atoms_of_derivation.
Qed.

Lemma compl_par_of_parse_tree_witness :
  atoms_ok_expr example_derivation = true
  /\ compl_par (Some (tree_expr example_derivation))
     = Some (std_infix_top (ast_expr example_derivation)).
Proof.
  split; [reflexivity | apply compl_par_of_parse_tree; reflexivity].
Defined.

(** X6.  Lexing the line that a sequence of tokens spells gives the
    sequence back, when every token is well formed and no two neighbouring
    atoms are of the same class. *)
Theorem input_lexer_inverts_lexemes (toks : list token) :
  forallb token_ok toks = true -> maximal_munch toks = true ->
  input_lexer (lexemes toks) = Some (mk_lexed toks []).
Proof.
  intros Hok Hmax. unfold input_lexer.
  destruct (lexemes toks) as [| a s] eqn:E.
  - now rewrite (lexemes_empty toks Hok E).
  - rewrite <- E. now apply (lexer_loop_of_lexemes toks []).
Qed.

Lemma input_lexer_inverts_lexemes_witness :
  let toks := [mk_token ATOM "ab"; mk_token ATOM "12"; mk_token ADD "+";
               mk_token LPAREN "("; mk_token ATOM "c"; mk_token RPAREN ")"] in
  forallb token_ok toks = true /\ maximal_munch toks = true
  /\ input_lexer (lexemes toks) = Some (mk_lexed toks []).
Proof.
  cbv zeta. split; [reflexivity | split; [reflexivity |]].
  apply input_lexer_inverts_lexemes; reflexivity.
Defined.

(** X7.  The whole program on the line of a derivation with well-formed
    atoms on which the lookahead agrees: the three strings it computes are
    the fully parenthesized, postfix and prefix forms of the expression. *)
Theorem run_on_derivation (d : deriv_expr) :
  atoms_ok_expr d = true ->
  lookahead_agrees_expr d [] = true ->
  run (lexemes (yield_expr d))
  = mk_renders (Some (std_infix_top (ast_expr d)))
      (Some (std_postfix (ast_expr d))) (Some (std_prefix (ast_expr d))).
Proof.
  intros Hok Hag. unfold run, render_all.
  rewrite (tokens_of_yield d Hok), (tree_of_yield d Hag), compl_par_tree.
  rewrite strip_parens_std_infix by now apply ast_atoms_of_derivation.
  f_equal.
  - exact (proj1 postfix_of_derivation d).
  - exact (proj1 prefix_of_derivation d).
Qed.

Lemma run_on_derivation_witness :
  atoms_ok_expr example_derivation = true
  /\ lookahead_agrees_expr example_derivation [] = true
  /\ run (lexemes (yield_expr example_derivation))
     = mk_renders (Some (std_infix_top (ast_expr example_derivation)))
         (Some (std_postfix (ast_expr example_derivation)))
         (Some (std_prefix (ast_expr example_derivation))).
Proof.
  split; [reflexivity | split; [reflexivity |]].
  apply run_on_derivation; reflexivity.
Defined.

(** X8.  In a derivation whose parentheses are not nested, the scan of
    [exprpp] stops at the matching right parenthesis every time. *)
Theorem lookahead_agrees_when_not_nested (d : deriv_expr) :
  depth_expr d <= 1 -> lookahead_agrees_expr d [] = true.
Proof.
  destruct lookahead_agrees_unnested as (Hexpr & _). exact (Hexpr d []).
Qed.

Lemma lookahead_agrees_when_not_nested_witness :
  depth_expr example_derivation <= 1
  /\ lookahead_agrees_expr example_derivation [] = true.
Proof.
  split; [vm_compute; lia |].
  apply lookahead_agrees_when_not_nested. vm_compute. lia.
Defined.

(** X9.  In a derivation in whose tokens no right parenthesis is followed
    by [^], however deep the parentheses, the test of [exprpp] gives the
    right production every time. *)
Theorem lookahead_agrees_without_parenthesized_base (d : deriv_expr) :
  no_rparen_exp (yield_expr d) = true -> lookahead_agrees_expr d [] = true.
Proof.
  intros H. apply lookahead_agrees_no_rparen_exp. now rewrite app_nil_r.
Qed.

Lemma lookahead_agrees_without_parenthesized_base_witness :
  no_rparen_exp (yield_expr example_derivation) = true
  /\ lookahead_agrees_expr example_derivation [] = true.
Proof.
  split; [reflexivity |].
  apply lookahead_agrees_without_parenthesized_base. reflexivity.
Defined.

(** ** The tokens consumed and the terminals of the tree *)

Section Frontier.

Lemma reads_from_ret pre r :
  frontier_ptr r = pre -> reads_from pre (ret r).
Proof.
  intros Hr st r' st' H. inversion H; subst. exists [], [].
  cbn [app map]. rewrite !app_nil_r. auto.
Qed.

Lemma reads_from_cursor pre (k : list token -> M node_ptr) :
  (forall cur, reads_from pre (k cur)) -> reads_from pre (bind cursor k).
Proof. intros Hk st r st' H. exact (Hk (lexed_in st) st r st' H). Qed.

Lemma reads_from_printf pre msg r : reads_from pre (printf msg ;;; ret r).
Proof.
  intros st r' st' H. inversion H; subst. exists [], [msg].
  cbn [lexed_in stdout]. split; [reflexivity | split; [reflexivity | discriminate]].
Qed.

Lemma reads_from_bind pre (m : M node_ptr) (k : node_ptr -> M node_ptr) :
  reads_from [] m ->
  (forall c, reads_from (pre ++ frontier_ptr c) (k c)) ->
  reads_from pre (bind m k).
Proof.
  intros Hm Hk st r st' H.
  apply bind_inv in H. destruct H as (c & st1 & H1 & H2).
  destruct (Hm _ _ _ H1) as (c1 & p1 & Hc1 & Hp1 & Hf1).
  destruct (Hk c _ _ _ H2) as (c2 & p2 & Hc2 & Hp2 & Hf2).
  exists (c1 ++ c2)%list, (p1 ++ p2)%list. repeat split.
  - now rewrite Hc1, Hc2, app_assoc.
  - now rewrite Hp2, Hp1, app_assoc.
  - intros Hnil. apply app_eq_nil in Hnil. destruct Hnil as [-> ->].
    rewrite (Hf2 eq_refl), (Hf1 eq_refl). cbn [app].
    now rewrite map_app, app_assoc.
Qed.

Lemma terminal_reads type msg :
  reads_from [] (terminal type (terminal_type type) msg).
Proof.
  intros st r st' H.
  unfold terminal, bind, cursor, advance, printf, ret, create_node in H.
  destruct st as [[| t rest] out]; cbn in H.
  - inversion H; subst. exists [], [msg].
    split; [reflexivity | split; [reflexivity | discriminate]].
  - destruct (token_type_eqb (tok_type t) type) eqn:E;
      inversion H; subst; cbn [lexed_in stdout].
    + exists [t], []. rewrite app_nil_r. repeat split.
      intros _. apply token_type_eqb_eq in E. subst type.
      unfold terminal_of_token. cbn. now destruct (tok_type t).
    + exists [t], [msg].
      split; [reflexivity | split; [reflexivity | discriminate]].
Qed.

Ltac reads_node :=
  repeat (apply reads_from_bind;
          [first [assumption | apply terminal_reads]
          | let c := fresh "c" in intros c]);
  try (apply reads_from_ret; cbn [create_node frontier_ptr frontier
         is_terminal flat_map epsilon app];
       rewrite ?app_nil_r, <- ?app_assoc; reflexivity).

Lemma parser_reads fuel :
  reads_from [] (exprppp fuel) /\ reads_from [] (exprpp fuel)
  /\ reads_from [] (Exprp fuel) /\ reads_from [] (exprp fuel)
  /\ reads_from [] (Expr fuel) /\ reads_from [] (expr fuel).
Proof.
  induction fuel as [| fuel (IHppp & IHpp & IHPp & IHp & IHE & IHe)].
  { repeat apply conj; intros st r st' H; discriminate. }
  repeat apply conj.
  - cbn [exprppp]. apply reads_from_cursor. intros [| t rest].
    + now apply reads_from_ret.
    + destruct (token_type_eqb (tok_type t) ATOM); reads_node.
  - cbn [exprpp]. apply reads_from_cursor. intros [| t rest].
    + now apply reads_from_ret.
    + destruct (token_type_eqb (tok_type t) ATOM).
      * destruct (next_is_EXP _); reads_node.
      * destruct (lookahead_loop _).
        -- apply reads_from_printf.
        -- destruct (next_is_EXP _); reads_node.
  - cbn [Exprp]. apply reads_from_cursor. intros [| t rest].
    + now apply reads_from_ret.
    + destruct (tok_type t); reads_node.
  - cbn [exprp]. reads_node.
  - cbn [Expr]. apply reads_from_cursor. intros [| t rest].
    + now apply reads_from_ret.
    + destruct (tok_type t); reads_node.
  - cbn [expr]. reads_node.
Qed.

End Frontier.

(** X10.  For every list of tokens, [expr] leaves the cursor on a suffix of
    the list; and when it printed nothing, the terminals of the tree it
    returns, from left to right, are exactly the tokens in front of that
    suffix: no token is dropped, repeated or moved, the tokens behind the
    cursor are simply not read. *)
Theorem expr_tree_spells_consumed_tokens (lexed_input : list token) :
  exists head rest printed consumed,
    parse lexed_input = Some (Some head, mk_pstate rest printed)
    /\ lexed_input = (consumed ++ rest)%list
    /\ (printed = [] -> frontier head = map terminal_of_token consumed).
Proof.
  destruct (parse_returns lexed_input) as (c & E' & E & st' & Hp & _).
  destruct (parser_reads (parse_fuel lexed_input)) as (_ & _ & _ & _ & _ & He).
  destruct (He _ _ _ Hp) as (consumed & printed & Hc & Hout & Hf).
  destruct st' as [rest out]. cbn [lexed_in stdout app] in *. subst out.
  eexists _, rest, printed, consumed. split; [exact Hp |]. split; [exact Hc |].
  exact Hf.
Qed.

(** ** Parsing the fully parenthesized form again *)

Section Reparse.

Lemma lexemes_app a b : lexemes (a ++ b) = lexemes a ++ lexemes b.
Proof.
  induction a as [| t a IH]; [reflexivity |].
  cbn [app lexemes]. now rewrite IH, append_assoc.
Qed.

Lemma full_expr_eq a :
  full_expr a
  = match a with
    | Leaf lexeme => D_expr (atom_exprp lexeme) D_Expr_eps
    | Bin Add l r =>
        D_expr (D_exprp (D_exprpp_one (full_primary l)) D_Exprp_eps)
          (D_Expr_more Plus
             (D_exprp (D_exprpp_one (full_primary r)) D_Exprp_eps) D_Expr_eps)
    | Bin Sub l r =>
        D_expr (D_exprp (D_exprpp_one (full_primary l)) D_Exprp_eps)
          (D_Expr_more Minus
             (D_exprp (D_exprpp_one (full_primary r)) D_Exprp_eps) D_Expr_eps)
    | Bin Mul l r =>
        D_expr
          (D_exprp (D_exprpp_one (full_primary l))
             (D_Exprp_more Times (D_exprpp_one (full_primary r)) D_Exprp_eps))
          D_Expr_eps
    | Bin Div l r =>
        D_expr
          (D_exprp (D_exprpp_one (full_primary l))
             (D_Exprp_more Divide (D_exprpp_one (full_primary r)) D_Exprp_eps))
          D_Expr_eps
    | Bin Pow l r =>
        D_expr
          (D_exprp
             (D_exprpp_exp (full_primary l) (D_exprpp_one (full_primary r)))
             D_Exprp_eps)
          D_Expr_eps
    end.
Proof. destruct a as [lexeme | [] l r]; reflexivity. Qed.

Ltac unfold_full :=
  rewrite full_expr_eq;
  cbn [yield_expr yield_Expr yield_exprp yield_Exprp yield_exprpp
       ast_expr ast_Expr ast_exprp ast_Exprp ast_exprpp
       atoms_ok_expr atoms_ok_Expr atoms_ok_exprp atoms_ok_Exprp
       atoms_ok_exprpp atom_exprp addop_token mulop_token addop_binop
       mulop_binop];
  rewrite ?app_nil_r.

(** The fully parenthesized derivation spells the fully parenthesized
    form. *)
Lemma full_expr_lexemes a :
  lexemes (yield_expr (full_expr a)) = std_infix_top a
  /\ lexemes (yield_exprppp (full_primary a)) = std_infix a.
Proof.
  induction a as [lexeme | op l [_ IHl] r [_ IHr]].
  - split; cbn; now rewrite append_nil_r.
  - assert (Htop : lexemes (yield_expr (full_expr (Bin op l r)))
                   = std_infix_top (Bin op l r)).
    { destruct op; unfold_full; rewrite ?lexemes_app; cbn [lexemes tok_string];
        rewrite ?lexemes_app, IHl, IHr; reflexivity. }
    split; [exact Htop |].
    cbn [full_primary yield_exprppp lexemes tok_string].
    rewrite lexemes_app, Htop. cbn [lexemes tok_string std_infix std_infix_top].
    now rewrite !append_assoc.
Qed.

Lemma full_expr_ast a :
  ast_expr (full_expr a) = a /\ ast_exprppp (full_primary a) = a.
Proof.
  induction a as [lexeme | op l [_ IHl] r [_ IHr]]; [split; reflexivity |].
  assert (Htop : ast_expr (full_expr (Bin op l r)) = Bin op l r)
    by (destruct op; unfold_full; cbn [ast_exprppp]; now rewrite IHl, IHr).
  split; [exact Htop | exact Htop].
Qed.

Lemma full_expr_atoms a :
  atoms_ok_expr (full_expr a) = ast_atoms_ok a
  /\ atoms_ok_exprppp (full_primary a) = ast_atoms_ok a.
Proof.
  induction a as [lexeme | op l [_ IHl] r [_ IHr]].
  - split; cbn; now rewrite ?andb_true_r.
  - assert (Htop : atoms_ok_expr (full_expr (Bin op l r))
                   = ast_atoms_ok (Bin op l r))
      by (destruct op; unfold_full; rewrite IHl, IHr; cbn [ast_atoms_ok];
          now rewrite ?andb_true_r).
    split; [exact Htop | exact Htop].
Qed.

Lemma no_rparen_exp_app x y :
  no_rparen_exp x = true -> no_rparen_exp y = true ->
  head_type_in [EXP] y = false -> no_rparen_exp (x ++ y) = true.
Proof.
  intros Hx Hy Hh. induction x as [| t x IH]; [exact Hy |].
  cbn [app no_rparen_exp] in *. apply andb_true_iff in Hx.
  destruct Hx as [Ht Hx]. rewrite (IH Hx), andb_true_r.
  destruct x as [| t' x]; [| exact Ht].
  cbn [app]. now rewrite Hh, andb_false_r.
Qed.

(** When the base of every power is an atom, no right parenthesis of the
    fully parenthesized form is followed by [^]. *)
Lemma full_expr_no_rparen_exp a :
  power_bases_are_atoms a = true ->
  no_rparen_exp (yield_expr (full_expr a)) = true
  /\ no_rparen_exp (yield_exprppp (full_primary a)) = true.
Proof.
  induction a as [lexeme | op l IHl r IHr]; [split; reflexivity |].
  intros Hb.
  assert (Hlr : power_bases_are_atoms l = true
                /\ power_bases_are_atoms r = true).
  { cbn [power_bases_are_atoms] in Hb.
    destruct op, l; try discriminate; now apply andb_true_iff in Hb. }
  destruct Hlr as [Hl Hr].
  destruct (IHl Hl) as [_ IHl']. destruct (IHr Hr) as [_ IHr'].
  assert (Htop : no_rparen_exp (yield_expr (full_expr (Bin op l r))) = true).
  { destruct op; unfold_full;
      try (apply no_rparen_exp_app; [exact IHl' | | reflexivity];
           cbn [no_rparen_exp tok_type token_type_eqb andb negb];
           exact IHr').
    destruct l as [lexeme | ? ? ?]; [| discriminate].
    cbn [full_primary yield_exprppp app no_rparen_exp tok_type token_type_eqb
         andb negb].
    exact IHr'. }
  split; [exact Htop |].
  cbn [full_primary yield_exprppp no_rparen_exp tok_type token_type_eqb andb
       negb].
  apply no_rparen_exp_app; [exact Htop | reflexivity | reflexivity].
Qed.

End Reparse.

(** X11.  Round trip on the parse tree of a derivation whose atoms are
    well formed and in whose expression the base of every power is an
    atom: lexing and parsing the string of [compl_par] gives a tree with
    the same postfix and prefix renders. *)
Theorem reparse_keeps_renders (d : deriv_expr) :
  atoms_ok_expr d = true ->
  power_bases_are_atoms (ast_expr d) = true ->
  postfix (reparse (Some (tree_expr d))) = postfix (Some (tree_expr d))
  /\ prefix (reparse (Some (tree_expr d))) = prefix (Some (tree_expr d)).
Proof.
  intros Hok Hb.
  assert (Ha : ast_atoms_ok (ast_expr d) = true)
    by now apply ast_atoms_of_derivation.
  set (a := ast_expr d) in *.
  assert (Hre : reparse (Some (tree_expr d)) = Some (tree_expr (full_expr a))).
  { unfold reparse. rewrite compl_par_tree. fold a.
    rewrite (strip_parens_std_infix a Ha).
    rewrite <- (proj1 (full_expr_lexemes a)).
    rewrite tokens_of_yield by now rewrite (proj1 (full_expr_atoms a)).
    apply tree_of_yield. apply lookahead_agrees_no_rparen_exp.
    rewrite app_nil_r. now apply full_expr_no_rparen_exp. }
  rewrite Hre. unfold postfix, prefix. cbn [on_ptr].
  rewrite !(proj1 postfix_of_derivation), !(proj1 prefix_of_derivation).
  now rewrite (proj1 (full_expr_ast a)).
Qed.

Lemma reparse_keeps_renders_witness :
  atoms_ok_expr example_derivation = true
  /\ power_bases_are_atoms (ast_expr example_derivation) = true
  /\ postfix (reparse (Some (tree_expr example_derivation)))
     = postfix (Some (tree_expr example_derivation))
  /\ prefix (reparse (Some (tree_expr example_derivation)))
     = prefix (Some (tree_expr example_derivation)).
Proof.
  split; [reflexivity | split; [reflexivity |]].
  apply reparse_keeps_renders; reflexivity.
Defined.

(** ** A tree without a null pointer is a parse tree *)

Section Soundness.

Lemma operator_token_canonical t :
  token_ok t = true -> tok_type t <> ATOM -> t = operator_token (tok_type t).
Proof.
  destruct t as [type s]. unfold token_ok, operator_token.
  cbn [tok_type tok_string]. intros Hok Hty.
  assert (H : exists c, s = String c "" /\ operator_type c = Some type).
  { destruct type; try congruence;
      destruct s as [| c [| c' s']]; try discriminate; exists c;
      (split; [reflexivity |]);
      destruct (operator_type c) as [type' |]; try discriminate;
      apply token_type_eqb_eq in Hok; now subst. }
  destruct H as (c & -> & Hc). unfold operator_type in Hc.
  repeat match type of Hc with
         | (if Ascii.eqb ?a ?b then _ else _) = _ =>
             let E := fresh "E" in
             destruct (Ascii.eqb a b) eqn:E;
             [apply Ascii.eqb_eq in E; subst c; inversion Hc; reflexivity |]
         end.
  discriminate.
Qed.

Lemma builds_one {D} (m : M node_ptr) (yield : D -> list token) tree st c st1 :
  builds m yield tree ->
  forallb token_ok (lexed_in st) = true ->
  m st = Some (c, st1) -> no_null_ptr c = true ->
  exists d,
    c = Some (tree d) /\ lexed_in st = (yield d ++ lexed_in st1)%list
    /\ stdout st1 = stdout st
    /\ forallb token_ok (lexed_in st1) = true.
Proof.
  intros Hm Hok H Hnn. destruct (Hm _ _ _ Hok H Hnn) as (d & Hc & Hl & Ho).
  exists d. repeat split; auto.
  rewrite Hl, forallb_app in Hok. now apply andb_true_iff in Hok.
Qed.

Lemma terminal_inv type ntype msg st r st' :
  terminal type ntype msg st = Some (r, st') -> no_null_ptr r = true ->
  exists t,
    lexed_in st = t :: lexed_in st' /\ tok_type t = type
    /\ r = Some (Node ntype (tok_string t) []) /\ stdout st' = stdout st.
Proof.
  unfold terminal, bind, cursor, advance, printf, ret, create_node.
  destruct st as [[| t rest] out]; cbn [lexed_in stdout tl].
  - intros H Hnn. inversion H; subst. discriminate.
  - destruct (token_type_eqb (tok_type t) type) eqn:E;
      intros H Hnn; inversion H; subst; [| discriminate].
    apply token_type_eqb_eq in E. exists t. cbn [lexed_in stdout]. auto.
Qed.

Lemma operator_builds type ntype msg :
  type <> ATOM ->
  builds (terminal type ntype msg)
    (fun _ : unit => [operator_token type])
    (fun _ => Node ntype (tok_string (operator_token type)) []).
Proof.
  intros Hty st r st' Hok H Hnn.
  destruct (terminal_inv _ _ _ _ _ _ H Hnn) as (t & Hl & Ht & -> & Ho).
  rewrite Hl in Hok. cbn [forallb] in Hok. apply andb_true_iff in Hok.
  destruct Hok as [Hok _]. subst type.
  rewrite <- (operator_token_canonical t Hok Hty).
  exists tt. auto.
Qed.

Lemma atom_builds :
  builds atom (fun lexeme => [mk_token ATOM lexeme])
    (fun lexeme => Node NATOM lexeme []).
Proof.
  intros st r st' Hok H Hnn.
  destruct (terminal_inv _ _ _ _ _ _ H Hnn) as (t & Hl & Ht & -> & Ho).
  exists (tok_string t). destruct t as [type s]. cbn in *. subst type. auto.
Qed.

Lemma builds_cursor {D} (k : list token -> M node_ptr)
    (yield : D -> list token) tree :
  (forall cur, builds (k cur) yield tree) -> builds (bind cursor k) yield tree.
Proof. intros Hk st r st' Hok H. exact (Hk (lexed_in st) st r st' Hok H). Qed.

Lemma builds_null {D} (m : M unit) (yield : D -> list token) tree :
  builds (m ;;; ret None) yield tree.
Proof.
  intros st r st' _ H Hnn. apply bind_inv in H.
  destruct H as (a & st1 & _ & H). inversion H; subst. discriminate.
Qed.

Lemma builds_ret_null {D} (yield : D -> list token) tree :
  builds (ret None) yield tree.
Proof. intros st r st' _ H Hnn. inversion H; subst. discriminate. Qed.

Lemma builds_epsilon {D} type (yield : D -> list token) tree d :
  yield d = [] -> tree d = Node type "" [epsilon] ->
  builds (ret (create_node type "" [epsilon])) yield tree.
Proof.
  intros Hy Ht st r st' _ H _. inversion H; subst. exists d.
  rewrite Hy, Ht. auto.
Qed.

Lemma no_null_create type str c cs :
  no_null_ptr (create_node type str (c :: cs)) = true ->
  no_null_ptr c = true /\ no_null_ptr (create_node type str cs) = true.
Proof.
  unfold create_node. cbn [no_null_ptr no_null forallb]. intros H.
  now apply andb_true_iff in H.
Qed.

Ltac children Hnn :=
  repeat (let H := fresh "Hn" in
          apply no_null_create in Hnn; destruct Hnn as [H Hnn]).

Lemma builds_node1 {D0 D} m0 y0 t0 (yield : D -> list token) tree type
    (mk : D0 -> D) :
  builds m0 y0 t0 ->
  (forall d0, yield (mk d0) = y0 d0
              /\ tree (mk d0) = Node type "" [Some (t0 d0)]) ->
  builds (c0 <- m0 ;; ret (create_node type "" [c0])) yield tree.
Proof.
  intros H0 Hmk st r st' Hok H Hnn.
  apply bind_inv in H. destruct H as (c0 & st1 & Hc0 & H).
  inversion H; subst. children Hnn.
  destruct (builds_one _ _ _ _ _ _ H0 Hok Hc0 Hn) as (d0 & -> & Hl0 & Ho0 & _).
  exists (mk d0). destruct (Hmk d0) as [-> ->]. auto.
Qed.

Lemma builds_node2 {D0 D1 D} m0 m1 y0 t0 y1 t1 (yield : D -> list token) tree
    type (mk : D0 -> D1 -> D) :
  builds m0 y0 t0 -> builds m1 y1 t1 ->
  (forall d0 d1,
      yield (mk d0 d1) = (y0 d0 ++ y1 d1)%list
      /\ tree (mk d0 d1) = Node type "" [Some (t0 d0); Some (t1 d1)]) ->
  builds (c0 <- m0 ;; c1 <- m1 ;; ret (create_node type "" [c0; c1]))
    yield tree.
Proof.
  intros H0 H1 Hmk st r st' Hok H Hnn.
  apply bind_inv in H. destruct H as (c0 & st1 & Hc0 & H).
  apply bind_inv in H. destruct H as (c1 & st2 & Hc1 & H).
  inversion H; subst. children Hnn.
  destruct (builds_one _ _ _ _ _ _ H0 Hok Hc0 Hn) as (d0 & -> & Hl0 & Ho0 & Hok1).
  destruct (builds_one _ _ _ _ _ _ H1 Hok1 Hc1 Hn0) as (d1 & -> & Hl1 & Ho1 & _).
  exists (mk d0 d1). destruct (Hmk d0 d1) as [-> ->].
  rewrite Hl0, Hl1, Ho1, Ho0, app_assoc. auto.
Qed.

Lemma builds_node3 {D0 D1 D2 D} m0 m1 m2 y0 t0 y1 t1 y2 t2
    (yield : D -> list token) tree type (mk : D0 -> D1 -> D2 -> D) :
  builds m0 y0 t0 -> builds m1 y1 t1 -> builds m2 y2 t2 ->
  (forall d0 d1 d2,
      yield (mk d0 d1 d2) = (y0 d0 ++ y1 d1 ++ y2 d2)%list
      /\ tree (mk d0 d1 d2)
         = Node type "" [Some (t0 d0); Some (t1 d1); Some (t2 d2)]) ->
  builds (c0 <- m0 ;; c1 <- m1 ;; c2 <- m2 ;;
          ret (create_node type "" [c0; c1; c2]))
    yield tree.
Proof.
  intros H0 H1 H2 Hmk st r st' Hok H Hnn.
  apply bind_inv in H. destruct H as (c0 & st1 & Hc0 & H).
  apply bind_inv in H. destruct H as (c1 & st2 & Hc1 & H).
  apply bind_inv in H. destruct H as (c2 & st3 & Hc2 & H).
  inversion H; subst. children Hnn.
  destruct (builds_one _ _ _ _ _ _ H0 Hok Hc0 Hn) as (d0 & -> & Hl0 & Ho0 & Hok1).
  destruct (builds_one _ _ _ _ _ _ H1 Hok1 Hc1 Hn0) as (d1 & -> & Hl1 & Ho1 & Hok2).
  destruct (builds_one _ _ _ _ _ _ H2 Hok2 Hc2 Hn1) as (d2 & -> & Hl2 & Ho2 & _).
  exists (mk d0 d1 d2). destruct (Hmk d0 d1 d2) as [-> ->].
  rewrite Hl0, Hl1, Hl2, Ho2, Ho1, Ho0, <- !app_assoc. auto.
Qed.

Lemma parser_builds fuel :
  builds (exprppp fuel) yield_exprppp tree_exprppp
  /\ builds (exprpp fuel) yield_exprpp tree_exprpp
  /\ builds (Exprp fuel) yield_Exprp tree_Exprp
  /\ builds (exprp fuel) yield_exprp tree_exprp
  /\ builds (Expr fuel) yield_Expr tree_Expr
  /\ builds (expr fuel) yield_expr tree_expr.
Proof.
  induction fuel as [| fuel (IHppp & IHpp & IHPp & IHp & IHE & IHe)].
  { repeat apply conj; intros st r st' _ H; discriminate. }
  assert (Hexp : builds
            (c0 <- exprppp fuel ;; c1 <- expo ;; c2 <- exprpp fuel ;;
             ret (create_node NEXPRPP "" [c0; c1; c2]))
            yield_exprpp tree_exprpp).
  { apply (builds_node3 _ _ _ _ _ _ _ _ _ _ _ _
             (fun ppp (_ : unit) pp => D_exprpp_exp ppp pp) IHppp
             (operator_builds EXP _ _ ltac:(discriminate)) IHpp).
    intros; split; reflexivity. }
  assert (Hone : builds
            (c0 <- exprppp fuel ;; ret (create_node NEXPRPP "" [c0]))
            yield_exprpp tree_exprpp).
  { apply (builds_node1 _ _ _ _ _ _ D_exprpp_one IHppp).
    intros; split; reflexivity. }
  repeat apply conj.
  - cbn [exprppp]. apply builds_cursor. intros [| t rest].
    + apply builds_ret_null.
    + destruct (token_type_eqb (tok_type t) ATOM).
      * apply (builds_node1 _ _ _ _ _ _ D_atom atom_builds).
        intros; split; reflexivity.
      * apply (builds_node3 _ _ _ _ _ _ _ _ _ _ _ _
                 (fun (_ : unit) e (_ : unit) => D_paren e)
                 (operator_builds LPAREN _ _ ltac:(discriminate)) IHe
                 (operator_builds RPAREN _ _ ltac:(discriminate))).
        intros; split; reflexivity.
  - cbn [exprpp]. apply builds_cursor. intros [| t rest].
    + apply builds_ret_null.
    + destruct (token_type_eqb (tok_type t) ATOM).
      * destruct (next_is_EXP _); assumption.
      * destruct (lookahead_loop _).
        -- apply builds_null.
        -- destruct (next_is_EXP _); assumption.
  - cbn [Exprp]. apply builds_cursor. intros [| t rest].
    + now apply (builds_epsilon _ _ _ D_Exprp_eps).
    + destruct (tok_type t);
        try (now apply (builds_epsilon _ _ _ D_Exprp_eps)).
      * apply (builds_node3 _ _ _ _ _ _ _ _ _ _ _ _
                 (fun (_ : unit) pp Ep => D_Exprp_more Times pp Ep)
                 (operator_builds MUL _ _ ltac:(discriminate)) IHpp IHPp).
        intros; split; reflexivity.
      * apply (builds_node3 _ _ _ _ _ _ _ _ _ _ _ _
                 (fun (_ : unit) pp Ep => D_Exprp_more Divide pp Ep)
                 (operator_builds DIV _ _ ltac:(discriminate)) IHpp IHPp).
        intros; split; reflexivity.
  - cbn [exprp]. apply (builds_node2 _ _ _ _ _ _ _ _ _ D_exprp IHpp IHPp).
    intros; split; reflexivity.
  - cbn [Expr]. apply builds_cursor. intros [| t rest].
    + now apply (builds_epsilon _ _ _ D_Expr_eps).
    + destruct (tok_type t);
        try (now apply (builds_epsilon _ _ _ D_Expr_eps)).
      * apply (builds_node3 _ _ _ _ _ _ _ _ _ _ _ _
                 (fun (_ : unit) p E => D_Expr_more Plus p E)
                 (operator_builds ADD _ _ ltac:(discriminate)) IHp IHE).
        intros; split; reflexivity.
      * apply (builds_node3 _ _ _ _ _ _ _ _ _ _ _ _
                 (fun (_ : unit) p E => D_Expr_more Minus p E)
                 (operator_builds SUB _ _ ltac:(discriminate)) IHp IHE).
        intros; split; reflexivity.
  - cbn [expr]. apply (builds_node2 _ _ _ _ _ _ _ _ _ D_expr IHp IHE).
    intros; split; reflexivity.
Qed.

Lemma yield_atoms_ok :
  (forall d, forallb token_ok (yield_expr d) = true -> atoms_ok_expr d = true)
  /\ (forall d, forallb token_ok (yield_Expr d) = true -> atoms_ok_Expr d = true)
  /\ (forall d, forallb token_ok (yield_exprp d) = true -> atoms_ok_exprp d = true)
  /\ (forall d, forallb token_ok (yield_Exprp d) = true -> atoms_ok_Exprp d = true)
  /\ (forall d, forallb token_ok (yield_exprpp d) = true ->
        atoms_ok_exprpp d = true)
  /\ (forall d, forallb token_ok (yield_exprppp d) = true ->
        atoms_ok_exprppp d = true).
Proof.
  apply deriv_mutind; cbn [atoms_ok_expr atoms_ok_Expr atoms_ok_exprp
    atoms_ok_Exprp atoms_ok_exprpp atoms_ok_exprppp yield_expr yield_Expr
    yield_exprp yield_Exprp yield_exprpp yield_exprppp];
    intros;
    repeat match goal with
           | H : forallb _ (_ ++ _) = true |- _ => rewrite forallb_app in H
           | H : forallb _ (_ :: _) = true |- _ => cbn [forallb] in H
           | H : _ && _ = true |- _ =>
               apply andb_true_iff in H; destruct H
           end;
    repeat match goal with
           | H : _ -> _ = true |- _ => rewrite H by assumption
           end;
    try reflexivity.
  assumption.
Qed.

Lemma tokens_of_ok user_input :
  forallb token_ok (tokens_of user_input) = true
  /\ lexemes (tokens_of user_input) = user_input
     \/ tokens_of user_input = [].
Proof.
  unfold tokens_of. pose proof (input_lexer_spec user_input) as H.
  destruct (string_forall valid_char user_input).
  - destruct H as (toks & -> & Hl & Hok & _). cbn [lex_tokens]. auto.
  - rewrite H. auto.
Qed.

Lemma parse_without_null lexed_input :
  forallb token_ok lexed_input = true ->
  no_null_ptr (tree_of lexed_input) = true ->
  exists d rest,
    parse lexed_input = Some (Some (tree_expr d), mk_pstate rest [])
    /\ lexed_input = (yield_expr d ++ rest)%list.
Proof.
  intros Hok Hnn. unfold tree_of in Hnn.
  destruct (parse lexed_input) as [[head [rest printed]] |] eqn:Hp;
    [| discriminate].
  destruct (parser_builds (parse_fuel lexed_input)) as (_ & _ & _ & _ & _ & He).
  destruct (He (mk_pstate lexed_input []) _ _ Hok Hp Hnn) as (d & -> & Hl & Ho).
  cbn [lexed_in stdout] in Hl, Ho. subst printed. now exists d, rest.
Qed.

End Soundness.

(** X12.  Whenever the tree that [expr] returns for well-formed tokens holds
    no null pointer, [expr] printed nothing and the tree is the parse tree
    of a derivation of the grammar whose tokens are exactly the tokens in
    front of the final cursor. *)
Theorem tree_without_null_is_a_parse_tree (lexed_input : list token) :
  forallb token_ok lexed_input = true ->
  no_null_ptr (tree_of lexed_input) = true ->
  exists d rest,
    parse lexed_input = Some (Some (tree_expr d), mk_pstate rest [])
    /\ lexed_input = (yield_expr d ++ rest)%list
    /\ atoms_ok_expr d = true.
Proof.
  intros Hok Hnn.
  destruct (parse_without_null lexed_input Hok Hnn) as (d & rest & Hp & Hl).
  exists d, rest. split; [exact Hp | split; [exact Hl |]].
  apply yield_atoms_ok. rewrite Hl, forallb_app in Hok.
  now apply andb_true_iff in Hok.
Qed.

Lemma tree_without_null_is_a_parse_tree_witness :
  let toks := tokens_of "((a))^b" in
  forallb token_ok toks = true /\ no_null_ptr (tree_of toks) = true
  /\ exists d rest,
       parse toks = Some (Some (tree_expr d), mk_pstate rest [])
       /\ toks = (yield_expr d ++ rest)%list /\ atoms_ok_expr d = true.
Proof.
  cbv zeta. split; [reflexivity | split; [reflexivity |]].
  apply tree_without_null_is_a_parse_tree; reflexivity.
Defined.

(** X13.  Whenever the tree built for a line holds no null pointer, the line
    is an expression of the grammar followed by the characters of the
    tokens that were not read, and the three strings the program computes
    are the fully parenthesized, postfix and prefix forms of that
    expression. *)
Theorem run_without_null (user_input : string) :
  no_null_ptr (tree_of (tokens_of user_input)) = true ->
  exists d rest,
    user_input = lexemes (yield_expr d) ++ lexemes rest
    /\ tokens_of user_input = (yield_expr d ++ rest)%list
    /\ run user_input
       = mk_renders (Some (std_infix_top (ast_expr d)))
           (Some (std_postfix (ast_expr d))) (Some (std_prefix (ast_expr d))).
Proof.
  intros Hnn. unfold run, render_all.
  destruct (tokens_of_ok user_input) as [[Hok Hlex] | Hnil];
    [| rewrite Hnil in Hnn; discriminate].
  destruct (parse_without_null _ Hok Hnn) as (d & rest & Hp & Hl).
  exists d, rest. split; [now rewrite <- Hlex, Hl, lexemes_app |].
  split; [exact Hl |].
  unfold tree_of. rewrite Hp, compl_par_tree.
  rewrite strip_parens_std_infix.
  - f_equal.
    + exact (proj1 postfix_of_derivation d).
    + exact (proj1 prefix_of_derivation d).
  - apply ast_atoms_of_derivation, yield_atoms_ok.
    rewrite Hl, forallb_app in Hok. now apply andb_true_iff in Hok.
Qed.

Lemma run_without_null_witness :
  no_null_ptr (tree_of (tokens_of "((a))^b")) = true
  /\ exists d rest,
       "((a))^b" = lexemes (yield_expr d) ++ lexemes rest
       /\ tokens_of "((a))^b" = (yield_expr d ++ rest)%list
       /\ run "((a))^b"
          = mk_renders (Some (std_infix_top (ast_expr d)))
              (Some (std_postfix (ast_expr d)))
              (Some (std_prefix (ast_expr d))).
Proof.
  split; [reflexivity |]. apply run_without_null. reflexivity.
Defined.

(** ** Where the parser is right, the lookahead agrees *)

Section Converse.

Lemma no_null_tree :
  (forall d, no_null (tree_expr d) = true)
  /\ (forall d, no_null (tree_Expr d) = true)
  /\ (forall d, no_null (tree_exprp d) = true)
  /\ (forall d, no_null (tree_Exprp d) = true)
  /\ (forall d, no_null (tree_exprpp d) = true)
  /\ (forall d, no_null (tree_exprppp d) = true).
Proof.
  apply deriv_mutind; intros;
    cbn [tree_expr tree_Expr tree_exprp tree_Exprp tree_exprpp tree_exprppp
         no_null forallb epsilon create_node];
    repeat match goal with H : no_null _ = true |- _ => rewrite H; clear H end;
    try reflexivity; now destruct op.
Qed.

Lemma tree_injective :
  (forall d d', tree_expr d = tree_expr d' -> d = d')
  /\ (forall d d', tree_Expr d = tree_Expr d' -> d = d')
  /\ (forall d d', tree_exprp d = tree_exprp d' -> d = d')
  /\ (forall d d', tree_Exprp d = tree_Exprp d' -> d = d')
  /\ (forall d d', tree_exprpp d = tree_exprpp d' -> d = d')
  /\ (forall d d', tree_exprppp d = tree_exprppp d' -> d = d').
Proof.
  apply deriv_mutind; intros;
    match goal with
    | H : _ = ?t ?d' |- _ = ?d' => destruct d'
    end;
    cbn [tree_expr tree_Expr tree_exprp tree_Exprp tree_exprpp tree_exprppp
         epsilon create_node] in *;
    match goal with H : Node _ _ _ = Node _ _ _ |- _ => inversion H end;
    repeat match goal with
           | IH : forall d', ?t ?d = ?t d' -> ?d = d', H : ?t ?d = ?t _ |- _ =>
               apply IH in H; subst
           end;
    try reflexivity;
    repeat match goal with
           | H : addop_node ?a = addop_node ?b |- _ =>
               destruct a, b; try discriminate H; clear H
           | H : mulop_node ?a = mulop_node ?b |- _ =>
               destruct a, b; try discriminate H; clear H
           end;
    reflexivity.
Qed.

(** A parse function that returns the tree of [d] has moved the cursor over
    the tokens of [d]. *)
Lemma tree_fixes_cursor {D} (m : M node_ptr) (yield : D -> list token) tree
    d rest out st' :
  builds m yield tree ->
  (forall d, no_null (tree d) = true) ->
  (forall d d', tree d = tree d' -> d = d') ->
  forallb token_ok (yield d ++ rest) = true ->
  m (mk_pstate (yield d ++ rest)%list out) = Some (Some (tree d), st') ->
  exists out', st' = mk_pstate rest out'.
Proof.
  intros Hm Hnn Hinj Hok H.
  destruct (Hm (mk_pstate (yield d ++ rest) out) _ _ Hok H (Hnn d))
    as (d' & Hd & Hl & _).
  inversion Hd as [Ht]. apply Hinj in Ht. subst d'.
  cbn [lexed_in] in Hl. apply app_inv_head in Hl.
  destruct st' as [l o]. cbn [lexed_in] in Hl. subst l. now exists o.
Qed.

Lemma head_test t rest : next_is_EXP (t :: rest) = head_type_in [EXP] rest.
Proof.
  unfold next_is_EXP, head_type_in. cbn [tl existsb].
  destruct rest; [reflexivity | now rewrite orb_false_r].
Qed.

(** Which production [exprpp] takes in front of an [exprppp]. *)
Lemma exprpp_production fuel ppp rest out :
  exprpp (S fuel) (mk_pstate (yield_exprppp ppp ++ rest) out)
  = (if exprpp_test ppp rest then
       c0 <- exprppp fuel ;; c1 <- expo ;; c2 <- exprpp fuel ;;
       ret (create_node NEXPRPP "" [c0; c1; c2])
     else
       c0 <- exprppp fuel ;; ret (create_node NEXPRPP "" [c0]))
      (mk_pstate (yield_exprppp ppp ++ rest) out).
Proof.
  cbn [exprpp]. unfold bind at 1, cursor. cbn [lexed_in].
  destruct ppp as [lexeme | e]; cbn [exprpp_test].
  - cbn [yield_exprppp app tok_type token_type_eqb]. now rewrite head_test.
  - cbn [yield_exprppp app tok_type token_type_eqb].
    rewrite <- app_assoc. cbn [app].
    destruct (lookahead_loop _) as [| t' rest'] eqn:El; [| reflexivity].
    exfalso.
    exact (lookahead_loop_finds (mk_token LPAREN "(" :: yield_expr e) rest El).
Qed.

Lemma lookahead_agrees_split ppp rest :
  lookahead_agrees_exprppp ppp rest
  = match ppp with
    | D_atom _ => true
    | D_paren _ => Bool.eqb (exprpp_test ppp rest) (head_type_in [EXP] rest)
    end && lookahead_agrees_inside ppp rest.
Proof. now destruct ppp. Qed.

Lemma forallb_app_r {A} (f : A -> bool) a b :
  forallb f (a ++ b) = true -> forallb f b = true.
Proof. rewrite forallb_app. intros H. now apply andb_true_iff in H. Qed.

Ltac binds H :=
  repeat (let c := fresh "c" in
          let st := fresh "st" in
          let Hc := fresh "Hc" in
          apply bind_inv in H; destruct H as (c & st & Hc & H));
  inversion H; subst; clear H.

Ltac follow_set :=
  first [ eassumption
        | reflexivity
        | apply head_after_Expr; [intros []; reflexivity | assumption]
        | apply head_after_Exprp; [intros []; reflexivity | assumption]
        | match goal with
          | |- head_type_in [] ?r = false => destruct r; reflexivity
          end ].

Ltac on_terminal H :=
  rewrite terminal_match in H by reflexivity; inversion H; subst; clear H.

Ltac on_call H B N I Hok :=
  let out := fresh "out" in
  let E := fresh "E" in
  destruct (tree_fixes_cursor _ _ _ _ _ _ _ B N I Hok H) as (out & E);
  subst.

Lemma parser_follows :
  (forall d, follows expr yield_expr tree_expr lookahead_agrees_expr
               [ADD; SUB; MUL; DIV; EXP] d)
  /\ (forall d, follows Expr yield_Expr tree_Expr lookahead_agrees_Expr
                  [ADD; SUB; MUL; DIV; EXP] d)
  /\ (forall d, follows exprp yield_exprp tree_exprp lookahead_agrees_exprp
                  [MUL; DIV; EXP] d)
  /\ (forall d, follows Exprp yield_Exprp tree_Exprp lookahead_agrees_Exprp
                  [MUL; DIV; EXP] d)
  /\ (forall d, follows exprpp yield_exprpp tree_exprpp lookahead_agrees_exprpp
                  [EXP] d)
  /\ (forall d, follows exprppp yield_exprppp tree_exprppp
                  lookahead_agrees_inside [] d).
Proof.
  destruct no_null_tree as (Ne & NE & Np & NP & Npp & Nppp).
  destruct tree_injective as (Ie & IE & Ip & IP & Ipp & Ippp).
  apply deriv_mutind; unfold follows.
  - (* expr -> exprp Expr *)
    intros p IHp E IHE rest out [| fuel] st' Hok Hfol H; [discriminate |].
    destruct (parser_builds fuel) as (Bppp & Bpp & BPp & Bp & BE & Be).
    cbn [yield_expr expr tree_expr lookahead_agrees_expr] in *.
    rewrite <- app_assoc in *. binds H.
    on_call Hc Bp Np Ip Hok.
    rewrite (IHp _ _ _ _ Hok ltac:(follow_set) Hc).
    now rewrite (IHE _ _ _ _ (forallb_app_r _ _ _ Hok) Hfol Hc0).
  - (* Expr -> + exprp Expr, Expr -> - exprp Expr *)
    intros op p IHp E IHE rest out [| fuel] st' Hok Hfol H; [discriminate |].
    destruct (parser_builds fuel) as (Bppp & Bpp & BPp & Bp & BE & Be).
    cbn [yield_Expr Expr tree_Expr lookahead_agrees_Expr app] in *.
    unfold bind at 1, cursor in H. cbn [lexed_in] in H.
    rewrite <- app_assoc in *.
    cbn [forallb] in Hok. apply andb_true_iff in Hok. destruct Hok as [_ Hok].
    destruct op; cbn [addop_token tok_type addop_node] in H; binds H;
      unfold add, sub in *; on_terminal Hc; on_call Hc0 Bp Np Ip Hok;
      rewrite (IHp _ _ _ _ Hok ltac:(follow_set) Hc0);
      now rewrite (IHE _ _ _ _ (forallb_app_r _ _ _ Hok) Hfol Hc1).
  - (* Expr -> epsilon *)
    reflexivity.
  - (* exprp -> exprpp Exprp *)
    intros pp IHpp Ep IHEp rest out [| fuel] st' Hok Hfol H; [discriminate |].
    destruct (parser_builds fuel) as (Bppp & Bpp & BPp & Bp & BE & Be).
    cbn [yield_exprp exprp tree_exprp lookahead_agrees_exprp] in *.
    rewrite <- app_assoc in *. binds H.
    on_call Hc Bpp Npp Ipp Hok.
    rewrite (IHpp _ _ _ _ Hok ltac:(follow_set) Hc).
    now rewrite (IHEp _ _ _ _ (forallb_app_r _ _ _ Hok) Hfol Hc0).
  - (* Exprp -> * exprpp Exprp, Exprp -> / exprpp Exprp *)
    intros op pp IHpp Ep IHEp rest out [| fuel] st' Hok Hfol H; [discriminate |].
    destruct (parser_builds fuel) as (Bppp & Bpp & BPp & Bp & BE & Be).
    cbn [yield_Exprp Exprp tree_Exprp lookahead_agrees_Exprp app] in *.
    unfold bind at 1, cursor in H. cbn [lexed_in] in H.
    rewrite <- app_assoc in *.
    cbn [forallb] in Hok. apply andb_true_iff in Hok. destruct Hok as [_ Hok].
    destruct op; cbn [mulop_token tok_type mulop_node] in H; binds H;
      unfold mul, quo in *; on_terminal Hc; on_call Hc0 Bpp Npp Ipp Hok;
      rewrite (IHpp _ _ _ _ Hok ltac:(follow_set) Hc0);
      now rewrite (IHEp _ _ _ _ (forallb_app_r _ _ _ Hok) Hfol Hc1).
  - (* Exprp -> epsilon *)
    reflexivity.
  - (* exprpp -> exprppp ^ exprpp *)
    intros ppp IHppp pp IHpp rest out [| fuel] st' Hok Hfol H; [discriminate |].
    destruct (parser_builds fuel) as (Bppp & Bpp & BPp & Bp & BE & Be).
    cbn [yield_exprpp tree_exprpp lookahead_agrees_exprpp] in *.
    rewrite <- app_assoc in *. cbn [app] in *.
    rewrite exprpp_production in H. rewrite lookahead_agrees_split.
    destruct (exprpp_test ppp _) eqn:T; binds H.
    on_call Hc Bppp Nppp Ippp Hok. unfold expo in *. on_terminal Hc0.
    rewrite (IHppp _ _ _ _ Hok eq_refl Hc).
    apply forallb_app_r in Hok. cbn [forallb] in Hok.
    apply andb_true_iff in Hok. destruct Hok as [_ Hok].
    rewrite (IHpp _ _ _ _ Hok Hfol Hc1).
    now destruct ppp.
  - (* exprpp -> exprppp *)
    intros ppp IHppp rest out [| fuel] st' Hok Hfol H; [discriminate |].
    destruct (parser_builds fuel) as (Bppp & Bpp & BPp & Bp & BE & Be).
    cbn [yield_exprpp tree_exprpp lookahead_agrees_exprpp] in *.
    rewrite exprpp_production in H. rewrite lookahead_agrees_split.
    destruct (exprpp_test ppp _) eqn:T; binds H.
    rewrite (IHppp _ _ _ _ Hok ltac:(follow_set) Hc), Hfol.
    now destruct ppp.
  - (* exprppp -> atom *)
    reflexivity.
  - (* exprppp -> ( expr ) *)
    intros e IHe rest out [| fuel] st' Hok _ H; [discriminate |].
    destruct (parser_builds fuel) as (Bppp & Bpp & BPp & Bp & BE & Be).
    cbn [yield_exprppp exprppp tree_exprppp lookahead_agrees_inside app] in *.
    unfold bind at 1, cursor in H.
    cbn [lexed_in tok_type token_type_eqb] in H.
    rewrite <- app_assoc in *. cbn [app] in *.
    cbn [forallb] in Hok. apply andb_true_iff in Hok. destruct Hok as [_ Hok].
    binds H. unfold lparen in *. on_terminal Hc.
    exact (IHe _ _ _ _ Hok eq_refl Hc0).
Qed.

End Converse.

(** X14.  The converse of X1 for well-formed atoms: when [expr] returns the
    parse tree of a derivation on its tokens, the test of [exprpp] gave,
    at every parenthesized operand, what the token behind the matching
    right parenthesis gives.  So the derivations on which the lookahead
    disagrees somewhere are exactly those whose parse tree [expr] does not
    return. *)
Theorem lookahead_agrees_where_expr_is_right (d : deriv_expr) :
  atoms_ok_expr d = true ->
  tree_of (yield_expr d) = Some (tree_expr d) ->
  lookahead_agrees_expr d [] = true.
Proof.
  intros Hok Ht. unfold tree_of in Ht.
  destruct (parse (yield_expr d)) as [[head st'] |] eqn:Hp; [| discriminate].
  subst head. unfold parse in Hp.
  destruct parser_follows as (He & _).
  apply (He d [] [] (parse_fuel (yield_expr d)) st').
  - rewrite app_nil_r. now apply yield_tokens_ok.
  - reflexivity.
  - now rewrite app_nil_r.
Qed.

Lemma lookahead_agrees_where_expr_is_right_witness :
  atoms_ok_expr example_derivation = true
  /\ tree_of (yield_expr example_derivation)
     = Some (tree_expr example_derivation)
  /\ lookahead_agrees_expr example_derivation [] = true.
Proof.
  split; [reflexivity | split; [reflexivity |]].
  apply lookahead_agrees_where_expr_is_right; reflexivity.
Defined.

(** ** The line that [main] hands to the lexer *)

Section ReadLine.

Lemma read_line_spec n stdin :
  exists x,
    read_line n stdin = (firstn n (until newline stdin) ++ x)%list
    /\ (x = [] \/ x = [newline]).
Proof.
  revert stdin. induction n as [| n IH]; intros [| c rest]; cbn [read_line];
    try (exists []; rewrite ?firstn_nil; cbn; auto; fail).
  cbn [until]. destruct (Ascii.eqb c newline) eqn:E.
  - apply Ascii.eqb_eq in E. subst c. exists [newline]. cbn. auto.
  - destruct (IH rest) as (x & -> & Hx). exists x. cbn. auto.
Qed.

Lemma read_line_nil n stdin :
  read_line (S n) stdin = [] <-> stdin = [].
Proof.
  destruct stdin as [| c rest]; cbn [read_line]; [tauto |].
  destruct (Ascii.eqb c newline); split; discriminate.
Qed.

Lemma until_no_stop stop s : ~ In stop (until stop s).
Proof.
  induction s as [| c rest IH]; cbn [until]; [tauto |].
  destruct (Ascii.eqb c stop) eqn:E; [tauto |].
  apply Ascii.eqb_neq in E. cbn [In]. intuition congruence.
Qed.

Lemma newline_loop_ge user_input steps :
  forall i, i <= newline_loop user_input i steps.
Proof.
  induction steps as [| steps IH]; intros i; cbn [newline_loop]; [lia |].
  destruct (_ && _); [| lia]. specialize (IH (S i)). lia.
Qed.

(** The loop steps over the characters of [body], which holds no newline. *)
Lemma newline_loop_skips body :
  forall pre rest steps,
    ~ In newline body ->
    List.length pre + List.length body <= MAX_CHARS - 1 ->
    List.length body <= steps ->
    newline_loop (pre ++ body ++ rest) (List.length pre) steps
    = newline_loop (pre ++ body ++ rest)
        (List.length pre + List.length body) (steps - List.length body).
Proof.
  induction body as [| c body IH]; intros pre rest steps Hnl Hlen Hsteps.
  - cbn [List.length]. now rewrite Nat.add_0_r, Nat.sub_0_r.
  - cbn [List.length] in *. destruct steps as [| steps]; [lia |].
    cbn [newline_loop].
    rewrite app_nth2, Nat.sub_diag by lia. cbn [app nth].
    assert (E : Ascii.eqb c newline = false).
    { apply Ascii.eqb_neq. intros ->. apply Hnl. now left. }
    rewrite E. replace (_ <? _)%nat with true by (symmetry; apply Nat.ltb_lt; lia).
    cbn [andb negb].
    replace (pre ++ c :: body ++ rest)%list
      with ((pre ++ [c]) ++ body ++ rest)%list by now rewrite <- app_assoc.
    replace (S (List.length pre)) with (List.length (pre ++ [c]))
      by (rewrite length_app; cbn; lia).
    rewrite IH.
    + rewrite length_app. cbn [List.length]. f_equal; lia.
    + intros H. apply Hnl. now right.
    + rewrite length_app. cbn [List.length]. lia.
    + lia.
Qed.

Lemma c_string_store_behind body tail i :
  List.length body <= i ->
  c_string (store (body ++ NUL :: tail) i NUL) = c_string body.
Proof.
  unfold c_string. revert i. induction body as [| c body IH]; intros i Hi.
  - destruct i; reflexivity.
  - cbn [List.length] in Hi. destruct i as [| i]; [lia |].
    cbn [app store until]. destruct (Ascii.eqb c NUL); [reflexivity |].
    cbn [string_of_list_ascii]. f_equal. apply IH. lia.
Qed.

Lemma c_string_store_at body x tail :
  c_string (store (body ++ x :: tail) (List.length body) NUL) = c_string body.
Proof.
  unfold c_string. induction body as [| c body IH]; [reflexivity |].
  cbn [app store until List.length]. destruct (Ascii.eqb c NUL); [reflexivity |].
  cbn [string_of_list_ascii]. now f_equal.
Qed.

Lemma trimmed_line body x tail :
  ~ In newline body -> List.length body <= MAX_CHARS - 1 ->
  x = [] \/ x = [newline] ->
  let user_input := ((body ++ x) ++ NUL :: tail)%list in
  c_string (store user_input (newline_loop user_input 0 MAX_CHARS) NUL)
  = c_string body.
Proof.
  intros Hnl Hlen Hx user_input. subst user_input.
  rewrite <- app_assoc.
  pose proof (newline_loop_skips body [] (x ++ NUL :: tail) MAX_CHARS Hnl)
    as Hskip.
  cbn [app List.length Nat.add] in Hskip. rewrite Hskip; clear Hskip;
    [| exact Hlen | unfold MAX_CHARS in *; lia].
  destruct Hx as [-> | ->]; cbn [app].
  - apply c_string_store_behind, newline_loop_ge.
  - replace (newline_loop _ _ _) with (List.length body).
    + apply c_string_store_at.
    + destruct (MAX_CHARS - List.length body) as [| steps] eqn:E;
        [reflexivity |].
      cbn [newline_loop]. rewrite app_nth2, Nat.sub_diag by lia.
      cbn [nth]. rewrite Ascii.eqb_refl. now rewrite andb_false_r.
Qed.

End ReadLine.

(** X15.  [main] stops when nothing can be read; otherwise the string it
    hands to the lexer is the first line of the input without its newline,
    cut after [MAX_CHARS - 1] characters, whatever the array held before:
    the characters behind the null character of [fgets], over which the
    loop may run, never reach the lexer. *)
Theorem main_reads_the_first_line (user_input stdin : list ascii) :
  main user_input stdin
  = match stdin with
    | [] => None
    | _ :: _ =>
        Some (run (c_string (firstn (MAX_CHARS - 1) (until newline stdin))))
    end.
Proof.
  unfold main, fgets.
  destruct (read_line_spec (MAX_CHARS - 1) stdin) as (x & Hline & Hx).
  destruct (read_line (MAX_CHARS - 1) stdin) as [| c line] eqn:E.
  - apply (proj1 (read_line_nil (MAX_CHARS - 2) stdin)) in E. now subst stdin.
  - destruct stdin as [| c' stdin']; [discriminate |].
    cbv zeta. rewrite Hline. f_equal. f_equal. apply trimmed_line.
    + intros H. apply (until_no_stop newline (c' :: stdin')).
      rewrite <- (firstn_skipn (MAX_CHARS - 1)). apply in_or_app. now left.
    + apply firstn_le_length.
    + exact Hx.
Qed.
